(** * moody-mapper: the face-transition mapping compiler and the bitmap packer

    A shallow embedding of
    - [src/composables/mapping.ts]  (module [Mapping]),
    - [src/js/mapper.js]            (module [Mapper]),
    - the GoJS diagram set-up with its [LinkDrawn] listener (module [GoDiagram]),
    - the image thresholding, the history, [mirror] and [drawLine] of
      [src/components/TheEditor.vue] (module [Editor]),
    followed by the properties of the specification, stated over these
    definitions.

    JavaScript values are modelled as follows.
    - A string is a [string]; its characters stand for UTF-16 code units in
      the ASCII range, so that the default order of [Array.prototype.sort]
      is the lexicographic order on character codes and [toUpperCase] maps
      [a..z] to [A..Z].
    - An object used as a dictionary is a [gmap] of its own properties.
      Where the keys are names the user chooses (the names of the cells and
      of the faces in [mapping.ts], the folders of the upload and the names
      of the imported nodes in [mapper.js]), reading a name that the object
      does not have finds the property it inherits from [Object.prototype],
      if there is one: [JS.inherited] says for which names.
    - A thrown exception is [None]; the result of an [async] function is
      [Resolved] with a value or [Rejected] with the message of the error. *)

From Stdlib Require Import String Ascii List ZArith Lia Bool Sorted Permutation.
From stdpp Require Import base option list gmap strings pretty sorting.

(** ** JavaScript primitives *)

Module JS.

Definition toUpperCaseChar (c : ascii) : ascii :=
  let n := nat_of_ascii c in
  if (97 <=? n)%nat && (n <=? 122)%nat then ascii_of_nat (n - 32) else c.

(** [String.prototype.toUpperCase] *)
Fixpoint toUpperCase (s : string) : string :=
  match s with
  | EmptyString => EmptyString
  | String c s' => String (toUpperCaseChar c) (toUpperCase s')
  end.

(** [Array.prototype.join] on an array of strings *)
Definition join (sep : string) (l : list string) : string := String.concat sep l.

(** The comparison [Array.prototype.sort] uses when it is given no
    comparator: code unit by code unit. *)
Definition le (s1 s2 : string) : Prop := String.leb s1 s2 = true.

Fixpoint insert_sorted (x : string) (l : list string) : list string :=
  match l with
  | [] => [x]
  | y :: l' => if String.leb x y then x :: y :: l' else y :: insert_sorted x l'
  end.

(** [Array.prototype.sort] without a comparator.  The order is total and
    antisymmetric on strings, so every sorting algorithm returns the same
    array; insertion sort stands for the engine's. *)
Fixpoint sort (l : list string) : list string :=
  match l with
  | [] => []
  | x :: l' => insert_sorted x (sort l')
  end.

(** [Array(n).fill(x)] *)
Definition fill {A} (n : nat) (x : A) : list A := replicate n x.

Definition newline : string := String (ascii_of_nat 10) EmptyString.

(** A JavaScript value used as a property key: [undefined] becomes the
    key ["undefined"]. *)
Definition propertyKey (v : option string) : string := default "undefined" v.

(** Truthiness of a possibly undefined string: [undefined] and the empty
    string are falsy. *)
Definition truthy (v : option string) : bool :=
  match v with
  | None => false
  | Some s => negb (String.eqb s "")
  end.

(** The names of the properties an object literal inherits from
    [Object.prototype].  Read through [obj[key]] they give a function, or
    the prototype itself for [__proto__]: a truthy value that is not
    iterable. *)
Definition inherited (key : string) : bool :=
  bool_decide (key ∈ ["constructor"; "__defineGetter__"; "__defineSetter__";
                      "hasOwnProperty"; "__lookupGetter__"; "__lookupSetter__";
                      "isPrototypeOf"; "propertyIsEnumerable"; "toString"; "valueOf";
                      "__proto__"; "toLocaleString"]).

(** [String.prototype.split] with a separator of one character. *)
Fixpoint split (sep : ascii) (s : string) : list string :=
  match s with
  | EmptyString => [EmptyString]
  | String c s' =>
      if Ascii.eqb c sep then EmptyString :: split sep s'
      else match split sep s' with
           | [] => [String c EmptyString]
           | part :: rest => String c part :: rest
           end
  end.

End JS.

(** ** [src/composables/mapping.ts] *)

Module Mapping.

Definition INVALID_FACE : string := "INVALID_FACE".

(** An entry of the faces store. *)
Record Face := { name : string; images : list string }.

(** Modelled from the spec: the declarations of [AbstractedLink] and
    [AbstractedRectangleImage] are not among the sources.  A cell of
    [graphConfig.cells] is an element (which has a [name]) or a link (which
    has [source.id] and [target.id]), with the fields that [mapping.ts]
    reads; a field the object does not have is [None], and for a link end
    [None] also stands for an end that carries no [id].  The specification
    gives a link record an optional flag [isBiDirectional]:
    [cell_isBiDirectional] is that flag, [false] when the record has none.
    No function of [mapping.ts] reads it. *)
Record Cell := {
  cell_type : string;
  cell_id : string;
  cell_name : option string;
  source_id : option string;
  target_id : option string;
  cell_isBiDirectional : bool
}.

Definition isLink (c : Cell) : bool := String.eqb (cell_type c) "standard.Link".

(** [getElementNameById]: [find] returns [undefined] when no cell has the
    identifier, and reading [.name] of [undefined] throws.  Every cell has
    a string [id], so an [undefined] identifier finds nothing. *)
Definition getElementNameById (cells : list Cell) (id : option string)
  : option (option string) :=
  match id with
  | None => None
  | Some i =>
      match find (fun cell => String.eqb (cell_id cell) i) cells with
      | Some cell => Some (cell_name cell)
      | None => None
      end
  end.

(** [addMapping].  For a name that [map] does not have but inherits,
    [map[face]] is truthy, so that no array is made, and it has no [push]:
    the call throws ([None]). *)
Definition addMapping (map : gmap string (list string)) (face target : string)
  : option (gmap string (list string)) :=
  match map !! face with
  | Some l => Some (<[face := l ++ [JS.toUpperCase target]]> map)
  | None =>
      if JS.inherited face then None
      else Some (<[face := [JS.toUpperCase target]]> map)
  end.

(** [faces.value.find((face) => face.name === to)?.name] *)
Definition findTarget (faces : list Face) (to : option string) : option string :=
  match to with
  | None => None
  | Some t => name <$> find (fun face => String.eqb (name face) t) faces
  end.

(** The body of the [forEach] of [generateMappings], for one link. *)
Definition visitLink (faces : list Face) (cells : list Cell)
    (mappings : gmap string (list string)) (link : Cell)
  : option (gmap string (list string)) :=
  match getElementNameById cells (source_id link) with
  | None => None
  | Some from =>
      match getElementNameById cells (target_id link) with
      | None => None
      | Some to =>
          let target := findTarget faces to in
          if JS.truthy target
          then addMapping mappings (JS.propertyKey from) (default "" target)
          else Some mappings
      end
  end.

Fixpoint forEachLink (faces : list Face) (cells : list Cell)
    (mappings : gmap string (list string)) (links : list Cell)
  : option (gmap string (list string)) :=
  match links with
  | [] => Some mappings
  | link :: rest =>
      match visitLink faces cells mappings link with
      | None => None
      | Some mappings' => forEachLink faces cells mappings' rest
      end
  end.

(** [generateMappings] *)
Definition generateMappings (faces : list Face) (cells : list Cell)
  : option (gmap string (list string)) :=
  forEachLink faces cells ∅ (filter (fun c => isLink c = true) cells).

(** [getMaxLinks]; [Math.max] is commutative and associative, so the order
    of [Object.values] does not matter. *)
Definition getMaxLinks (mappings : gmap string (list string)) : nat :=
  map_fold (fun _ cur acc => Nat.max acc (length cur)) 0 mappings.

(** The first loop of [generateFileMappings]: every out-list is sorted and
    padded.  [Array(k)] throws a [RangeError] for a negative [k].  The keys
    of [mappings] are those [addMapping] made, none of which is
    [__proto__], the one name whose assignment would not make an own
    property of [fullMappings]. *)
Definition padded (max : nat) (l : list string) : list string :=
  JS.sort l ++ JS.fill (max - length l) INVALID_FACE.

Definition fullMappingsOf (mappings : gmap string (list string)) (max : nat)
  : option (gmap string (list string)) :=
  if decide (map_Forall (fun _ l => length l <= max) mappings)
  then Some (padded max <$> mappings)
  else None.

(** The row the second loop writes for a face. *)
Definition rowText (row : list string) : string := "  {" +:+ JS.join ", " row +:+ "}".

(** The body of the second loop of [generateFileMappings]; the state is
    [fullMappings] and the text written so far.  For a name that
    [fullMappings] does not have but inherits, [fullMappings[face.name]] is
    truthy, so that no row is made, and it has no [join]: the call throws
    ([None]). *)
Definition emitFace (max count : nat)
    (st : gmap string (list string) * string) (index : nat) (face : Face)
  : option (gmap string (list string) * string) :=
  let emit (full : gmap string (list string)) :=
    (full,
     st.2 +:+ rowText (default [] (full !! name face))
          +:+ (if Nat.eqb index (count - 1) then "" else ",")
          +:+ " //" +:+ JS.toUpperCase (name face) +:+ JS.newline) in
  match st.1 !! name face with
  | Some _ => Some (emit st.1)
  | None =>
      if JS.inherited (name face) then None
      else Some (emit (<[name face := JS.fill max INVALID_FACE]> st.1))
  end.

Fixpoint forEachFace (max count : nat)
    (st : gmap string (list string) * string) (index : nat) (faces : list Face)
  : option (gmap string (list string) * string) :=
  match faces with
  | [] => Some st
  | face :: rest =>
      match emitFace max count st index face with
      | None => None
      | Some st' => forEachFace max count st' (S index) rest
      end
  end.

(** [generateFileMappings] *)
Definition generateFileMappings (faces : list Face)
    (mappings : gmap string (list string)) (max : nat) : option string :=
  match fullMappingsOf mappings max with
  | None => None
  | Some full => snd <$> forEachFace max (length faces) (full, "") 0 faces
  end.

(** [generateDefines] *)
Definition generateDefines (faces : list Face) : string :=
  JS.join JS.newline
    (imap (fun index face => "#define " +:+ JS.toUpperCase (name face) +:+ " " +:+ pretty index)
          faces).

(** [generateConfigFile] *)
Definition generateConfigFile (faces : list Face) (cells : list Cell) : option string :=
  match generateMappings faces cells with
  | None => None
  | Some mappings =>
      let maxLinks := getMaxLinks mappings in
      match generateFileMappings faces mappings maxLinks with
      | None => None
      | Some fileMappings =>
          Some ("#define NUMBER_FACES " +:+ pretty (length faces) +:+ JS.newline
                +:+ "#define INVALID_FACE -1" +:+ JS.newline
                +:+ generateDefines faces +:+ JS.newline +:+ JS.newline
                +:+ "const int8_t nextFaces[][" +:+ pretty maxLinks +:+ "] = {" +:+ JS.newline
                +:+ fileMappings +:+ "};" +:+ JS.newline)
      end
  end.

(** *** The bitmap packer *)

(** The red channel of every pixel, mapped to a bit:
    [Array.from(pixelData, (_, i) => pixelData[i * 4])], without the
    [undefined] entries, through [val ? 0 : 1]. *)
Definition redChannelData (pixelData : list Z) : list Z :=
  (fun val : Z => if Z.eqb val 0 then 1%Z else 0%Z)
    <$> omap (fun i => pixelData !! (i * 4)) (seq 0 (length pixelData)).

(** [redChannelData.slice(i, i + 8)] *)
Definition slice {A} (i j : nat) (l : list A) : list A := take (j - i) (drop i l).

(** The [for] loop of [generateBinaryStrings]; [fuel] bounds the number
    of iterations. *)
Fixpoint binaryStringsFrom (fuel i : nat) (red : list Z) (binaryStrings : list string)
  : list string :=
  match fuel with
  | 0 => binaryStrings
  | S fuel' =>
      if (i <? length red)%nat
      then binaryStringsFrom fuel' (i + 8) red
             (binaryStrings ++ ["0b" +:+ JS.join "" (pretty <$> slice i (i + 8) red)])
      else binaryStrings
  end.

(** [generateBinaryStrings]; the loop ends within [length red] steps
    (lemma [binaryStringsFrom_fuel]). *)
Definition generateBinaryStrings (pixelData : list Z) : list string :=
  let red := redChannelData pixelData in
  binaryStringsFrom (length red) 0 red [].

(** The data of an image, [ImageData.data]: four bytes for each pixel, red
    first, in row-major order. *)
Definition red (pixel : Z * Z * Z * Z) : Z := pixel.1.1.1.

Definition rgba (pixel : Z * Z * Z * Z) : list Z :=
  [pixel.1.1.1; pixel.1.1.2; pixel.1.2; pixel.2].

Definition imageData (pixels : list (Z * Z * Z * Z)) : list Z :=
  concat (map rgba pixels).

(** The binary digit written for a pixel. *)
Definition digit (pixel : Z * Z * Z * Z) : string :=
  if Z.eqb (red pixel) 0 then "1" else "0".

(** The literal written for a chunk of bits. *)
Definition literal (chunk : list Z) : string := "0b" +:+ JS.join "" (pretty <$> chunk).

(** The result of an [async] function or a promise. *)
Inductive Promise (A : Type) : Type :=
| Resolved (a : A)
| Rejected (message : string).
Arguments Resolved {A} a.
Arguments Rejected {A} message.

Section Browser.

(** The browser: what decoding an image source gives ([onload] with the
    image, or [onerror]), the offscreen canvas of 32 by 16 pixels with
    its 2d context ([None] when [getContext] returns [null]), drawing an
    image on it and reading its pixels back. *)
Variables (HTMLImageElement Canvas : Type).
Variable decode : string -> option HTMLImageElement.
Variable newCanvas : option Canvas.
Variable drawImage : Canvas -> HTMLImageElement -> Canvas.
Variable getImageData : Canvas -> list Z.

(** [loadImage] *)
Definition loadImage (src : string) : Promise HTMLImageElement :=
  match decode src with
  | Some img => Resolved img
  | None => Rejected ("Failed to load image: " +:+ src)
  end.

(** The inner loop of [generateArduinoFaces], over the layers of a face. *)
Fixpoint packLayers (ctx : Canvas) (face : list string) (faceData : list string)
  : Promise (Canvas * list string) :=
  match face with
  | [] => Resolved (ctx, faceData)
  | src :: rest =>
      match loadImage src with
      | Rejected message => Rejected message
      | Resolved img =>
          let ctx' := drawImage ctx img in
          let binaryStrings := generateBinaryStrings (getImageData ctx') in
          packLayers ctx' rest
            (faceData ++ ["{" +:+ JS.join ", " binaryStrings +:+ "}"])
      end
  end.

(** [faces.value.find((item) => item.name === key)?.images || []] *)
Definition imagesOf (faces : list Face) (key : string) : list string :=
  match find (fun item => String.eqb (name item) key) faces with
  | Some item => images item
  | None => []
  end.

(** The outer loop of [generateArduinoFaces], over the sorted names. *)
Fixpoint packFaces (faces : list Face) (ctx : Canvas) (faceKeys : list string)
    (outputData : list string) : Promise (list string) :=
  match faceKeys with
  | [] => Resolved outputData
  | key :: rest =>
      match packLayers ctx (imagesOf faces key) [] with
      | Rejected message => Rejected message
      | Resolved (ctx', faceData) =>
          let facesString :=
            JS.join ("," +:+ JS.newline) (map (fun item => "    " +:+ item) faceData) in
          let facesString := JS.join JS.newline ["  {"; facesString; "  }"] in
          packFaces faces ctx' rest (outputData ++ [facesString])
      end
  end.

(** [generateArduinoFaces] *)
Definition generateArduinoFaces (faces : list Face) : Promise string :=
  match newCanvas with
  | None => Rejected ""
  | Some ctx =>
      let faceKeys := JS.sort (map name faces) in
      match packFaces faces ctx faceKeys [] with
      | Rejected message => Rejected message
      | Resolved outputData =>
          Resolved (JS.join JS.newline
                      [ "static const byte allFaces[][2][64] PROGMEM = {";
                        JS.join ("," +:+ JS.newline) outputData;
                        "};" +:+ JS.newline ])
      end
  end.

(** The message of a rejection names a source that does not decode. *)
Definition namesFailure (srcs : list string) (message : string) : Prop :=
  exists src, src ∈ srcs /\ decode src = None
              /\ message = "Failed to load image: " +:+ src.

(** The image sources [generateArduinoFaces] loads: the layers of the
    face found for each name. *)
Definition packedSources (faces : list Face) : list string :=
  concat (map (imagesOf faces) (JS.sort (map name faces))).

End Browser.

(** The compiled table as data: the row of tokens written for each face,
    in face order. *)
Definition tableRow (mappings : gmap string (list string)) (max : nat) (face : Face)
  : list string :=
  match mappings !! name face with
  | Some l => padded max l
  | None => JS.fill max INVALID_FACE
  end.

Definition tableRows (faces : list Face) (mappings : gmap string (list string))
    (max : nat) : list (list string) :=
  map (tableRow mappings max) faces.

(** The out-list of a name in a mapping. *)
Definition outList (mappings : gmap string (list string)) (key : string) : list string :=
  default [] (mappings !! key).

(** The line the second loop writes for the face at [index], given its row. *)
Definition tableLine (count index : nat) (face : Face) (row : list string) : string :=
  rowText row +:+ (if Nat.eqb index (count - 1) then "" else ",")
    +:+ " //" +:+ JS.toUpperCase (name face) +:+ JS.newline.

(** The lines of the table, from the rows, starting at [index]. *)
Fixpoint tableLines (count index : nat) (faces : list Face) (rows : list (list string))
  : string :=
  match faces, rows with
  | face :: faces', row :: rows' =>
      tableLine count index face row +:+ tableLines count (S index) faces' rows'
  | _, _ => ""
  end.

Definition tableText (faces : list Face) (rows : list (list string)) : string :=
  tableLines (length faces) 0 faces rows.

(** The state of the second loop holds the rows of the table. *)
Definition holdsRows (mappings : gmap string (list string)) (max : nat)
    (full : gmap string (list string)) : Prop :=
  forall face, match full !! name face with
               | Some row => row = tableRow mappings max face
               | None => mappings !! name face = None
               end.

(** What visiting a link adds to the mapping: the key of its source and
    the token of its target.  [None] for a link that adds nothing. *)
Definition edgeOf (faces : list Face) (cells : list Cell) (link : Cell)
  : option (string * string) :=
  match getElementNameById cells (source_id link),
        getElementNameById cells (target_id link) with
  | Some from, Some to =>
      let target := findTarget faces to in
      if JS.truthy target
      then Some (JS.propertyKey from, JS.toUpperCase (default "" target))
      else None
  | _, _ => None
  end.

(** The tokens a link appends to the out-list of [key]. *)
Definition contribution (faces : list Face) (cells : list Cell) (key : string) (link : Cell)
  : list string :=
  match edgeOf faces cells link with
  | Some (from, token) => if String.eqb from key then [token] else []
  | None => []
  end.

(** Both ends of a link are identifiers of cells. *)
Definition endsResolve (cells : list Cell) (link : Cell) : Prop :=
  is_Some (getElementNameById cells (source_id link))
  /\ is_Some (getElementNameById cells (target_id link)).

(** Visiting the link does not throw: both ends are identifiers of cells,
    and when the link adds a token, the name of its source is not a name
    that an object inherits. *)
Definition visitable (faces : list Face) (cells : list Cell) (link : Cell) : Prop :=
  endsResolve cells link
  /\ forall key token, edgeOf faces cells link = Some (key, token) ->
                       JS.inherited key = false.

(** No name that an object inherits is a key of the mapping. *)
Definition noInheritedKey (mappings : gmap string (list string)) : Prop :=
  forall key, is_Some (mappings !! key) -> JS.inherited key = false.

(** No face has a name that an object inherits. *)
Definition ownNames (faces : list Face) : Prop :=
  Forall (fun face => JS.inherited (name face) = false) faces.

Definition isFaceName (faces : list Face) (n : string) : Prop :=
  exists face, face ∈ faces /\ name face = n.

(** The target of a link resolves to a cell whose name is not the name of
    a face. *)
Definition targetHasNoFace (faces : list Face) (cells : list Cell) (link : Cell) : Prop :=
  exists to, getElementNameById cells (target_id link) = Some to
             /\ forall t, to = Some t -> ~ isFaceName faces t.


(** The links of the graph. *)
Definition linksOf (cells : list Cell) : list Cell :=
  filter (fun c => isLink c = true) cells.



End Mapping.

(** ** The GoJS diagram and its [LinkDrawn] listener *)

Module GoDiagram.

(** The data object of a link, [{ from, to, isBiDirectional }]; [from] and
    [to] are node keys.  A flag that was never set reads as [false]. *)
Record LinkData := { from : nat; to : nat; isBiDirectional : bool }.

(** A link part is identified by a number that stands for the identity of
    the JavaScript object.  [linkData] is the store of the data objects,
    which outlive the removal of their link from the diagram; [links] are
    the links in the diagram, in the order in which they were added;
    [nodes] are the keys of its nodes. *)
Record Diagram := {
  nodes : list nat;
  linkData : gmap nat LinkData;
  links : list nat
}.

(** [model.setDataProperty(link.data, 'isBiDirectional', b)] *)
Definition setBiDirectional (b : bool) (data : LinkData) : LinkData :=
  {| from := from data; to := to data; isBiDirectional := b |}.

Definition setDataProperty (link : nat) (b : bool) (d : Diagram) : Diagram :=
  {| nodes := nodes d;
     linkData := alter (setBiDirectional b) link (linkData d);
     links := links d |}.

(** [diagram.remove(link)] *)
Definition remove (link : nat) (d : Diagram) : Diagram :=
  {| nodes := nodes d;
     linkData := linkData d;
     links := filter (fun l => l <> link) (links d) |}.

(** [node.findLinksOutOf()]: the links of the diagram that leave the node
    with the given key, in the order of the diagram, as they are when the
    iterator is created. *)
Definition findLinksOutOf (d : Diagram) (key : nat) : list nat :=
  filter (fun l => from <$> linkData d !! l = Some key) (links d).

(** The body of the [while] loop of the listener, for one [item]. *)
Definition mergeStep (subject : nat) (d : Diagram) (item : nat) : Diagram :=
  match linkData d !! item, linkData d !! subject with
  | Some itemData, Some subjectData =>
      if Nat.eqb (to itemData) (from subjectData)
      then setDataProperty item true (remove subject d)
      else d
  | _, _ => d
  end.

(** One turn of the [while] loop.  The iterator is live: a link that has
    left the diagram when its turn comes is passed over.  The only link
    that leaves is the drawn one, which is the last of the links out of its
    node when it is among them. *)
Definition nextItem (subject : nat) (d : Diagram) (item : nat) : Diagram :=
  if decide (item ∈ links d) then mergeStep subject d item else d.

(** The [LinkDrawn] listener; [subject] is the link that was drawn, which
    is in the diagram when the event fires.  [None] when the event names a
    link without data, which the library never does. *)
Definition onLinkDrawn (subject : nat) (d : Diagram) : option Diagram :=
  let d1 := setDataProperty subject false d in
  match linkData d1 !! subject with
  | None => None
  | Some subjectData =>
      Some (foldl (nextItem subject) d1 (findLinksOutOf d1 (to subjectData)))
  end.

(** The linking tool adds the drawn link to the diagram, with a fresh
    identity, and then raises [LinkDrawn].  The tool draws a link from a
    node of the diagram to a node of the diagram: [a] and [b] are keys of
    nodes, and [e.subject.toNode] is the node with the key [b]. *)
Definition drawLink (subject a b : nat) (d : Diagram) : option Diagram :=
  onLinkDrawn subject
    {| nodes := nodes d;
       linkData := <[subject := {| from := a; to := b; isBiDirectional := false |}]> (linkData d);
       links := links d ++ [subject] |}.

(** The data of the links in the diagram. *)
Definition linkDataArray (d : Diagram) : list LinkData :=
  omap (fun l => linkData d !! l) (links d).

(** A link joins the unordered pair of nodes [{a, b}]. *)
Definition joins (a b : nat) (data : LinkData) : bool :=
  (Nat.eqb (from data) a && Nat.eqb (to data) b)
  || (Nat.eqb (from data) b && Nat.eqb (to data) a).

Definition linksJoining (a b : nat) (d : Diagram) : list LinkData :=
  filter (fun data => joins a b data = true) (linkDataArray d).

(** What the listener may do to a diagram: flags are raised, the drawn
    link may leave, and nothing else changes. *)
Definition evolves (subject : nat) (s s' : Diagram) : Prop :=
  nodes s' = nodes s
  /\ (forall l, linkData s' !! l = linkData s !! l
              \/ linkData s' !! l = setBiDirectional true <$> linkData s !! l)
  /\ (links s' = links s \/ links s' = filter (fun l => l <> subject) (links s)).

(** The drawn link has left the diagram and the flag of [item] is raised. *)
Definition merged (subject item : nat) (s : Diagram) : Prop :=
  (subject ∉ links s) /\ (isBiDirectional <$> linkData s !! item = Some true).


(** The data of a link after the flag of the links from [a] to [b] has
    been raised. *)
Definition raised (a b : nat) (data : LinkData) : LinkData :=
  if Nat.eqb (from data) a && Nat.eqb (to data) b
  then setBiDirectional true data else data.

End GoDiagram.

(** ** [src/js/mapper.js] *)

Module Mapper.

Import GoDiagram.

Definition INVALID_FACE : string := "INVALID_FACE".

Record Face := { name : string; images : list string }.

(** [addMapping]; [mapping] is [facesArray[i]], [undefined] when [i] is
    out of range, and reading [.name] of [undefined] throws. *)
Definition addMapping (map : gmap nat (list string)) (key : nat) (mapping : option Face)
  : option (gmap nat (list string)) :=
  let map' := match map !! key with Some _ => map | None => <[key := []]> map end in
  match mapping with
  | None => None
  | Some face =>
      Some (<[key := default [] (map' !! key) ++ [JS.toUpperCase (name face)]]> map')
  end.

(** The body of the [while] loop of [generateMappings], for one link. *)
Definition visitLink (facesArray : list Face) (mappings : gmap nat (list string))
    (item : LinkData) : option (gmap nat (list string)) :=
  match addMapping mappings (from item) (facesArray !! to item) with
  | None => None
  | Some mappings' =>
      if isBiDirectional item
      then addMapping mappings' (to item) (facesArray !! from item)
      else Some mappings'
  end.

Fixpoint visitLinks (facesArray : list Face) (mappings : gmap nat (list string))
    (items : list LinkData) : option (gmap nat (list string)) :=
  match items with
  | [] => Some mappings
  | item :: rest =>
      match visitLink facesArray mappings item with
      | None => None
      | Some mappings' => visitLinks facesArray mappings' rest
      end
  end.

(** The links [generateMappings] visits: for each node of the diagram in
    turn, the links out of it. *)
Definition visited (diagram : Diagram) : list LinkData :=
  concat (map (fun node => omap (fun l => linkData diagram !! l) (findLinksOutOf diagram node))
              (nodes diagram)).

(** [generateMappings] *)
Definition generateMappings (facesArray : list Face) (diagram : Diagram)
  : option (gmap nat (list string)) :=
  visitLinks facesArray ∅ (visited diagram).

(** [getMaxLinks] *)
Definition getMaxLinks (mappings : gmap nat (list string)) : nat :=
  map_fold (fun _ l max => Nat.max max (length l)) 0 mappings.

(** The [while] loop that pads an out-list in place. *)
Definition padded (max : nat) (l : list string) : list string :=
  l ++ JS.fill (max - length l) INVALID_FACE.

(** The row [generateFileMappings] writes for the face at [index]. *)
Definition tableRow (mappings : gmap nat (list string)) (max index : nat) : list string :=
  match mappings !! index with
  | Some l => padded max l
  | None => JS.fill max INVALID_FACE
  end.

Definition rowText (row : list string) : string := "  {" +:+ JS.join ", " row +:+ "}".

(** The body of the second loop of [generateFileMappings]; the state is
    [mappings] and the text written so far. *)
Definition emitFace (max count : nat)
    (st : gmap nat (list string) * string) (index : nat) (face : Face)
  : gmap nat (list string) * string :=
  let mappings :=
    match st.1 !! index with
    | Some _ => st.1
    | None => <[index := JS.fill max INVALID_FACE]> st.1
    end in
  (mappings,
   st.2 +:+ rowText (default [] (mappings !! index))
        +:+ (if Nat.eqb index (count - 1) then "" else ",")
        +:+ " //" +:+ JS.toUpperCase (name face) +:+ JS.newline).

Fixpoint forEachFace (max count : nat)
    (st : gmap nat (list string) * string) (index : nat) (faces : list Face)
  : gmap nat (list string) * string :=
  match faces with
  | [] => st
  | face :: rest => forEachFace max count (emitFace max count st index face) (S index) rest
  end.

(** [generateFileMappings] *)
Definition generateFileMappings (facesArray : list Face)
    (mappings : gmap nat (list string)) (max : nat) : string :=
  (forEachFace max (length facesArray) (padded max <$> mappings, "") 0 facesArray).2.

(** [generateDefines] *)
Definition generateDefines (facesArray : list Face) : string :=
  String.concat ""
    (imap (fun index face =>
             "#define " +:+ JS.toUpperCase (name face) +:+ " " +:+ pretty index +:+ JS.newline)
          facesArray).

(** [generateConfigFile] *)
Definition generateConfigFile (facesArray : list Face) (diagram : Diagram) : option string :=
  match generateMappings facesArray diagram with
  | None => None
  | Some mappings =>
      let maxLinks := getMaxLinks mappings in
      let fileMappings := generateFileMappings facesArray mappings maxLinks in
      Some ("#define NUMBER_FACES " +:+ pretty (length facesArray) +:+ JS.newline
            +:+ "#define INVALID_FACE -1" +:+ JS.newline
            +:+ generateDefines facesArray +:+ JS.newline
            +:+ "const int8_t nextFaces[][" +:+ pretty maxLinks +:+ "] = {" +:+ JS.newline
            +:+ fileMappings +:+ "};" +:+ JS.newline)
  end.

(** The out-list of the face with key [k] in a mapping. *)
Definition outList (mappings : gmap nat (list string)) (k : nat) : list string :=
  default [] (mappings !! k).

Definition upperName (face : Face) : string := JS.toUpperCase (name face).

(** The tokens that visiting one link appends to the out-list of [k]. *)
Definition contribution (facesArray : list Face) (k : nat) (item : LinkData) : list string :=
  (if Nat.eqb (from item) k
   then option_list (upperName <$> facesArray !! to item) else [])
  ++ (if isBiDirectional item && Nat.eqb (to item) k
      then option_list (upperName <$> facesArray !! from item) else []).

(** The ends of a link are indices of faces, as far as they are read. *)
Definition endsAreFaces (facesArray : list Face) (item : LinkData) : Prop :=
  to item < length facesArray
  /\ (isBiDirectional item = true -> from item < length facesArray).

(** How often a token occurs in an out-list. *)
Definition occurrences (token : string) (l : list string) : nat :=
  count_occ String.string_dec l token.

(** The rows of the table [generateFileMappings] writes, one for each index
    of a face. *)
Definition tableRows (facesArray : list Face) (mappings : gmap nat (list string))
    (max : nat) : list (list string) :=
  map (tableRow mappings max) (seq 0 (length facesArray)).

(** The line written for the face at [index], given its row. *)
Definition tableLine (count index : nat) (face : Face) (row : list string) : string :=
  rowText row +:+ (if Nat.eqb index (count - 1) then "" else ",")
    +:+ " //" +:+ JS.toUpperCase (name face) +:+ JS.newline.

Fixpoint tableLines (count index : nat) (faces : list Face) (rows : list (list string))
  : string :=
  match faces, rows with
  | face :: faces', row :: rows' =>
      tableLine count index face row +:+ tableLines count (S index) faces' rows'
  | _, _ => ""
  end.

Definition tableText (facesArray : list Face) (rows : list (list string)) : string :=
  tableLines (length facesArray) 0 facesArray rows.

(** What a click on a button does, as the user sees it. *)
Inductive Outcome :=
| Alert (message : string)
| Download (filename text : string)
| Thrown.

(** [onClickExport]; [facesArray] is [undefined] ([None]) until images
    have been uploaded.  An array, even an empty one, is truthy. *)
Definition onClickExport (facesArray : option (list Face)) (diagram : Diagram) : Outcome :=
  match facesArray with
  | None => Alert "No faces to export"
  | Some faces =>
      match generateConfigFile faces diagram with
      | Some text => Download "facesConfig.h" text
      | None => Thrown
      end
  end.

(** The guard of [onChangeImport], [!facesArray?.length]: [true] when the
    import is refused with the alert. *)
Definition importRefused (facesArray : option (list Face)) : bool :=
  match facesArray with
  | None => true
  | Some faces => Nat.eqb (length faces) 0
  end.

(** *** Uploading the images *)

Definition SUPPORTED_IMAGE_TYPES : list string := ["image/jpeg"; "image/png"; "image/bmp"].

(** An uploaded file: its [type], its [webkitRelativePath] and the URL that
    [URL.createObjectURL] makes for it. *)
Record File := { file_type : string; webkitRelativePath : string; objectURL : string }.

Definition supported (file : File) : Prop := file_type file ∈ SUPPORTED_IMAGE_TYPES.

(** [file.webkitRelativePath.split('/')[1]], as the key of [faceGroups]. *)
Definition faceName (file : File) : string :=
  JS.propertyKey (JS.split "/"%char (webkitRelativePath file) !! 1).

(** [faceGroups], with its keys in the order in which they were added
    (names that are array indices come first in [Object.keys]; the order is
    sorted away below). *)
Fixpoint addToGroup (key url : string) (faceGroups : list (string * list string))
  : list (string * list string) :=
  match faceGroups with
  | [] => [(key, [url])]
  | (k, urls) :: rest =>
      if String.eqb k key then (k, urls ++ [url]) :: rest
      else (k, urls) :: addToGroup key url rest
  end.

(** The body of the [forEach] over the supported files.  For a name that
    [faceGroups] inherits, the value read is truthy, so that no group is
    made, and it is not iterable, so that spreading it throws. *)
Definition addFile (faceGroups : list (string * list string)) (file : File)
  : option (list (string * list string)) :=
  if JS.inherited (faceName file) then None
  else Some (addToGroup (faceName file) (objectURL file) faceGroups).

Fixpoint addFiles (faceGroups : list (string * list string)) (files : list File)
  : option (list (string * list string)) :=
  match files with
  | [] => Some faceGroups
  | file :: rest =>
      match addFile faceGroups file with
      | None => None
      | Some faceGroups' => addFiles faceGroups' rest
      end
  end.

Definition groupFiles (files : list File) : option (list (string * list string)) :=
  addFiles [] (filter supported files).

(** The groups of a list of files none of which has an inherited name. *)
Definition groupsOf (files : list File) : list (string * list string) :=
  foldl (fun faceGroups file => addToGroup (faceName file) (objectURL file) faceGroups)
        [] files.

Definition faceOfGroup (group : string * list string) : Face :=
  {| name := group.1; images := group.2 |}.

Section Upload.

(** What [Object.keys(faceGroups).forEach(...)] followed by
    [facesArray.sort((a, b) => a.name.localeCompare(b.name))] makes of the
    faces of the groups: the order of the keys and the order of the locale
    are the browser's. *)
Variable sortByName : list Face -> list Face.

(** [createFaceGroups]: the new value of [facesArray], [None] when it
    throws, in which case [facesArray] is not assigned. *)
Definition createFaceGroups (files : list File) : option (list Face) :=
  match groupFiles files with
  | None => None
  | Some faceGroups => Some (sortByName (map faceOfGroup faceGroups))
  end.

(** The data of the nodes [displayNodes] makes. *)
Record NodeData := {
  key : nat;
  node_name : string;
  text : string;
  loc : option string;
  node_images : option (list string)
}.

Definition faceNodes (facesArray : list Face) : list NodeData :=
  imap (fun index face =>
          {| key := index;
             node_name := name face;
             text := pretty index +:+ " - " +:+ name face;
             loc := None;
             node_images := Some (images face) |})
       facesArray.

(** [displayNodes]: a model with these nodes and no link. *)
Definition displayNodes (facesArray : list Face) : Diagram :=
  {| nodes := key <$> faceNodes facesArray; linkData := ∅; links := [] |}.

(** [onChangeImageUpload], on the face list and the diagram; [None] when
    it throws, the face list and the diagram being then as they were. *)
Definition onChangeImageUpload (files : list File) (state : option (list Face) * Diagram)
  : option (option (list Face) * Diagram) :=
  match files with
  | [] => Some state
  | _ :: _ =>
      match createFaceGroups files with
      | None => None
      | Some facesArray => Some (Some facesArray, displayNodes facesArray)
      end
  end.

End Upload.

(** The URLs of the files of a face, in the order of the files. *)
Definition urlsOf (faceKey : string) (files : list File) : list string :=
  objectURL <$> filter (fun file => faceName file = faceKey) files.

(** *** Saving and importing the nodes *)

(** [onClickSave]: [nodeDataArray.map(({ images, ...item }) => item)] *)
Definition withoutImages (node : NodeData) : NodeData :=
  {| key := key node; node_name := node_name node; text := text node; loc := loc node;
     node_images := None |}.

Definition savedNodes (nodeDataArray : list NodeData) : list NodeData :=
  map withoutImages nodeDataArray.

(** [facesArrayObject] of [onChangeImport]: an own property for each face.
    The faces are those [createFaceGroups] made, none of which is named
    [__proto__], the one name whose assignment would not make an own
    property. *)
Definition facesArrayObject (facesArray : list Face) : gmap string (list string) :=
  foldl (fun previous current => <[name current := images current]> previous) ∅ facesArray.

Definition withImages (images : list string) (node : NodeData) : NodeData :=
  {| key := key node; node_name := node_name node; text := text node; loc := loc node;
     node_images := Some images |}.

(** The body of the loop of [onChangeImport] over the entries of
    [rawData.nodeDataArray], which are taken before the loop.  The array is
    a list of its elements, [None] for a hole: [delete] leaves a hole (or
    nothing, past the end) and [length--] drops the last element.  The
    elements are as [JSON.stringify] writes them afterwards: for a name that
    [facesArrayObject] inherits, the value read is truthy and [node.images]
    becomes a function, which is not written.  The one inherited name whose
    value is not a function is [__proto__]: its value is [Object.prototype],
    which is written as the empty object; [NodeData] has no such images, and
    the nodes of the properties below are not named [__proto__]. *)
Definition importEntry (faces : gmap string (list string))
    (nodeDataArray : list (option NodeData)) (entry : nat * NodeData)
  : list (option NodeData) :=
  match faces !! node_name entry.2 with
  | Some images => <[entry.1 := Some (withImages images entry.2)]> nodeDataArray
  | None =>
      if JS.inherited (node_name entry.2)
      then <[entry.1 := Some (withoutImages entry.2)]> nodeDataArray
      else
        let deleted := <[entry.1 := None]> nodeDataArray in
        take (length deleted - 1) deleted
  end.

Definition importNodes (facesArray : list Face) (nodeDataArray : list NodeData)
  : list (option NodeData) :=
  foldl (importEntry (facesArrayObject facesArray))
        (Some <$> nodeDataArray)
        (zip (seq 0 (length nodeDataArray)) nodeDataArray).

(** What the loop makes of one node, not named [__proto__]: the node with
    the images of the face of its name, the node without images for an
    inherited name, or a hole. *)
Definition imported (faces : gmap string (list string)) (node : NodeData)
  : option NodeData :=
  match faces !! node_name node with
  | Some images => Some (withImages images node)
  | None => if JS.inherited (node_name node) then Some (withoutImages node) else None
  end.

(** The nodes for whose name [facesArrayObject] has no property, neither
    its own nor an inherited one. *)
Definition unmatched (faces : gmap string (list string)) (nodeDataArray : list NodeData)
  : list NodeData :=
  filter (fun node => faces !! node_name node = None
                      /\ JS.inherited (node_name node) = false) nodeDataArray.

End Mapper.

(** ** [src/components/TheEditor.vue] *)

Module Editor.

Definition IMAGE_WIDTH : nat := 32.
Definition IMAGE_HEIGHT : nat := 16.

(** [Number(redData) < 255 ? 1 : 0]; [Number(undefined)] is [NaN], which
    is not below 255. *)
Definition threshold (redData : option Z) : Z :=
  match redData with
  | Some r => if (r <? 255)%Z then 1%Z else 0%Z
  | None => 0%Z
  end.

(** [generateDataFromImg], given the red sample the context returns for
    the pixel at [(x, y)]: a grid of [IMAGE_WIDTH] columns. *)
Definition generateDataFromImg (red : nat -> nat -> option Z) : list (list Z) :=
  map (fun x => map (fun y => threshold (red x y)) (seq 0 IMAGE_HEIGHT))
      (seq 0 IMAGE_WIDTH).

(** [getEmptyData]: [IMAGE_WIDTH] columns of [IMAGE_HEIGHT] zeros. *)
Definition getEmptyData : list (list Z) :=
  replicate IMAGE_WIDTH (replicate IMAGE_HEIGHT 0%Z).

(** The loop of [mirror]: [data[data.length - i - 1] = [...data[i]]] while
    [i < data.length / 2]; [fuel] bounds the number of iterations. *)
Fixpoint mirrorLoop (fuel i : nat) (data : list (list Z)) : list (list Z) :=
  match fuel with
  | 0 => data
  | S fuel' =>
      if (2 * i <? length data)%nat
      then mirrorLoop fuel' (S i)
             (match data !! i with
              | Some column => <[length data - i - 1 := column]> data
              | None => data
              end)
      else data
  end.

(** The data [mirror] adds to the history, from the current data. *)
Definition mirrorData (data : list (list Z)) : list (list Z) :=
  mirrorLoop (length data) 0 data.

(** *** The history *)

(** The refs [dataHistory], [currentHistoryIndex] and [currentSaveIndex]. *)
Record History := {
  dataHistory : list (list (list Z));
  currentHistoryIndex : nat;
  currentSaveIndex : nat
}.

(** [currentData]; [undefined] when the index is not one of the history. *)
Definition currentData (h : History) : option (list (list Z)) :=
  dataHistory h !! currentHistoryIndex h.

(** [hasUnsavedChanges] *)
Definition hasUnsavedChanges (h : History) : bool :=
  negb (Nat.eqb (currentHistoryIndex h) (currentSaveIndex h)).

(** [addHistory] *)
Definition addHistory (data : list (list Z)) (h : History) : History :=
  let sliced := take (currentHistoryIndex h + 1) (dataHistory h) in
  {| dataHistory := sliced ++ [data];
     currentHistoryIndex := length (sliced ++ [data]) - 1;
     currentSaveIndex := currentSaveIndex h |}.

(** [wipeHistory] *)
Definition wipeHistory (h : History) : History :=
  {| dataHistory := []; currentHistoryIndex := 0; currentSaveIndex := currentSaveIndex h |}.

Section View.

(** What [fillCanvasFromData] writes to, through [fillPixel]: the canvas
    of the pixels and [holdData].  Painting data on it is a function of the
    data and of what was there; [None] when [fillPixel] throws, as it does
    for a pixel in a column that [holdData] does not have.  The functions
    below are [None] when they throw; the refs are then left as they were
    at the throw. *)
Variable View : Type.
Variable fillCanvasFromData : list (list Z) -> View -> option View.

(** [fillCanvasFromData()] with its default argument, the current data;
    iterating over [undefined] throws. *)
Definition repaint (h : History) (view : View) : option (History * View) :=
  match currentData h with
  | Some data => pair h <$> fillCanvasFromData data view
  | None => None
  end.

(** [historyPrevious] *)
Definition historyPrevious (h : History) (view : View) : option (History * View) :=
  if (0 <? currentHistoryIndex h)%nat
  then repaint {| dataHistory := dataHistory h;
                  currentHistoryIndex := currentHistoryIndex h - 1;
                  currentSaveIndex := currentSaveIndex h |} view
  else Some (h, view).

(** [historyNext] *)
Definition historyNext (h : History) (view : View) : option (History * View) :=
  if (currentHistoryIndex h <? length (dataHistory h) - 1)%nat
  then repaint {| dataHistory := dataHistory h;
                  currentHistoryIndex := currentHistoryIndex h + 1;
                  currentSaveIndex := currentSaveIndex h |} view
  else Some (h, view).

(** [mirror]: copying [undefined] through JSON throws. *)
Definition mirror (h : History) (view : View) : option (History * View) :=
  match currentData h with
  | Some data =>
      let mirrored := mirrorData data in
      pair (addHistory mirrored h) <$> fillCanvasFromData mirrored view
  | None => None
  end.

End View.

(** [confirmUnsaved], given the answer of the user to the dialog, which is
    shown only when there are unsaved changes. *)
Definition confirmUnsaved (answer : bool) (h : History) : History * bool :=
  if hasUnsavedChanges h && negb answer
  then (h, false)
  else ({| dataHistory := []; currentHistoryIndex := 0; currentSaveIndex := 0 |}, true).

(** The index is one of the history. *)
Definition indexInHistory (h : History) : Prop :=
  currentHistoryIndex h < length (dataHistory h).

(** *** [drawLine] *)

(** The loop of [drawLine], Bresenham's line algorithm; [painted] are the
    pixels [fillPixel] is called for, in order, as long as it does not
    throw.  [None] when [fuel] iterations do not end the loop. *)
Fixpoint drawLineLoop (fuel : nat) (x0 y0 x1 y1 deltaX deltaY slopeX slopeY err : Z)
    (painted : list (Z * Z)) : option (list (Z * Z)) :=
  if negb (Z.eqb x0 x1) || negb (Z.eqb y0 y1)
  then
    match fuel with
    | 0 => None
    | S fuel' =>
        let err2 := (err * 2)%Z in
        let stepX := (- deltaY <? err2)%Z in
        let stepY := (err2 <? deltaX)%Z in
        let err' := if stepX then (err - deltaY)%Z else err in
        let x0' := if stepX then (x0 + slopeX)%Z else x0 in
        let err'' := if stepY then (err' + deltaX)%Z else err' in
        let y0' := if stepY then (y0 + slopeY)%Z else y0 in
        drawLineLoop fuel' x0' y0' x1 y1 deltaX deltaY slopeX slopeY err''
          (painted ++ [(x0, y0)])
    end
  else Some painted.

(** [drawLine], on integers; [deltaX + deltaY] iterations are enough for
    the loop to end, as is proved below. *)
Definition drawLine (x0 y0 x1 y1 : Z) : option (list (Z * Z)) :=
  let deltaX := Z.abs (x1 - x0) in
  let deltaY := Z.abs (y1 - y0) in
  let slopeX := if (x0 <? x1)%Z then 1%Z else (-1)%Z in
  let slopeY := if (y0 <? y1)%Z then 1%Z else (-1)%Z in
  drawLineLoop (Z.to_nat (deltaX + deltaY)) x0 y0 x1 y1 deltaX deltaY slopeX slopeY
    (deltaX - deltaY) [].

(** A pixel on the way from the start [(x0, y0)] of a line: at least [i]
    and at most [deltaX] steps along x, at least [j] and at most [deltaY]
    steps along y, and not yet all of them. *)
Definition onTheWay (x0 y0 deltaX deltaY slopeX slopeY i j : Z) (p : Z * Z) : Prop :=
  exists i' j', p = (x0 + slopeX * i', y0 + slopeY * j')%Z
                /\ (i <= i' <= deltaX)%Z /\ (j <= j' <= deltaY)%Z
                /\ (i' < deltaX \/ j' < deltaY)%Z.

End Editor.

(** ** Concrete diagrams, faces and graphs *)

Module Examples.

Import GoDiagram.

Definition face (n : string) : Mapper.Face := {| Mapper.name := n; Mapper.images := [] |}.

Definition linkAC : LinkData := {| from := 0; to := 2; isBiDirectional := false |}.
Definition plainAB : LinkData := {| from := 0; to := 1; isBiDirectional := false |}.

(** Faces a, b, c with a link from a to b in both directions and a link
    from a to c. *)
Definition threeFaces : list Mapper.Face := [face "a"; face "b"; face "c"].


(** Faces a, b with one link from a to b. *)
Definition oneLinkDiagram : Diagram :=
  {| nodes := [0; 1]; linkData := {[ 7 := plainAB ]}; links := [7] |}.

(** Faces a, b, c with links from a to c and from a to b, drawn in this
    order. *)
Definition unsortedDiagram : Diagram :=
  {| nodes := [0; 1; 2];
     linkData := {[ 10 := linkAC; 11 := plainAB ]};
     links := [10; 11] |}.

(** The graph of [mapping.ts]: elements and links. *)
Definition element (id n : string) : Mapping.Cell :=
  {| Mapping.cell_type := "standard.Image"; Mapping.cell_id := id;
     Mapping.cell_name := Some n;
     Mapping.source_id := None; Mapping.target_id := None;
     Mapping.cell_isBiDirectional := false |}.

Definition link (id source target : string) : Mapping.Cell :=
  {| Mapping.cell_type := "standard.Link"; Mapping.cell_id := id;
     Mapping.cell_name := None;
     Mapping.source_id := Some source; Mapping.target_id := Some target;
     Mapping.cell_isBiDirectional := false |}.


Definition storeFace (n : string) : Mapping.Face :=
  {| Mapping.name := n; Mapping.images := [] |}.

(** Faces a, b, c; links from a to c and from a to b. *)
Definition abcFaces : list Mapping.Face := [storeFace "a"; storeFace "b"; storeFace "c"].
Definition abcCells : list Mapping.Cell :=
  [element "1" "a"; element "2" "b"; element "3" "c"; link "4" "1" "3"; link "5" "1" "2"].


(** One face, b, and a link to it from an element x that has no face. *)
Definition bFaces : list Mapping.Face := [storeFace "b"].
Definition fromStrangerCells : list Mapping.Cell :=
  [element "1" "x"; element "2" "b"; link "3" "1" "2"].

(** One face, a, and a link from it to an element x that has no face. *)
Definition aFaces : list Mapping.Face := [storeFace "a"].

(** One face, a, and a link from it whose target is no cell of the graph. *)
Definition danglingCells : list Mapping.Cell :=
  [element "1" "a"; link "3" "1" "9"].

(** A browser in which an image is its pixel data, drawing an image
    replaces the content of the canvas, and only the source [ok.png]
    decodes, to a white image. *)
Definition white : list Z := concat (replicate 512 [255; 255; 255; 255]%Z).
Definition black : list Z := concat (replicate 512 [0; 0; 0; 255]%Z).
Definition gray : list Z := concat (replicate 512 [128; 128; 128; 255]%Z).

Definition decodeOk (src : string) : option (list Z) :=
  if String.eqb src "ok.png" then Some white else None.
Definition drawOver (canvas img : list Z) : list Z := img.
Definition readBack (canvas : list Z) : list Z := canvas.

Definition brokenFaces : list Mapping.Face :=
  [ {| Mapping.name := "a"; Mapping.images := ["ok.png"; "broken.png"] |} ].

(** One face with a link to itself that is marked bidirectional. *)
Definition selfLoopDiagram : Diagram :=
  {| nodes := [0];
     linkData := {[ 10 := {| from := 0; to := 0; isBiDirectional := true |} ]};
     links := [10] |}.

(** Faces x, a, A: a link between x and a marked bidirectional, and a link
    from x to A. *)
Definition sameUpperDiagram : Diagram :=
  {| nodes := [0; 1; 2];
     linkData := {[ 10 := {| from := 0; to := 1; isBiDirectional := true |};
                    11 := {| from := 0; to := 2; isBiDirectional := false |} ]};
     links := [10; 11] |}.

(** Two faces with their layers, in the order of their names and in the
    other order. *)
Definition facesAB : list Mapping.Face :=
  [ {| Mapping.name := "a"; Mapping.images := ["ok.png"] |};
    {| Mapping.name := "b"; Mapping.images := ["ok.png"; "ok.png"] |} ].
Definition facesBA : list Mapping.Face :=
  [ {| Mapping.name := "b"; Mapping.images := ["ok.png"; "ok.png"] |};
    {| Mapping.name := "a"; Mapping.images := ["ok.png"] |} ].

(** A history of three images, the second one current. *)
Definition threeImages : Editor.History :=
  {| Editor.dataHistory := [[[0%Z]]; [[1%Z]]; [[2%Z]]];
     Editor.currentHistoryIndex := 1;
     Editor.currentSaveIndex := 0 |}.

(** Two faces of [mapper.js] with their images, and the nodes
    [displayNodes] makes for them. *)
Definition uploadedFaces : list Mapper.Face :=
  [ {| Mapper.name := "happy"; Mapper.images := ["blob:1"; "blob:2"] |};
    {| Mapper.name := "sad"; Mapper.images := ["blob:3"] |} ].

(** An upload of four files: two images of one face, a text file, and an
    image of another face. *)
Definition uploadedFiles : list Mapper.File :=
  [ {| Mapper.file_type := "image/png"; Mapper.webkitRelativePath := "faces/happy/1.png";
       Mapper.objectURL := "blob:1" |};
    {| Mapper.file_type := "text/plain"; Mapper.webkitRelativePath := "faces/happy/notes.txt";
       Mapper.objectURL := "blob:9" |};
    {| Mapper.file_type := "image/png"; Mapper.webkitRelativePath := "faces/sad/1.png";
       Mapper.objectURL := "blob:3" |};
    {| Mapper.file_type := "image/bmp"; Mapper.webkitRelativePath := "faces/happy/2.bmp";
       Mapper.objectURL := "blob:2" |} ].

(** A sort of the faces by name, in the order of the code units, which is
    the order of the locale for names in lower case ASCII letters. *)
Fixpoint insertFace (face : Mapper.Face) (faces : list Mapper.Face) : list Mapper.Face :=
  match faces with
  | [] => [face]
  | other :: rest =>
      if String.leb (Mapper.name face) (Mapper.name other)
      then face :: other :: rest
      else other :: insertFace face rest
  end.

Fixpoint sortFaces (faces : list Mapper.Face) : list Mapper.Face :=
  match faces with
  | [] => []
  | face :: rest => insertFace face (sortFaces rest)
  end.

(** A row of a black-and-white image: a black pixel, a white one, two
    black ones. *)
Definition blackAndWhite : list (Z * Z * Z * Z) :=
  [(0, 0, 0, 255); (255, 255, 255, 255); (0, 0, 0, 255); (0, 0, 0, 255)]%Z.

(** The nodes of a file to import: one for each uploaded face, one with a
    name that is not the name of a face and one with a name that an object
    inherits. *)
Definition importedNodes : list Mapper.NodeData :=
  Mapper.savedNodes (Mapper.faceNodes uploadedFaces)
  ++ [ {| Mapper.key := 2; Mapper.node_name := "stranger"; Mapper.text := "2 - stranger";
          Mapper.loc := None; Mapper.node_images := None |};
       {| Mapper.key := 3; Mapper.node_name := "toString"; Mapper.text := "3 - toString";
          Mapper.loc := None; Mapper.node_images := None |} ].

(** A painting that never throws, on a view that keeps nothing. *)
Definition paint (data : list (list Z)) (view : unit) : option unit := Some view.

(** Faces a, b, c with one link, from a to b. *)
Definition chainDiagram : Diagram :=
  {| nodes := [0; 1; 2]; linkData := {[ 7 := plainAB ]}; links := [7] |}.

(** The diagram [displayNodes] builds for no faces. *)
Definition emptyDiagram : Diagram := {| nodes := []; linkData := ∅; links := [] |}.

End Examples.

(** * Properties *)

(** Membership in a list that is written out. *)
Ltac elem_of_list :=
  repeat first [ apply list_elem_of_here | apply list_elem_of_further ].

(** ** The [LinkDrawn] listener *)

Section LinkDrawn.

Import GoDiagram.

Lemma setBiDirectional_idem b data :
  setBiDirectional b (setBiDirectional b data) = setBiDirectional b data.
Proof. reflexivity. Qed.

Lemma joins_setBiDirectional a b f data :
  joins a b (setBiDirectional f data) = joins a b data.
Proof. reflexivity. Qed.

Lemma filter_ne_idem (x : nat) (l : list nat) :
  filter (fun y => y <> x) (filter (fun y => y <> x) l) = filter (fun y => y <> x) l.
Proof.
  induction l as [|y l IH]; [reflexivity|].
  rewrite (filter_cons (fun y => y <> x) y l).
  destruct (decide (y <> x)) as [Hy|Hy]; [|exact IH].
  rewrite filter_cons_True by exact Hy. by rewrite IH.
Qed.

Lemma filter_ne_fresh (x : nat) (l : list nat) :
  x ∉ l -> filter (fun y => y <> x) (l ++ [x]) = l.
Proof.
  intros Hx. rewrite filter_app.
  rewrite (filter_cons_False _ x []) by (intros H; by apply H).
  rewrite filter_nil, app_nil_r.
  induction l as [|y l IH]; [reflexivity|].
  apply not_elem_of_cons in Hx as [Hne Hx].
  rewrite filter_cons_True by congruence. by rewrite IH.
Qed.

Lemma evolves_refl subject s : evolves subject s s.
Proof. repeat split; auto. Qed.

Lemma evolves_trans subject s1 s2 s3 :
  evolves subject s1 s2 -> evolves subject s2 s3 -> evolves subject s1 s3.
Proof.
  intros (Hn1 & Hd1 & Hl1) (Hn2 & Hd2 & Hl2). split; [congruence|]. split.
  - intros l. destruct (Hd1 l) as [E1|E1], (Hd2 l) as [E2|E2]; rewrite E2, E1; auto.
    right. by destruct (linkData s1 !! l).
  - destruct Hl1 as [E1|E1], Hl2 as [E2|E2]; rewrite E2, E1; auto.
    right. apply filter_ne_idem.
Qed.

Lemma evolves_mergeStep subject s item : evolves subject s (mergeStep subject s item).
Proof.
  unfold mergeStep.
  destruct (linkData s !! item) as [itemData|] eqn:Hi; [|apply evolves_refl].
  destruct (linkData s !! subject) as [subjectData|]; [|apply evolves_refl].
  destruct (to itemData =? from subjectData)%nat; [|apply evolves_refl].
  split; [reflexivity|]. split; [|by right].
  intros l. simpl. destruct (decide (l = item)) as [->|Hne].
  - right. apply lookup_alter_eq.
  - left. by apply lookup_alter_ne.
Qed.

Lemma evolves_nextItem subject s item : evolves subject s (nextItem subject s item).
Proof.
  unfold nextItem. destruct (decide _); [apply evolves_mergeStep|apply evolves_refl].
Qed.

Lemma evolves_foldl subject its s : evolves subject s (foldl (nextItem subject) s its).
Proof.
  revert s. induction its as [|item its IH]; intros s; [apply evolves_refl|].
  simpl. eapply evolves_trans; [apply evolves_nextItem|apply IH].
Qed.

(** Only the drawn link leaves the diagram. *)
Lemma evolves_links subject s s' l :
  evolves subject s s' -> l <> subject -> l ∈ links s -> l ∈ links s'.
Proof.
  intros (_ & _ & [E|E]) Hne Hl; rewrite E; [exact Hl|].
  by apply list_elem_of_filter.
Qed.

(** The endpoints of every data object are the same after the listener. *)
Lemma evolves_endpoints subject s s' l :
  evolves subject s s' ->
  (from <$> linkData s' !! l = from <$> linkData s !! l)
  /\ (to <$> linkData s' !! l = to <$> linkData s !! l).
Proof.
  intros (_ & Hd & _). destruct (Hd l) as [E|E]; rewrite E; [done|].
  by destruct (linkData s !! l).
Qed.

(** Once the drawn link has left and a flag has been raised, they stay so. *)
Lemma merged_evolves subject item s s' :
  evolves subject s s' -> merged subject item s -> merged subject item s'.
Proof.
  intros (_ & Hd & Hl) [Hs Hf]. split.
  - destruct Hl as [E|E]; rewrite E; [done|].
    rewrite list_elem_of_filter. tauto.
  - destruct (Hd item) as [E|E]; rewrite E; [done|].
    destruct (linkData s !! item); [reflexivity|discriminate].
Qed.

Lemma mergeStep_merged subject s item b :
  from <$> linkData s !! subject = Some b ->
  to <$> linkData s !! item = Some b ->
  merged subject item (mergeStep subject s item).
Proof.
  intros Hs Hi. unfold mergeStep.
  destruct (linkData s !! item) as [itemData|] eqn:Ei; [|discriminate].
  destruct (linkData s !! subject) as [subjectData|] eqn:Es; [|discriminate].
  simpl in Hs, Hi. injection Hs as Hs. injection Hi as Hi.
  rewrite Hs, Hi, Nat.eqb_refl. split; simpl.
  - rewrite list_elem_of_filter. tauto.
  - by rewrite lookup_alter_eq, Ei.
Qed.

(** A link other than the drawn one that points back at the source of the
    drawn link is visited, and merges the drawn link. *)
Lemma foldl_merged subject b item its s :
  from <$> linkData s !! subject = Some b ->
  to <$> linkData s !! item = Some b ->
  item <> subject -> item ∈ links s ->
  item ∈ its ->
  merged subject item (foldl (nextItem subject) s its).
Proof.
  intros Hs Hi Hne Hl Hin.
  apply list_elem_of_split in Hin as (its1 & its2 & ->).
  rewrite foldl_app. simpl.
  set (s1 := foldl (nextItem subject) s its1).
  assert (E1 : evolves subject s s1) by apply evolves_foldl.
  eapply merged_evolves; [apply evolves_foldl|].
  unfold nextItem. rewrite decide_True by (by apply (evolves_links subject s)).
  apply (mergeStep_merged subject s1 item b).
  - destruct (evolves_endpoints subject s s1 subject E1) as [-> _]. exact Hs.
  - destruct (evolves_endpoints subject s s1 item E1) as [_ ->]. exact Hi.
Qed.

(** An item that does not point back at the source of the drawn link
    leaves the diagram as it is. *)
Lemma mergeStep_no_match subject s item :
  to <$> linkData s !! item <> from <$> linkData s !! subject ->
  mergeStep subject s item = s.
Proof.
  intros Hne. unfold mergeStep.
  destruct (linkData s !! item) as [itemData|]; [|reflexivity].
  destruct (linkData s !! subject) as [subjectData|]; [|reflexivity].
  destruct (Nat.eqb_spec (to itemData) (from subjectData)) as [Heq|]; [|reflexivity].
  exfalso. apply Hne. simpl. by rewrite Heq.
Qed.

Lemma nextItem_no_match subject s item :
  to <$> linkData s !! item <> from <$> linkData s !! subject ->
  nextItem subject s item = s.
Proof.
  intros Hne. unfold nextItem. destruct (decide _); [|reflexivity].
  by apply mergeStep_no_match.
Qed.

Lemma foldl_no_match subject its : forall s,
  Forall (fun item => to <$> linkData s !! item <> from <$> linkData s !! subject) its ->
  foldl (nextItem subject) s its = s.
Proof.
  induction its as [|item its IH]; intros s Hall; [reflexivity|].
  apply Forall_cons in Hall as [Hi Hall]. simpl.
  rewrite (nextItem_no_match subject s item Hi). by apply IH.
Qed.

Lemma mergeStep_other subject s item l :
  l <> item \/ to <$> linkData s !! l <> from <$> linkData s !! subject ->
  linkData (mergeStep subject s item) !! l = linkData s !! l.
Proof.
  intros Hl. destruct (decide (l = item)) as [->|Hne].
  - destruct Hl as [Hl|Hl]; [done|]. by rewrite mergeStep_no_match.
  - unfold mergeStep.
    destruct (linkData s !! item) as [itemData|]; [|reflexivity].
    destruct (linkData s !! subject) as [subjectData|]; [|reflexivity].
    destruct (to itemData =? from subjectData)%nat; [|reflexivity].
    simpl. by apply lookup_alter_ne.
Qed.

Lemma nextItem_other subject s item l :
  l <> item \/ to <$> linkData s !! l <> from <$> linkData s !! subject ->
  linkData (nextItem subject s item) !! l = linkData s !! l.
Proof.
  intros Hl. unfold nextItem. destruct (decide _); [|reflexivity].
  by apply mergeStep_other.
Qed.

Lemma foldl_other subject its l : forall s,
  l ∉ its \/ to <$> linkData s !! l <> from <$> linkData s !! subject ->
  linkData (foldl (nextItem subject) s its) !! l = linkData s !! l.
Proof.
  induction its as [|item its IH]; intros s Hl; [reflexivity|]. simpl.
  assert (Hev := evolves_nextItem subject s item).
  destruct (evolves_endpoints subject s _ l Hev) as [_ Hto].
  destruct (evolves_endpoints subject s _ subject Hev) as [Hfrom _].
  rewrite IH.
  - apply nextItem_other. destruct Hl as [Hl|Hl]; [left|by right].
    intros ->. apply Hl, list_elem_of_here.
  - destruct Hl as [Hl|Hl]; [left|right].
    + intros Hin. by apply Hl, list_elem_of_further.
    + by rewrite Hto, Hfrom.
Qed.

Lemma joining_length (h h' : gmap nat LinkData) (ls : list nat) a b :
  (forall l, l ∈ ls ->
     h' !! l = h !! l \/ h' !! l = setBiDirectional true <$> h !! l) ->
  length (filter (fun data => joins a b data = true) (omap (fun l => h' !! l) ls))
  = length (filter (fun data => joins a b data = true) (omap (fun l => h !! l) ls)).
Proof.
  induction ls as [|l ls IH]; intros Hd; [reflexivity|]. cbn [omap list_omap].
  assert (IH' := IH (fun l' Hl' => Hd l' (list_elem_of_further _ _ _ Hl'))).
  destruct (Hd l (list_elem_of_here _ _)) as [E|E]; rewrite E.
  - destruct (h !! l) as [data|]; [|exact IH'].
    rewrite !(filter_cons (fun data => joins a b data = true)).
    destruct (decide (joins a b data = true)); simpl; by rewrite IH'.
  - destruct (h !! l) as [data|]; [|exact IH']. cbn [fmap option_fmap option_map].
    rewrite !(filter_cons (fun data => joins a b data = true)).
    rewrite joins_setBiDirectional.
    destruct (decide (joins a b data = true)); simpl; by rewrite IH'.
Qed.

(** C3. Drawing a link from [b] to [a] when a link from [a] to [b] is in
    the diagram leaves the links of the diagram as they were before the
    drawing: the drawn link is removed, the flag [isBiDirectional] of the
    link from [a] to [b] is [true], and a pair of nodes joined by at most
    one link before is joined by at most one link afterwards. *)
Theorem C3_reverse_link_is_merged (d : Diagram) (subject existing a b : nat) (data : LinkData) :
  subject ∉ links d ->
  existing ∈ links d ->
  linkData d !! existing = Some data ->
  from data = a -> to data = b ->
  exists d',
    drawLink subject b a d = Some d'
    /\ links d' = links d
    /\ (subject ∉ links d')
    /\ linkData d' !! existing = Some (setBiDirectional true data)
    /\ (forall x y, length (linksJoining x y d') = length (linksJoining x y d))
    /\ (forall x y, length (linksJoining x y d) <= 1 -> length (linksJoining x y d') <= 1).
Proof.
  intros Hfresh Hin Hdata Hfrom Hto.
  assert (Hne : existing <> subject) by (intros ->; contradiction).
  unfold drawLink, onLinkDrawn. cbn [linkData setDataProperty links nodes].
  rewrite lookup_alter_eq, lookup_insert_eq. cbn [fmap option_fmap option_map setBiDirectional to].
  set (d1 := setDataProperty subject false _).
  set (its := findLinksOutOf d1 a).
  set (d' := foldl (nextItem subject) d1 its).
  assert (Hsub : from <$> linkData d1 !! subject = Some b).
  { unfold d1. simpl. by rewrite lookup_alter_eq, lookup_insert_eq. }
  assert (Hex : linkData d1 !! existing = Some data).
  { unfold d1. simpl. rewrite lookup_alter_ne, lookup_insert_ne by done. exact Hdata. }
  assert (Hin1 : existing ∈ links d1).
  { unfold d1. simpl. rewrite elem_of_app. by left. }
  assert (Hits : existing ∈ its).
  { unfold its, findLinksOutOf. rewrite list_elem_of_filter. split; [|exact Hin1].
    rewrite Hex. simpl. by rewrite Hfrom. }
  assert (Hev : evolves subject d1 d') by apply evolves_foldl.
  assert (Hm : merged subject existing d').
  { apply (foldl_merged subject b existing its d1 Hsub); [|exact Hne|exact Hin1|exact Hits].
    rewrite Hex. simpl. by rewrite Hto. }
  destruct Hm as [Hgone Hflag].
  assert (Hlinks : links d' = links d).
  { destruct Hev as (_ & _ & [E|E]).
    - exfalso. apply Hgone. rewrite E. unfold d1. simpl.
      rewrite elem_of_app, list_elem_of_singleton. by right.
    - rewrite E. unfold d1. simpl. by apply filter_ne_fresh. }
  assert (Hlen : forall x y, length (linksJoining x y d') = length (linksJoining x y d)).
  { intros x y. unfold linksJoining, linkDataArray. rewrite Hlinks.
    apply joining_length. intros l Hl.
    assert (l <> subject) by (intros ->; contradiction).
    destruct Hev as (_ & Hd & _).
    replace (linkData d !! l) with (linkData d1 !! l); [apply Hd|].
    unfold d1. simpl. by rewrite lookup_alter_ne, lookup_insert_ne. }
  exists d'. split; [reflexivity|]. split; [exact Hlinks|]. split; [exact Hgone|].
  split; [|split; [exact Hlen|]].
  - destruct Hev as (_ & Hd & _). destruct (Hd existing) as [E|E].
    + rewrite E, Hex in Hflag |- *. simpl in Hflag. injection Hflag as Hflag.
      destruct data as [f t bi]. simpl in Hflag. by rewrite Hflag.
    + by rewrite E, Hex.
  - intros x y. by rewrite Hlen.
Qed.

Lemma C3_reverse_link_is_merged_witness :
  exists d',
    drawLink 8 1 0 Examples.oneLinkDiagram = Some d'
    /\ links d' = [7]
    /\ (8 ∉ links d')
    /\ linkData d' !! 7 = Some {| from := 0; to := 1; isBiDirectional := true |}
    /\ (forall x y, length (linksJoining x y d')
                    = length (linksJoining x y Examples.oneLinkDiagram))
    /\ (forall x y, length (linksJoining x y Examples.oneLinkDiagram) <= 1 ->
                    length (linksJoining x y d') <= 1).
Proof.
  apply (C3_reverse_link_is_merged Examples.oneLinkDiagram 8 7 0 1 Examples.plainAB).
  - simpl. intros H. apply list_elem_of_singleton in H. lia.
  - simpl. apply list_elem_of_here.
  - reflexivity.
  - reflexivity.
  - reflexivity.
Defined.






End LinkDrawn.

(** ** The mapping compiler of [mapper.js] *)

Section MapperCompiler.

Import GoDiagram Mapper.

Lemma addMapping_outList m k face k' :
  exists m', addMapping m k (Some face) = Some m'
    /\ outList m' k' = outList m k' ++ (if Nat.eqb k k' then [upperName face] else []).
Proof.
  unfold addMapping, outList. eexists. split; [reflexivity|].
  destruct (Nat.eqb_spec k k') as [->|Hne].
  - rewrite lookup_insert_eq. simpl. destruct (m !! k') eqn:E.
    + by rewrite E.
    + by rewrite lookup_insert_eq.
  - rewrite lookup_insert_ne by done. rewrite app_nil_r.
    destruct (m !! k); [done|]. by rewrite lookup_insert_ne.
Qed.

Lemma visitLink_outList facesArray m item m' k :
  visitLink facesArray m item = Some m' ->
  outList m' k = outList m k ++ contribution facesArray k item.
Proof.
  unfold visitLink, contribution. intros H.
  destruct (facesArray !! to item) as [t|] eqn:Et; [|discriminate]. simpl.
  destruct (addMapping_outList m (from item) t k) as (m1 & E1 & O1).
  rewrite E1 in H. destruct (isBiDirectional item) eqn:Ebi; simpl.
  - destruct (facesArray !! from item) as [f|] eqn:Ef; [|discriminate]. simpl.
    destruct (addMapping_outList m1 (to item) f k) as (m2 & E2 & O2).
    rewrite E2 in H. injection H as <-. by rewrite O2, O1, <- app_assoc.
  - injection H as <-. by rewrite O1, app_nil_r.
Qed.

Lemma visitLinks_outList facesArray items : forall m m' k,
  visitLinks facesArray m items = Some m' ->
  outList m' k = outList m k ++ concat (map (contribution facesArray k) items).
Proof.
  induction items as [|item items IH]; intros m m' k H; simpl in *.
  - injection H as <-. by rewrite app_nil_r.
  - destruct (visitLink facesArray m item) as [m1|] eqn:E1; [|discriminate].
    rewrite (IH _ _ k H), (visitLink_outList _ _ _ _ k E1). by rewrite app_assoc.
Qed.

Lemma visitLink_total facesArray m item :
  endsAreFaces facesArray item -> is_Some (visitLink facesArray m item).
Proof.
  intros [Ht Hf]. unfold visitLink.
  destruct (lookup_lt_is_Some_2 facesArray (to item) Ht) as [t Et]. rewrite Et.
  destruct (addMapping_outList m (from item) t 0) as (m1 & -> & _).
  destruct (isBiDirectional item); [|by eexists].
  destruct (lookup_lt_is_Some_2 facesArray (from item) (Hf eq_refl)) as [f Ef]. rewrite Ef.
  destruct (addMapping_outList m1 (to item) f 0) as (m2 & -> & _). by eexists.
Qed.

Lemma visitLinks_total facesArray items : forall m,
  Forall (endsAreFaces facesArray) items -> is_Some (visitLinks facesArray m items).
Proof.
  induction items as [|item items IH]; intros m H; simpl; [by eexists|].
  apply Forall_cons in H as [H1 H2].
  destruct (visitLink_total facesArray m item H1) as [m1 ->]. by apply IH.
Qed.

Lemma generateMappings_outList facesArray diagram mappings k :
  generateMappings facesArray diagram = Some mappings ->
  outList mappings k = concat (map (contribution facesArray k) (visited diagram)).
Proof.
  intros H. apply (visitLinks_outList _ _ _ _ k) in H. rewrite H.
  unfold outList. by rewrite lookup_empty.
Qed.

Lemma occurrences_app token l1 l2 :
  occurrences token (l1 ++ l2) = occurrences token l1 + occurrences token l2.
Proof. apply count_occ_app. Qed.

Lemma occurrences_zero token l : token ∉ l -> occurrences token l = 0.
Proof. intros H. apply count_occ_not_In. by rewrite <- list_elem_of_In. Qed.

Lemma occurrences_concat_zero token (ls : list (list string)) :
  Forall (fun l => token ∉ l) ls -> occurrences token (concat ls) = 0.
Proof.
  induction 1 as [|l ls Hl _ IH]; [reflexivity|]. simpl.
  by rewrite occurrences_app, IH, occurrences_zero.
Qed.


(** The only element a filter keeps splits the list in two parts the
    filter rejects. *)
Lemma filter_singleton_split {A} (P : A -> Prop) `{forall x, Decision (P x)}
    (l : list A) (x : A) :
  filter P l = [x] ->
  exists l1 l2, l = l1 ++ x :: l2 /\ Forall (fun y => ~ P y) (l1 ++ l2).
Proof.
  induction l as [|y l IH]; intros Hf; [discriminate|].
  rewrite filter_cons in Hf. destruct (decide (P y)) as [Hy|Hy].
  - injection Hf as -> Hf. exists [], l. split; [reflexivity|]. simpl.
    apply Forall_forall. intros z Hz Pz.
    assert (Hin : z ∈ filter P l) by (apply list_elem_of_filter; auto).
    rewrite Hf in Hin. by apply not_elem_of_nil in Hin.
  - destruct (IH Hf) as (l1 & l2 & -> & Hall). exists (y :: l1), l2.
    split; [reflexivity|]. simpl. by constructor.
Qed.

(** Faces with pairwise distinct uppercase names are told apart by them. *)
Lemma upperName_inj (facesArray : list Face) i j f g :
  NoDup (map upperName facesArray) ->
  facesArray !! i = Some f -> facesArray !! j = Some g ->
  upperName f = upperName g -> i = j.
Proof.
  intros Hnd Hi Hj Heq.
  apply (NoDup_lookup (map upperName facesArray) i j (upperName f) Hnd).
  - change (map upperName facesArray) with (upperName <$> facesArray).
    by rewrite list_lookup_fmap, Hi.
  - change (map upperName facesArray) with (upperName <$> facesArray).
    by rewrite list_lookup_fmap, Hj, Heq.
Qed.

(** A link that does not join [a] and [b] adds neither the name of [b] to
    the out-list of [a] nor the name of [a] to the out-list of [b]. *)
Lemma contribution_other facesArray a b fb other :
  NoDup (map upperName facesArray) ->
  facesArray !! b = Some fb ->
  joins a b other = false ->
  upperName fb ∉ contribution facesArray a other.
Proof.
  intros Hnd Hb Hj Hin. unfold contribution in Hin.
  apply elem_of_app in Hin as [Hin|Hin].
  - destruct (Nat.eqb_spec (from other) a) as [Ha|]; [|by apply not_elem_of_nil in Hin].
    destruct (facesArray !! to other) as [t|] eqn:Et; [|by apply not_elem_of_nil in Hin].
    apply list_elem_of_singleton in Hin.
    assert (b = to other) by (eapply upperName_inj; eauto).
    unfold joins in Hj. subst. by rewrite !Nat.eqb_refl in Hj.
  - destruct (isBiDirectional other); [|by apply not_elem_of_nil in Hin].
    destruct (Nat.eqb_spec (to other) a) as [Ha|]; [|by apply not_elem_of_nil in Hin].
    destruct (facesArray !! from other) as [f|] eqn:Ef; [|by apply not_elem_of_nil in Hin].
    apply list_elem_of_singleton in Hin.
    assert (b = from other) by (eapply upperName_inj; eauto).
    unfold joins in Hj. subst. rewrite !Nat.eqb_refl in Hj. simpl in Hj.
    by rewrite orb_true_r in Hj.
Qed.

Lemma joins_sym a b data : joins a b data = joins b a data.
Proof. unfold joins. apply orb_comm. Qed.


Lemma occurrences_others facesArray a b fb others :
  NoDup (map upperName facesArray) ->
  facesArray !! b = Some fb ->
  Forall (fun other => ~ joins a b other = true) others ->
  occurrences (upperName fb) (concat (map (contribution facesArray a) others)) = 0.
Proof.
  intros Hnd Hb Hall. apply occurrences_concat_zero, Forall_forall.
  intros l Hl. apply list_elem_of_In, in_map_iff in Hl as (other & <- & Ho).
  apply (contribution_other facesArray a b fb other Hnd Hb).
  apply not_true_iff_false. rewrite Forall_forall in Hall.
  apply Hall. by apply list_elem_of_In.
Qed.




(** The other two conditions are needed as well: a bidirectional link from
    a face to itself adds the name of the face twice to its out-list, and so
    do links from one face to two faces whose names differ by case only. *)
Lemma bidirectional_self_loop_adds_name_twice :
  generateMappings [Examples.face "a"] Examples.selfLoopDiagram
  = Some {[ 0 := ["A"; "A"] ]}.
Proof. by vm_compute. Qed.

Lemma names_differing_by_case_add_same_token :
  generateMappings [Examples.face "x"; Examples.face "a"; Examples.face "A"]
    Examples.sameUpperDiagram
  = Some {[ 0 := ["A"; "A"]; 1 := ["X"] ]}.
Proof. by vm_compute. Qed.

(** C5, counterexample.  In [mapper.js] the out-list of a face keeps the
    order in which its links are visited: with links from a to c and from
    a to b, the row of a is c, b. *)
Lemma C5_counterexample_mapper_keeps_visit_order :
  exists mappings,
    generateMappings Examples.threeFaces Examples.unsortedDiagram = Some mappings
    /\ tableRow mappings (getMaxLinks mappings) 0 = ["C"; "B"]
    /\ String.leb "C" "B" = false
    /\ generateFileMappings Examples.threeFaces mappings (getMaxLinks mappings)
       = "  {C, B}, //A" +:+ JS.newline
         +:+ "  {INVALID_FACE, INVALID_FACE}, //B" +:+ JS.newline
         +:+ "  {INVALID_FACE, INVALID_FACE} //C" +:+ JS.newline.
Proof.
  exists {[ 0 := ["C"; "B"] ]}. split; [by vm_compute|]. by vm_compute.
Qed.

End MapperCompiler.

(** ** The default order of [sort] *)

Section Sorting.

Lemma le_total s1 s2 : JS.le s1 s2 \/ JS.le s2 s1.
Proof. apply String.leb_total. Qed.

Lemma le_antisym s1 s2 : JS.le s1 s2 -> JS.le s2 s1 -> s1 = s2.
Proof. apply String.leb_antisym. Qed.

Lemma le_trans s1 s2 s3 : JS.le s1 s2 -> JS.le s2 s3 -> JS.le s1 s3.
Proof.
  unfold JS.le, String.leb. revert s2 s3.
  induction s1 as [|c1 s1 IH]; intros [|c2 s2] [|c3 s3]; simpl; try done.
  unfold Ascii.compare.
  destruct (N.compare_spec (N_of_ascii c1) (N_of_ascii c2)) as [E12|L12|G12];
    destruct (N.compare_spec (N_of_ascii c2) (N_of_ascii c3)) as [E23|L23|G23];
    destruct (N.compare_spec (N_of_ascii c1) (N_of_ascii c3)) as [E13|L13|G13];
    try done; try lia.
  apply IH.
Qed.

Lemma insert_sorted_Permutation x l : JS.insert_sorted x l ≡ₚ x :: l.
Proof.
  induction l as [|y l IH]; simpl; [done|].
  destruct (String.leb x y); [done|]. rewrite IH. apply Permutation_swap.
Qed.

Lemma sort_Permutation l : JS.sort l ≡ₚ l.
Proof.
  induction l as [|x l IH]; simpl; [done|].
  by rewrite insert_sorted_Permutation, IH.
Qed.

Lemma sort_length l : length (JS.sort l) = length l.
Proof. by rewrite sort_Permutation. Qed.


Lemma insert_sorted_StronglySorted x l :
  StronglySorted JS.le l -> StronglySorted JS.le (JS.insert_sorted x l).
Proof.
  induction 1 as [|y l Hl IH Hy]; simpl; [repeat constructor|].
  destruct (String.leb x y) eqn:E.
  - constructor; [by constructor|]. constructor; [exact E|].
    eapply Forall_impl; [exact Hy|]. intros z Hz. by apply (le_trans x y z).
  - constructor; [exact IH|].
    rewrite insert_sorted_Permutation. constructor; [|exact Hy].
    destruct (le_total x y) as [H|H]; [|exact H].
    unfold JS.le in H. congruence.
Qed.

Lemma sort_StronglySorted l : StronglySorted JS.le (JS.sort l).
Proof.
  induction l as [|x l IH]; simpl; [constructor|].
  by apply insert_sorted_StronglySorted.
Qed.

End Sorting.

(** ** The mapping compiler of [mapping.ts] *)

Section MappingCompiler.

Import Mapping.

Lemma append_assoc (s1 s2 s3 : string) : (s1 +:+ s2) +:+ s3 = s1 +:+ s2 +:+ s3.
Proof.
  induction s1 as [|c s1 IH]; [reflexivity|].
  change (String c ((s1 +:+ s2) +:+ s3) = String c (s1 +:+ s2 +:+ s3)). by rewrite IH.
Qed.

Lemma append_empty_r (s : string) : s +:+ "" = s.
Proof.
  induction s as [|c s IH]; [reflexivity|].
  change (String c (s +:+ "") = String c s). by rewrite IH.
Qed.

(** [getMaxLinks] is the greatest length of an out-list of the mapping. *)
Lemma getMaxLinks_spec (mappings : gmap string (list string)) :
  (forall k l, mappings !! k = Some l -> length l <= getMaxLinks mappings)
  /\ (getMaxLinks mappings = 0
      \/ exists k l, mappings !! k = Some l /\ length l = getMaxLinks mappings).
Proof.
  unfold getMaxLinks.
  apply (map_fold_weak_ind
           (fun r (m : gmap string (list string)) =>
              (forall k l, m !! k = Some l -> length l <= r)
              /\ (r = 0 \/ exists k l, m !! k = Some l /\ length l = r))).
  - split; [|by left]. intros k l H. by rewrite lookup_empty in H.
  - intros i x m r Hi [Hle Hatt]. split.
    + intros k l Hk. destruct (decide (i = k)) as [->|Hne].
      * rewrite lookup_insert_eq in Hk. injection Hk as ->. lia.
      * rewrite lookup_insert_ne in Hk by done. specialize (Hle k l Hk). lia.
    + right. destruct (Nat.max_spec r (length x)) as [[Hlt ->]|[Hge ->]].
      * exists i, x. by rewrite lookup_insert_eq.
      * destruct Hatt as [->|(k & l & Hk & Hl)].
        -- exists i, x. rewrite lookup_insert_eq. split; [done|lia].
        -- exists k, l. rewrite lookup_insert_ne; [done|]. intros ->. congruence.
Qed.

Lemma getMaxLinks_empty : getMaxLinks ∅ = 0.
Proof. reflexivity. Qed.

Lemma fullMappingsOf_getMaxLinks mappings :
  fullMappingsOf mappings (getMaxLinks mappings)
  = Some (padded (getMaxLinks mappings) <$> mappings).
Proof.
  unfold fullMappingsOf. destruct (decide _) as [|Hn]; [reflexivity|].
  exfalso. apply Hn. intros k l Hk. by apply getMaxLinks_spec in Hk.
Qed.

Lemma padded_length max l : length l <= max -> length (padded max l) = max.
Proof.
  intros H. unfold padded, JS.fill.
  rewrite length_app, length_replicate, sort_length. lia.
Qed.

Lemma tableRow_length mappings face :
  length (tableRow mappings (getMaxLinks mappings) face) = getMaxLinks mappings.
Proof.
  unfold tableRow. destruct (mappings !! name face) as [l|] eqn:E.
  - apply padded_length. by apply getMaxLinks_spec in E.
  - apply length_replicate.
Qed.

Lemma tableRow_outList mappings max face :
  tableRow mappings max face
  = JS.sort (outList mappings (name face))
    ++ JS.fill (max - length (outList mappings (name face))) INVALID_FACE.
Proof.
  unfold tableRow, outList. destruct (mappings !! name face); simpl; [reflexivity|].
  by rewrite Nat.sub_0_r.
Qed.

Lemma emitFace_spec mappings max count full text index face :
  holdsRows mappings max full ->
  JS.inherited (name face) = false ->
  exists full',
    emitFace max count (full, text) index face
    = Some (full', text +:+ tableLine count index face (tableRow mappings max face))
    /\ holdsRows mappings max full'
    /\ (noInheritedKey full -> noInheritedKey full').
Proof.
  intros Hinv Hown. unfold emitFace. cbn [fst snd].
  assert (Hf := Hinv face).
  destruct (full !! name face) as [row|] eqn:E.
  - exists full. simpl. by rewrite Hf.
  - rewrite Hown. eexists. split; [|split].
    + rewrite lookup_insert_eq. simpl. unfold tableRow. by rewrite Hf.
    + intros g. destruct (decide (name face = name g)) as [Heq|Hne].
      * rewrite <- Heq, lookup_insert_eq. unfold tableRow. by rewrite <- Heq, Hf.
      * rewrite lookup_insert_ne by done. apply Hinv.
    + intros Hkeys key [l Hl]. destruct (decide (name face = key)) as [<-|Hne]; [done|].
      rewrite lookup_insert_ne in Hl by done. apply Hkeys. by exists l.
Qed.

Lemma emitFace_inherited max count full text index face :
  noInheritedKey full ->
  JS.inherited (name face) = true ->
  emitFace max count (full, text) index face = None.
Proof.
  intros Hkeys Hinh. unfold emitFace. cbn [fst snd].
  destruct (full !! name face) as [row|] eqn:E; [|by rewrite Hinh].
  rewrite (Hkeys (name face)) in Hinh by (by exists row). discriminate.
Qed.

Lemma forEachFace_spec mappings max count faces : forall full text index,
  holdsRows mappings max full ->
  ownNames faces ->
  snd <$> forEachFace max count (full, text) index faces
  = Some (text +:+ tableLines count index faces (map (tableRow mappings max) faces)).
Proof.
  induction faces as [|face faces IH]; intros full text index Hinv Hown.
  - simpl. by rewrite append_empty_r.
  - apply Forall_cons in Hown as [Hface Hown]. cbn [forEachFace].
    destruct (emitFace_spec mappings max count full text index face Hinv Hface)
      as (full' & -> & Hinv' & _).
    rewrite (IH full' _ (S index) Hinv' Hown).
    cbn [map tableLines]. by rewrite append_assoc.
Qed.

Lemma forEachFace_throws mappings max count faces : forall full text index,
  holdsRows mappings max full ->
  noInheritedKey full ->
  ~ ownNames faces ->
  forEachFace max count (full, text) index faces = None.
Proof.
  induction faces as [|face faces IH]; intros full text index Hinv Hkeys Hnot.
  - exfalso. apply Hnot. constructor.
  - cbn [forEachFace]. destruct (JS.inherited (name face)) eqn:Hface.
    + by rewrite emitFace_inherited.
    + destruct (emitFace_spec mappings max count full text index face Hinv Hface)
        as (full' & -> & Hinv' & Hkeys').
      apply IH; [exact Hinv'|by apply Hkeys'|].
      intros Hown. apply Hnot. by constructor.
Qed.

Lemma holdsRows_padded mappings max : holdsRows mappings max (padded max <$> mappings).
Proof.
  intros face. rewrite lookup_fmap. unfold tableRow.
  by destruct (mappings !! name face).
Qed.

(** The text [generateFileMappings] returns is the text of the rows of the
    table, one line for each face in the order of the faces. *)
Lemma generateFileMappings_text faces mappings :
  ownNames faces ->
  generateFileMappings faces mappings (getMaxLinks mappings)
  = Some (tableText faces (tableRows faces mappings (getMaxLinks mappings))).
Proof.
  intros Hown. unfold generateFileMappings. rewrite fullMappingsOf_getMaxLinks.
  rewrite (forEachFace_spec mappings (getMaxLinks mappings)); [reflexivity| |exact Hown].
  apply holdsRows_padded.
Qed.

(** A face whose name is inherited makes [generateFileMappings] throw. *)
Lemma generateFileMappings_throws faces mappings :
  noInheritedKey mappings ->
  ~ ownNames faces ->
  generateFileMappings faces mappings (getMaxLinks mappings) = None.
Proof.
  intros Hkeys Hnot. unfold generateFileMappings. rewrite fullMappingsOf_getMaxLinks.
  rewrite (forEachFace_throws mappings (getMaxLinks mappings)); [reflexivity| | |exact Hnot].
  - apply holdsRows_padded.
  - intros key [l Hl]. rewrite lookup_fmap in Hl. apply Hkeys.
    destruct (mappings !! key) as [l0|]; [by exists l0|discriminate].
Qed.

Lemma tableRows_lookup faces mappings max i face :
  faces !! i = Some face ->
  tableRows faces mappings max !! i = Some (tableRow mappings max face).
Proof.
  intros H. unfold tableRows.
  change (map (tableRow mappings max) faces) with (tableRow mappings max <$> faces).
  by rewrite list_lookup_fmap, H.
Qed.

(** *** What [generateMappings] returns *)

Lemma mapping_addMapping_outList mappings face target mappings' key :
  addMapping mappings face target = Some mappings' ->
  outList mappings' key
  = outList mappings key ++ (if String.eqb face key then [JS.toUpperCase target] else []).
Proof.
  unfold addMapping, outList. intros H.
  destruct (mappings !! face) as [l|] eqn:E.
  - injection H as <-. destruct (String.eqb_spec face key) as [<-|Hne].
    + by rewrite lookup_insert_eq, E.
    + rewrite lookup_insert_ne by done. by rewrite app_nil_r.
  - destruct (JS.inherited face); [discriminate|]. injection H as <-.
    destruct (String.eqb_spec face key) as [<-|Hne].
    + by rewrite lookup_insert_eq, E.
    + rewrite lookup_insert_ne by done. by rewrite app_nil_r.
Qed.

Lemma addMapping_is_Some mappings face target :
  noInheritedKey mappings ->
  is_Some (addMapping mappings face target) <-> JS.inherited face = false.
Proof.
  intros Hkeys. unfold addMapping. destruct (mappings !! face) as [l|] eqn:E.
  - split; [intros _; apply Hkeys; by exists l|by eexists].
  - destruct (JS.inherited face).
    + split; [by intros [? ?]|discriminate].
    + split; [reflexivity|by eexists].
Qed.

Lemma addMapping_noInheritedKey mappings face target mappings' :
  noInheritedKey mappings ->
  addMapping mappings face target = Some mappings' ->
  noInheritedKey mappings'.
Proof.
  intros Hkeys H key [l Hl].
  assert (Hface : JS.inherited face = false).
  { apply (addMapping_is_Some mappings face target Hkeys). by rewrite H. }
  destruct (decide (face = key)) as [<-|Hne]; [exact Hface|].
  apply Hkeys. unfold addMapping in H.
  destruct (mappings !! face); [|destruct (JS.inherited face); [discriminate|]];
    injection H as <-; rewrite lookup_insert_ne in Hl by done; by exists l.
Qed.

Lemma mapping_visitLink_outList faces cells mappings link mappings' key :
  visitLink faces cells mappings link = Some mappings' ->
  outList mappings' key = outList mappings key ++ contribution faces cells key link.
Proof.
  unfold visitLink, contribution, edgeOf. intros H.
  destruct (getElementNameById cells (source_id link)) as [from|]; [|discriminate].
  destruct (getElementNameById cells (target_id link)) as [to|]; [|discriminate].
  cbv zeta in *. destruct (JS.truthy (findTarget faces to)).
  - by apply mapping_addMapping_outList.
  - injection H as <-. by rewrite app_nil_r.
Qed.

Lemma visitLink_is_Some faces cells mappings link :
  noInheritedKey mappings ->
  is_Some (visitLink faces cells mappings link) <-> visitable faces cells link.
Proof.
  intros Hkeys. unfold visitLink, visitable, endsResolve, edgeOf.
  destruct (getElementNameById cells (source_id link)) as [from|];
    [|split; [by intros [? ?]|by intros [[[? ?] _] _]]].
  destruct (getElementNameById cells (target_id link)) as [to|];
    [|split; [by intros [? ?]|by intros [[_ [? ?]] _]]].
  cbv zeta. destruct (JS.truthy (findTarget faces to)).
  - rewrite (addMapping_is_Some _ _ _ Hkeys). split.
    + intros Hown. split; [split; by eexists|]. by intros key token [= <- _].
    + intros [_ Hown]. by eapply Hown.
  - split; [|by eexists]. intros _. split; [split; by eexists|]. done.
Qed.

Lemma visitLink_noInheritedKey faces cells mappings link mappings' :
  noInheritedKey mappings ->
  visitLink faces cells mappings link = Some mappings' ->
  noInheritedKey mappings'.
Proof.
  intros Hkeys. unfold visitLink.
  destruct (getElementNameById cells (source_id link)) as [from|]; [|discriminate].
  destruct (getElementNameById cells (target_id link)) as [to|]; [|discriminate].
  cbv zeta. destruct (JS.truthy (findTarget faces to)).
  - by apply addMapping_noInheritedKey.
  - by intros [= <-].
Qed.

Lemma forEachLink_outList faces cells links : forall mappings mappings' key,
  forEachLink faces cells mappings links = Some mappings' ->
  outList mappings' key
  = outList mappings key ++ concat (map (contribution faces cells key) links).
Proof.
  induction links as [|link links IH]; intros m m' key H; simpl in *.
  - injection H as <-. by rewrite app_nil_r.
  - destruct (visitLink faces cells m link) as [m1|] eqn:E1; [|discriminate].
    rewrite (IH _ _ key H), (mapping_visitLink_outList _ _ _ _ _ key E1). by rewrite app_assoc.
Qed.

(** The compiler returns a mapping exactly when every link can be
    visited. *)
Lemma forEachLink_is_Some faces cells links : forall mappings,
  noInheritedKey mappings ->
  is_Some (forEachLink faces cells mappings links)
  <-> Forall (visitable faces cells) links.
Proof.
  induction links as [|link links IH]; intros m Hkeys; simpl.
  - split; [constructor|by eexists].
  - rewrite Forall_cons, <- (visitLink_is_Some faces cells m link Hkeys).
    destruct (visitLink faces cells m link) as [m1|] eqn:E1.
    + rewrite (IH m1) by (by eapply visitLink_noInheritedKey).
      split; [intros H; split; [by eexists|exact H]|tauto].
    + split; [by intros [? ?]|by intros [[? ?] _]].
Qed.

Lemma forEachLink_noInheritedKey faces cells links : forall mappings mappings',
  noInheritedKey mappings ->
  forEachLink faces cells mappings links = Some mappings' ->
  noInheritedKey mappings'.
Proof.
  induction links as [|link links IH]; intros m m' Hkeys H; simpl in H.
  - by injection H as <-.
  - destruct (visitLink faces cells m link) as [m1|] eqn:E1; [|discriminate].
    apply (IH m1 m'); [by eapply visitLink_noInheritedKey|exact H].
Qed.

Lemma noInheritedKey_empty : noInheritedKey ∅.
Proof. intros key [l Hl]. by rewrite lookup_empty in Hl. Qed.

Lemma generateMappings_is_Some faces cells :
  is_Some (generateMappings faces cells)
  <-> Forall (visitable faces cells) (linksOf cells).
Proof. apply forEachLink_is_Some, noInheritedKey_empty. Qed.

Lemma generateMappings_noInheritedKey faces cells mappings :
  generateMappings faces cells = Some mappings -> noInheritedKey mappings.
Proof. apply forEachLink_noInheritedKey, noInheritedKey_empty. Qed.


(** C2 (amended). For the mapping the compiler makes of a graph, and faces
    none of which has a name that an object inherits: the table has one
    row for each face, in the order of the faces; every row has [maxLinks]
    tokens, where [maxLinks] is the greatest length of an out-list of the
    mapping (0 for a mapping without entries); every row is the sorted
    out-list of its face, padded on the right with [INVALID_FACE], and all
    of it is padding when the face has no out-link.  When every key of the
    mapping is the name of a face, [maxLinks] is the greatest length of an
    out-list of a face. *)
Theorem C2_table_shape
    (faces : list Face) (cells : list Cell) (mappings : gmap string (list string)) :
  generateMappings faces cells = Some mappings ->
  ownNames faces ->
  generateFileMappings faces mappings (getMaxLinks mappings)
  = Some (tableText faces (tableRows faces mappings (getMaxLinks mappings)))
  /\ length (tableRows faces mappings (getMaxLinks mappings)) = length faces
  /\ (forall i face, faces !! i = Some face ->
        tableRows faces mappings (getMaxLinks mappings) !! i
        = Some (JS.sort (outList mappings (name face))
                ++ JS.fill (getMaxLinks mappings - length (outList mappings (name face)))
                     INVALID_FACE))
  /\ (forall row, row ∈ tableRows faces mappings (getMaxLinks mappings) ->
        length row = getMaxLinks mappings)
  /\ (forall i face, faces !! i = Some face -> outList mappings (name face) = [] ->
        tableRows faces mappings (getMaxLinks mappings) !! i
        = Some (replicate (getMaxLinks mappings) INVALID_FACE))
  /\ (forall key l, mappings !! key = Some l -> length l <= getMaxLinks mappings)
  /\ (getMaxLinks mappings = 0
      \/ exists key l, mappings !! key = Some l /\ length l = getMaxLinks mappings)
  /\ (mappings = ∅ -> getMaxLinks mappings = 0)
  /\ ((forall key, is_Some (mappings !! key) -> isFaceName faces key) ->
      (forall face, length (outList mappings (name face)) <= getMaxLinks mappings)
      /\ (getMaxLinks mappings = 0
          \/ exists face, face ∈ faces
               /\ length (outList mappings (name face)) = getMaxLinks mappings)).
Proof.
  intros _ Hown.
  destruct (getMaxLinks_spec mappings) as [Hle Hatt].
  assert (Hout : forall face, length (outList mappings (name face)) <= getMaxLinks mappings).
  { intros face. unfold outList. destruct (mappings !! name face) as [l|] eqn:E; simpl.
    - by apply Hle in E.
    - lia. }
  split; [by apply generateFileMappings_text|].
  split; [apply length_map|].
  split.
  { intros i face Hi. rewrite (tableRows_lookup _ _ _ _ _ Hi). f_equal.
    apply tableRow_outList. }
  split.
  { intros row Hrow. apply list_elem_of_In, in_map_iff in Hrow as (face & <- & _).
    apply tableRow_length. }
  split.
  { intros i face Hi Hnil. rewrite (tableRows_lookup _ _ _ _ _ Hi). f_equal.
    rewrite tableRow_outList, Hnil. simpl. by rewrite Nat.sub_0_r. }
  split; [exact Hle|]. split; [exact Hatt|].
  split; [by intros ->|].
  intros Hkeys. split; [exact Hout|].
  destruct Hatt as [H0|(key & l & Hk & Hl)]; [by left|right].
  destruct (Hkeys key (mk_is_Some _ _ Hk)) as (face & Hin & Hname).
  exists face. split; [exact Hin|]. unfold outList. by rewrite Hname, Hk.
Qed.

Lemma generateMappings_abcCells :
  generateMappings Examples.abcFaces Examples.abcCells = Some {[ "a" := ["C"; "B"] ]}.
Proof. by vm_compute. Qed.

Lemma ownNames_abcFaces : ownNames Examples.abcFaces.
Proof. repeat constructor. Qed.

Lemma C2_table_shape_witness :
  generateFileMappings Examples.abcFaces {[ "a" := ["C"; "B"] ]}
    (getMaxLinks {[ "a" := ["C"; "B"] ]})
  = Some (tableText Examples.abcFaces
            (tableRows Examples.abcFaces {[ "a" := ["C"; "B"] ]}
               (getMaxLinks {[ "a" := ["C"; "B"] ]})))
  /\ length (tableRows Examples.abcFaces {[ "a" := ["C"; "B"] ]}
               (getMaxLinks {[ "a" := ["C"; "B"] ]}))
     = length Examples.abcFaces.
Proof.
  destruct (C2_table_shape Examples.abcFaces Examples.abcCells {[ "a" := ["C"; "B"] ]}
              generateMappings_abcCells ownNames_abcFaces) as (Htext & Hlen & _).
  exact (conj Htext Hlen).
Defined.

(** C2, counterexample.  For one face, b, and a link to it from an element
    without a face, the rows are one token wide, while no face has an
    out-link. *)
Lemma C2_counterexample_width_from_stranger :
  exists mappings,
    generateMappings Examples.bFaces Examples.fromStrangerCells = Some mappings
    /\ map (fun face => length (outList mappings (name face))) Examples.bFaces = [0]
    /\ getMaxLinks mappings = 1
    /\ tableRows Examples.bFaces mappings (getMaxLinks mappings) = [["INVALID_FACE"]].
Proof.
  exists {[ "x" := ["B"] ]}. split; [by vm_compute|]. by vm_compute.
Qed.

(** C5 (amended). In [mapping.ts], for the mapping the compiler makes of
    a graph and faces none of which has a name that an object inherits, the
    row of a face is its out-list, sorted ascending in the order of the
    code units, followed by the padding; the table text is made of these
    rows. *)
Theorem C5_out_list_sorted_before_padding
    (faces : list Face) (cells : list Cell) (mappings : gmap string (list string))
    (face : Face) :
  generateMappings faces cells = Some mappings ->
  ownNames faces ->
  generateFileMappings faces mappings (getMaxLinks mappings)
  = Some (tableText faces (map (tableRow mappings (getMaxLinks mappings)) faces))
  /\ exists sorted,
       tableRow mappings (getMaxLinks mappings) face
       = sorted ++ replicate (getMaxLinks mappings - length sorted) INVALID_FACE
       /\ StronglySorted JS.le sorted
       /\ sorted ≡ₚ outList mappings (name face).
Proof.
  intros _ Hown. split; [by apply generateFileMappings_text|].
  exists (JS.sort (outList mappings (name face))).
  split; [|split].
  - by rewrite tableRow_outList, sort_length.
  - apply sort_StronglySorted.
  - apply sort_Permutation.
Qed.

Lemma C5_out_list_sorted_before_padding_witness :
  generateFileMappings Examples.abcFaces {[ "a" := ["C"; "B"] ]}
    (getMaxLinks {[ "a" := ["C"; "B"] ]})
  = Some (tableText Examples.abcFaces
            (map (tableRow {[ "a" := ["C"; "B"] ]} (getMaxLinks {[ "a" := ["C"; "B"] ]}))
                 Examples.abcFaces))
  /\ exists sorted,
       tableRow {[ "a" := ["C"; "B"] ]} (getMaxLinks {[ "a" := ["C"; "B"] ]})
         (Examples.storeFace "a")
       = sorted ++ replicate (getMaxLinks {[ "a" := ["C"; "B"] ]} - length sorted)
                     INVALID_FACE
       /\ StronglySorted JS.le sorted
       /\ sorted ≡ₚ outList {[ "a" := ["C"; "B"] ]} (name (Examples.storeFace "a")).
Proof.
  exact (C5_out_list_sorted_before_padding Examples.abcFaces Examples.abcCells
           {[ "a" := ["C"; "B"] ]} (Examples.storeFace "a")
           generateMappings_abcCells ownNames_abcFaces).
Defined.

Lemma findTarget_None faces to :
  (forall t, to = Some t -> ~ isFaceName faces t) -> findTarget faces to = None.
Proof.
  intros H. destruct to as [t|]; [|reflexivity]. simpl.
  destruct (find _ faces) as [face|] eqn:E; [|reflexivity].
  apply find_some in E as [Hin Heq]. apply String.eqb_eq in Heq.
  exfalso. apply (H t eq_refl). exists face. by rewrite <- list_elem_of_In in Hin.
Qed.


(** A link adds a token to the out-list of its source only: [mapping.ts]
    has no second direction. *)
Lemma mapping_contribution_source_only faces cells key link token :
  token ∈ contribution faces cells key link ->
  exists from, getElementNameById cells (source_id link) = Some from
               /\ JS.propertyKey from = key.
Proof.
  unfold contribution, edgeOf. intros H.
  destruct (getElementNameById cells (source_id link)) as [from|];
    [|by apply not_elem_of_nil in H].
  destruct (getElementNameById cells (target_id link)) as [to|];
    [|by apply not_elem_of_nil in H].
  cbv zeta in H. destruct (JS.truthy _); [|by apply not_elem_of_nil in H].
  destruct (String.eqb_spec (JS.propertyKey from) key) as [<-|];
    [|by apply not_elem_of_nil in H].
  by exists from.
Qed.

(** A link whose target has no face adds nothing. *)
Lemma edgeOf_dropped faces cells link :
  targetHasNoFace faces cells link -> edgeOf faces cells link = None.
Proof.
  intros (to & Ht & Hno). unfold edgeOf. rewrite Ht.
  destruct (getElementNameById cells (source_id link)); [|reflexivity].
  by rewrite (findTarget_None faces to Hno).
Qed.

(** A link whose target resolves to a cell that has no face is dropped:
    visiting it leaves the mapping as it is, and it adds no token. *)
Lemma visitLink_dropped faces cells mappings link :
  targetHasNoFace faces cells link ->
  is_Some (getElementNameById cells (source_id link)) ->
  visitLink faces cells mappings link = Some mappings
  /\ forall key, contribution faces cells key link = [].
Proof.
  intros Hno [from Hf]. split.
  - destruct Hno as (to & Ht & Hno). unfold visitLink. rewrite Hf, Ht.
    by rewrite (findTarget_None faces to Hno).
  - intros key. unfold contribution. by rewrite edgeOf_dropped.
Qed.

(** C8. A link one of whose ends is not the identifier of a cell makes
    the compiler throw: [getElementNameById] reads [.name] of the
    [undefined] that [find] returns.  No mapping is made and no file. *)
Theorem C8_unresolved_link_throws (faces : list Face) (cells : list Cell) (link : Cell) :
  link ∈ linksOf cells ->
  ~ endsResolve cells link ->
  generateMappings faces cells = None /\ generateConfigFile faces cells = None.
Proof.
  intros Hin Hends.
  assert (Hnone : generateMappings faces cells = None).
  { destruct (generateMappings faces cells) as [mappings|] eqn:E; [|reflexivity].
    exfalso. apply Hends.
    assert (Hall : Forall (visitable faces cells) (linksOf cells)).
    { apply generateMappings_is_Some. by rewrite E. }
    rewrite Forall_forall in Hall. by destruct (Hall link Hin). }
  split; [exact Hnone|]. unfold generateConfigFile. by rewrite Hnone.
Qed.

Lemma C8_unresolved_link_throws_witness :
  generateMappings Examples.aFaces Examples.danglingCells = None
  /\ generateConfigFile Examples.aFaces Examples.danglingCells = None.
Proof.
  apply (C8_unresolved_link_throws Examples.aFaces Examples.danglingCells
           (Examples.link "3" "1" "9")).
  - change (linksOf Examples.danglingCells) with [Examples.link "3" "1" "9"].
    apply list_elem_of_here.
  - intros [_ [to Hto]]. vm_compute in Hto. discriminate.
Defined.

(** *** The round trip *)










End MappingCompiler.

(** ** Links marked bidirectional, in the two compilers *)

Section Bidirectional.




End Bidirectional.

(** ** The bitmap packer *)

Section Packer.

Import Mapping.

(** The loop of [generateBinaryStrings] ends by its own test within
    [length red - i] steps: more fuel changes nothing. *)
Lemma binaryStringsFrom_fuel red : forall fuel i acc,
  length red - i <= fuel ->
  binaryStringsFrom (S fuel) i red acc = binaryStringsFrom fuel i red acc.
Proof.
  induction fuel as [|fuel IH]; intros i acc Hle.
  - simpl. destruct (Nat.ltb_spec i (length red)); [lia|reflexivity].
  - change (binaryStringsFrom (S (S fuel)) i red acc)
      with (if (i <? length red)%nat
            then binaryStringsFrom (S fuel) (i + 8) red
                   (acc ++ ["0b" +:+ JS.join "" (pretty <$> slice i (i + 8) red)])
            else acc).
    change (binaryStringsFrom (S fuel) i red acc)
      with (if (i <? length red)%nat
            then binaryStringsFrom fuel (i + 8) red
                   (acc ++ ["0b" +:+ JS.join "" (pretty <$> slice i (i + 8) red)])
            else acc).
    destruct (Nat.ltb_spec i (length red)); [|reflexivity].
    apply IH. lia.
Qed.

Lemma binaryStringsFrom_more_fuel red fuel extra i acc :
  length red - i <= fuel ->
  binaryStringsFrom (fuel + extra) i red acc = binaryStringsFrom fuel i red acc.
Proof.
  intros Hle. induction extra as [|extra IH]; [by rewrite Nat.add_0_r|].
  rewrite Nat.add_succ_r, binaryStringsFrom_fuel by lia. exact IH.
Qed.

(** The bit of a sample is 1 exactly when the sample is 0. *)
Lemma redChannelData_bit pixelData bit :
  bit ∈ redChannelData pixelData ->
  exists val, val ∈ pixelData /\ bit = (if Z.eqb val 0 then 1 else 0)%Z.
Proof.
  unfold redChannelData. intros H.
  apply list_elem_of_fmap in H as (val & -> & Hval).
  apply list_elem_of_omap in Hval as (i & _ & Hi).
  exists val. split; [|reflexivity]. apply list_elem_of_lookup. by exists (i * 4).
Qed.

Lemma imageData_lookup_red pixels : forall i,
  imageData pixels !! (i * 4) = red <$> pixels !! i.
Proof.
  unfold imageData. induction pixels as [|pixel pixels IH]; intros [|i]; try reflexivity.
  apply (IH i).
Qed.

Lemma imageData_length pixels : length (imageData pixels) = 4 * length pixels.
Proof.
  unfold imageData. induction pixels as [|pixel pixels IH]; [reflexivity|].
  cbn [map concat]. rewrite length_app, IH. simpl. lia.
Qed.

Lemma omap_lookup_seq {A} (l : list A) : forall m s,
  omap (fun i => l !! i) (seq s m) = take m (drop s l).
Proof.
  induction m as [|m IH]; intros s; [reflexivity|].
  cbn [seq omap list_omap]. rewrite IH.
  destruct (l !! s) as [x|] eqn:E.
  - by rewrite (drop_S l x s E).
  - apply lookup_ge_None in E.
    by rewrite (drop_ge l s), (drop_ge l (S s)), take_nil by lia.
Qed.

(** The bits of an image: one for each pixel, 1 exactly when the red sample
    of the pixel is 0. *)
Lemma redChannelData_imageData pixels :
  redChannelData (imageData pixels)
  = map (fun pixel => if Z.eqb (red pixel) 0 then 1%Z else 0%Z) pixels.
Proof.
  unfold redChannelData.
  rewrite (list_omap_ext _ (fun i => (red <$> pixels) !! i) _ (seq 0 (length (imageData pixels)))).
  - rewrite omap_lookup_seq, drop_0, take_ge.
    + by rewrite <- list_fmap_compose.
    + rewrite length_fmap, imageData_length. lia.
  - apply Forall2_same_length_lookup. split; [reflexivity|].
    intros i x y Hx Hy. rewrite Hx in Hy. injection Hy as <-.
    by rewrite imageData_lookup_red, list_lookup_fmap.
Qed.

(** Every sample that is neither 0 nor 255 is read apart by the two
    thresholds: set for the editor, not set for the packer. *)
Lemma thresholds_differ_between_0_and_255 (r g b a : Z) :
  (0 < r < 255)%Z ->
  redChannelData (imageData [(r, g, b, a)]) = [0%Z]
  /\ Editor.generateDataFromImg (fun _ _ => Some r)
     = replicate Editor.IMAGE_WIDTH (replicate Editor.IMAGE_HEIGHT 1%Z).
Proof.
  intros Hr. split.
  - rewrite redChannelData_imageData. simpl. unfold red. simpl.
    destruct (Z.eqb_spec r 0); [lia|reflexivity].
  - unfold Editor.generateDataFromImg, Editor.threshold.
    destruct (Z.ltb_spec r 255); [reflexivity|lia].
Qed.

(** An all-white image packs to 64 literals without a set bit, an
    all-black image to 64 literals with every bit set. *)
Lemma generateBinaryStrings_white :
  generateBinaryStrings Examples.white = replicate 64 "0b00000000".
Proof. by vm_compute. Qed.

Lemma generateBinaryStrings_black :
  generateBinaryStrings Examples.black = replicate 64 "0b11111111".
Proof. by vm_compute. Qed.

(** C4, at the failing input.  A pixel whose red sample is 128 is below
    full brightness: the editor reads it as set (1), the packer writes the
    bit 0 for it.  The packer sets a bit for the sample 0 only. *)
Theorem C4_gray_pixel_packed_as_unset :
  generateBinaryStrings Examples.gray = replicate 64 "0b00000000"
  /\ Editor.threshold (Some 128%Z) = 1%Z
  /\ Editor.generateDataFromImg (fun _ _ => Some 128%Z)
     = replicate Editor.IMAGE_WIDTH (replicate Editor.IMAGE_HEIGHT 1%Z)
  /\ redChannelData [128; 128; 128; 255]%Z = [0%Z]
  /\ redChannelData [0; 0; 0; 255]%Z = [1%Z].
Proof. repeat split; by vm_compute. Qed.

Section Browser.

Variables (HTMLImageElement Canvas : Type).
Variable decode : string -> option HTMLImageElement.
Variable newCanvas : option Canvas.
Variable drawImage : Canvas -> HTMLImageElement -> Canvas.
Variable getImageData : Canvas -> list Z.

Let packLayers := packLayers HTMLImageElement Canvas decode drawImage getImageData.
Let packFaces := packFaces HTMLImageElement Canvas decode drawImage getImageData.

Lemma packLayers_rejects face : forall ctx faceData src,
  src ∈ face -> decode src = None ->
  exists message, packLayers ctx face faceData = Rejected message
                  /\ namesFailure HTMLImageElement decode face message.
Proof.
  induction face as [|src' rest IH]; intros ctx faceData src Hin Hdec.
  - by apply not_elem_of_nil in Hin.
  - unfold packLayers in *. cbn [Mapping.packLayers]. unfold loadImage.
    destruct (decode src') as [img|] eqn:E.
    + apply elem_of_cons in Hin as [->|Hin]; [congruence|].
      destruct (IH (drawImage ctx img)
                   (faceData ++ ["{" +:+ JS.join ", "
                      (generateBinaryStrings (getImageData (drawImage ctx img))) +:+ "}"])
                   src Hin Hdec) as (message & Hm & src0 & Hin0 & Hd0 & Hmsg).
      exists message. split; [exact Hm|].
      exists src0. split; [by apply list_elem_of_further|done].
    + eexists. split; [reflexivity|]. exists src'.
      split; [apply list_elem_of_here|done].
Qed.

Lemma packLayers_names_failure face : forall ctx faceData message,
  packLayers ctx face faceData = Rejected message ->
  namesFailure HTMLImageElement decode face message.
Proof.
  induction face as [|src rest IH]; intros ctx faceData message H.
  - discriminate.
  - unfold packLayers in *. cbn [Mapping.packLayers] in H. unfold loadImage in H.
    destruct (decode src) as [img|] eqn:E.
    + destruct (IH _ _ _ H) as (src0 & Hin0 & Hd0 & Hmsg).
      exists src0. split; [by apply list_elem_of_further|done].
    + injection H as <-. exists src. split; [apply list_elem_of_here|done].
Qed.

Lemma packLayers_resolves face : forall ctx faceData,
  Forall (fun src => is_Some (decode src)) face ->
  exists result, packLayers ctx face faceData = Resolved result.
Proof.
  induction face as [|src rest IH]; intros ctx faceData Hall.
  - by eexists.
  - apply Forall_cons in Hall as [[img Himg] Hrest].
    unfold packLayers in *. cbn [Mapping.packLayers]. unfold loadImage.
    rewrite Himg. apply IH, Hrest.
Qed.

Lemma packFaces_rejects faces faceKeys : forall ctx outputData key src,
  key ∈ faceKeys -> src ∈ imagesOf faces key -> decode src = None ->
  exists message,
    packFaces faces ctx faceKeys outputData = Rejected message
    /\ namesFailure HTMLImageElement decode
         (concat (map (imagesOf faces) faceKeys)) message.
Proof.
  induction faceKeys as [|key' rest IH]; intros ctx outputData key src Hkey Hin Hdec.
  - by apply not_elem_of_nil in Hkey.
  - unfold packFaces in *. cbn [Mapping.packFaces].
    destruct (Mapping.packLayers _ _ decode drawImage getImageData ctx
                (imagesOf faces key') []) as [[ctx' faceData]|message] eqn:E.
    + apply elem_of_cons in Hkey as [->|Hkey].
      * destruct (packLayers_rejects (imagesOf faces key') ctx [] src Hin Hdec)
          as (message & Hm & _).
        unfold packLayers in Hm. congruence.
      * destruct (IH ctx' (outputData ++
                    [JS.join JS.newline
                       ["  {";
                        JS.join ("," +:+ JS.newline)
                          (map (fun item => "    " +:+ item) faceData);
                        "  }"]])
                    key src Hkey Hin Hdec)
          as (message & Hm & src0 & Hin0 & Hd0 & Hmsg).
        exists message. split; [exact Hm|]. exists src0.
        split; [|done]. simpl. apply elem_of_app. by right.
    + exists message. split; [reflexivity|].
      destruct (packLayers_names_failure (imagesOf faces key') ctx [] message E)
        as (src1 & Hin1 & Hd1 & Hmsg).
      exists src1. split; [|done]. simpl. apply elem_of_app. by left.
Qed.

Lemma packFaces_resolves faces faceKeys : forall ctx outputData,
  Forall (fun src => is_Some (decode src)) (concat (map (imagesOf faces) faceKeys)) ->
  exists result, packFaces faces ctx faceKeys outputData = Resolved result.
Proof.
  induction faceKeys as [|key rest IH]; intros ctx outputData Hall; [by eexists|].
  simpl in Hall. apply Forall_app in Hall as [Hkey Hrest].
  unfold packFaces in *. cbn [Mapping.packFaces].
  destruct (packLayers_resolves (imagesOf faces key) ctx [] Hkey) as [[ctx' faceData] Hr].
  unfold packLayers in Hr. rewrite Hr. apply IH, Hrest.
Qed.

(** When there is a canvas context and every source decodes, the promise
    is resolved with the text. *)
Lemma generateArduinoFaces_resolves (faces : list Face) (ctx : Canvas) :
  newCanvas = Some ctx ->
  Forall (fun src => is_Some (decode src)) (packedSources faces) ->
  exists text,
    generateArduinoFaces HTMLImageElement Canvas decode newCanvas drawImage getImageData
      faces = Resolved text.
Proof.
  intros Hctx Hall. unfold generateArduinoFaces. rewrite Hctx.
  destruct (packFaces_resolves faces (JS.sort (map name faces)) ctx [] Hall) as [r Hr].
  unfold packFaces in Hr. rewrite Hr. by eexists.
Qed.

(** C7. If a source that [generateArduinoFaces] loads does not decode,
    the promise it returns is rejected: there is no output text, and the
    message names a source that did not decode (or is empty, when there
    is no canvas context). *)
Theorem C7_failed_image_rejects (faces : list Face) (src : string) :
  src ∈ packedSources faces ->
  decode src = None ->
  exists message,
    generateArduinoFaces HTMLImageElement Canvas decode newCanvas drawImage getImageData
      faces = Rejected message
    /\ (newCanvas = None
        \/ namesFailure HTMLImageElement decode (packedSources faces) message).
Proof.
  intros Hin Hdec. unfold generateArduinoFaces.
  destruct newCanvas as [ctx|]; [|exists ""; split; [reflexivity|by left]].
  unfold packedSources in Hin.
  apply list_elem_of_In, in_concat in Hin as (l & Hl & Hsrc).
  apply in_map_iff in Hl as (key & <- & Hkey).
  destruct (packFaces_rejects faces (JS.sort (map name faces)) ctx [] key src)
    as (message & Hm & Hname); [by apply list_elem_of_In|by apply list_elem_of_In|done|].
  unfold packFaces in Hm. rewrite Hm. exists message. split; [reflexivity|by right].
Qed.

End Browser.

Lemma C7_failed_image_rejects_witness :
  exists message,
    generateArduinoFaces (list Z) (list Z) Examples.decodeOk (Some [])
      Examples.drawOver Examples.readBack Examples.brokenFaces = Rejected message
    /\ (Some ([] : list Z) = None
        \/ namesFailure (list Z) Examples.decodeOk
             (packedSources Examples.brokenFaces) message).
Proof.
  apply (C7_failed_image_rejects (list Z) (list Z) Examples.decodeOk (Some [])
           Examples.drawOver Examples.readBack Examples.brokenFaces "broken.png").
  - change (packedSources Examples.brokenFaces) with ["ok.png"; "broken.png"].
    elem_of_list.
  - reflexivity.
Defined.

End Packer.

(** ** The export button of [mapper.js] *)

Section ExportButton.

Import Mapper.

(** C9, at the failing input.  With a face list of length zero,
    [onClickExport] shows no warning and downloads a file, while the guard
    of [onChangeImport] refuses the same face list. *)
Theorem C9_empty_face_list_is_exported :
  onClickExport (Some []) Examples.emptyDiagram
  = Download "facesConfig.h"
      ("#define NUMBER_FACES 0" +:+ JS.newline
       +:+ "#define INVALID_FACE -1" +:+ JS.newline
       +:+ JS.newline
       +:+ "const int8_t nextFaces[][0] = {" +:+ JS.newline
       +:+ "};" +:+ JS.newline)
  /\ importRefused (Some []) = true
  /\ onClickExport None Examples.emptyDiagram = Alert "No faces to export".
Proof. repeat split; by vm_compute. Qed.

End ExportButton.

(** * Further properties *)

(** ** The table of [mapper.js] *)

Section MapperTable.

Import GoDiagram Mapper.

Lemma mapper_getMaxLinks_spec (mappings : gmap nat (list string)) :
  (forall k l, mappings !! k = Some l -> length l <= getMaxLinks mappings)
  /\ (getMaxLinks mappings = 0
      \/ exists k l, mappings !! k = Some l /\ length l = getMaxLinks mappings).
Proof.
  unfold getMaxLinks.
  apply (map_fold_weak_ind
           (fun r (m : gmap nat (list string)) =>
              (forall k l, m !! k = Some l -> length l <= r)
              /\ (r = 0 \/ exists k l, m !! k = Some l /\ length l = r))).
  - split; [|by left]. intros k l H. by rewrite lookup_empty in H.
  - intros i x m r Hi [Hle Hatt]. split.
    + intros k l Hk. destruct (decide (i = k)) as [->|Hne].
      * rewrite lookup_insert_eq in Hk. injection Hk as ->. lia.
      * rewrite lookup_insert_ne in Hk by done. specialize (Hle k l Hk). lia.
    + right. destruct (Nat.max_spec r (length x)) as [[Hlt ->]|[Hge ->]].
      * exists i, x. by rewrite lookup_insert_eq.
      * destruct Hatt as [->|(k & l & Hk & Hl)].
        -- exists i, x. rewrite lookup_insert_eq. split; [done|lia].
        -- exists k, l. rewrite lookup_insert_ne; [done|]. intros ->. congruence.
Qed.

Lemma mapper_emitFace_spec mappings max count st text index face :
  (forall k, index <= k -> st !! k = (padded max <$> mappings) !! k) ->
  (forall k, S index <= k ->
     (emitFace max count (st, text) index face).1 !! k = (padded max <$> mappings) !! k)
  /\ (emitFace max count (st, text) index face).2
     = text +:+ tableLine count index face (tableRow mappings max index).
Proof.
  intros Hinv. unfold emitFace. cbn [fst snd].
  assert (Hi := Hinv index (le_n _)). rewrite lookup_fmap in Hi.
  destruct (st !! index) as [row|] eqn:E.
  - split; [intros k Hk; apply Hinv; lia|]. rewrite E. simpl.
    unfold tableRow. destruct (mappings !! index); simpl in Hi; [|discriminate].
    by injection Hi as ->.
  - split.
    + intros k Hk. rewrite lookup_insert_ne by lia. apply Hinv. lia.
    + rewrite lookup_insert_eq. simpl. unfold tableRow.
      destruct (mappings !! index); simpl in Hi; [discriminate|reflexivity].
Qed.

Lemma mapper_forEachFace_spec mappings max count faces : forall st text index,
  (forall k, index <= k -> st !! k = (padded max <$> mappings) !! k) ->
  (forEachFace max count (st, text) index faces).2
  = text +:+ tableLines count index faces
               (map (tableRow mappings max) (seq index (length faces))).
Proof.
  induction faces as [|face faces IH]; intros st text index Hinv.
  - simpl. by rewrite append_empty_r.
  - cbn [forEachFace].
    destruct (mapper_emitFace_spec mappings max count st text index face Hinv)
      as [Hinv' Htext].
    destruct (emitFace max count (st, text) index face) as [st' text'].
    cbn [fst snd] in Hinv', Htext. rewrite (IH st' text' (S index) Hinv'), Htext.
    cbn [length seq map tableLines]. by rewrite append_assoc.
Qed.

(** X1. The table of [mapper.js]: the text is made of one line for each
    face, in the order of the faces; the row of the face at index [i] is its
    out-list, in the order in which the tokens were added, padded on the
    right with [INVALID_FACE] to [getMaxLinks] tokens, which is the greatest
    length of an out-list of the mapping. *)
Theorem X1_mapper_table_shape (facesArray : list Face) (mappings : gmap nat (list string)) :
  generateFileMappings facesArray mappings (getMaxLinks mappings)
  = tableText facesArray (tableRows facesArray mappings (getMaxLinks mappings))
  /\ length (tableRows facesArray mappings (getMaxLinks mappings)) = length facesArray
  /\ (forall i, i < length facesArray ->
        tableRows facesArray mappings (getMaxLinks mappings) !! i
        = Some (outList mappings i
                ++ replicate (getMaxLinks mappings - length (outList mappings i))
                     INVALID_FACE))
  /\ (forall row, row ∈ tableRows facesArray mappings (getMaxLinks mappings) ->
        length row = getMaxLinks mappings)
  /\ (forall k l, mappings !! k = Some l -> length l <= getMaxLinks mappings)
  /\ (getMaxLinks mappings = 0
      \/ exists k l, mappings !! k = Some l /\ length l = getMaxLinks mappings).
Proof.
  destruct (mapper_getMaxLinks_spec mappings) as [Hle Hatt].
  assert (Hrow : forall i, tableRow mappings (getMaxLinks mappings) i
                 = outList mappings i
                   ++ replicate (getMaxLinks mappings - length (outList mappings i))
                        INVALID_FACE).
  { intros i. unfold tableRow, outList, padded, JS.fill.
    destruct (mappings !! i); simpl; [reflexivity|]. by rewrite Nat.sub_0_r. }
  split.
  { unfold generateFileMappings, tableText, tableRows.
    by rewrite (mapper_forEachFace_spec mappings (getMaxLinks mappings)). }
  split; [unfold tableRows; by rewrite length_map, length_seq|].
  split.
  { intros i Hi. unfold tableRows.
    change (map (tableRow mappings (getMaxLinks mappings)) (seq 0 (length facesArray)))
      with (tableRow mappings (getMaxLinks mappings) <$> seq 0 (length facesArray)).
    rewrite list_lookup_fmap, lookup_seq_lt by done. simpl. f_equal. apply Hrow. }
  split; [|split; [exact Hle|exact Hatt]].
  intros row Hin. apply list_elem_of_In, in_map_iff in Hin as (i & <- & _).
  rewrite Hrow, length_app, length_replicate.
  assert (length (outList mappings i) <= getMaxLinks mappings); [|lia].
  unfold outList. destruct (mappings !! i) as [l|] eqn:E; simpl; [by apply Hle in E|lia].
Qed.

Lemma visitLink_ends facesArray m item :
  is_Some (visitLink facesArray m item) -> endsAreFaces facesArray item.
Proof.
  unfold visitLink, endsAreFaces, addMapping. intros [m' H].
  destruct (facesArray !! to item) as [t|] eqn:Et; [|discriminate].
  split; [by apply lookup_lt_Some in Et|].
  intros Hbi. rewrite Hbi in H.
  destruct (facesArray !! from item) as [f|] eqn:Ef; [|discriminate].
  by apply lookup_lt_Some in Ef.
Qed.

Lemma visitLinks_ends facesArray items : forall m,
  is_Some (visitLinks facesArray m items) -> Forall (endsAreFaces facesArray) items.
Proof.
  induction items as [|item items IH]; intros m H; [constructor|].
  simpl in H. destruct (visitLink facesArray m item) as [m1|] eqn:E1.
  - constructor; [apply (visitLink_ends facesArray m); by rewrite E1|by apply (IH m1)].
  - by destruct H.
Qed.

(** X2. With a face list, the export downloads [facesConfig.h] exactly
    when the ends of every visited link are indices of faces, as far as they
    are read (the target, and the source of a link marked bidirectional).
    Otherwise the compiler throws and nothing is downloaded. *)
Theorem X2_export_downloads_iff_ends_are_faces (facesArray : list Face) (diagram : Diagram) :
  ((exists text, onClickExport (Some facesArray) diagram = Download "facesConfig.h" text)
   <-> Forall (endsAreFaces facesArray) (visited diagram))
  /\ (~ Forall (endsAreFaces facesArray) (visited diagram) ->
      generateMappings facesArray diagram = None
      /\ onClickExport (Some facesArray) diagram = Thrown).
Proof.
  assert (Hthrow : ~ Forall (endsAreFaces facesArray) (visited diagram) ->
                   generateMappings facesArray diagram = None).
  { intros Hn. destruct (generateMappings facesArray diagram) as [m|] eqn:E; [|done].
    exfalso. apply Hn. apply (visitLinks_ends facesArray _ ∅).
    unfold generateMappings in E. by rewrite E. }
  split; [split|].
  - intros [text H]. unfold onClickExport, generateConfigFile in H.
    destruct (generateMappings facesArray diagram) as [m|] eqn:E; [|discriminate].
    apply (visitLinks_ends facesArray _ ∅). unfold generateMappings in E. by rewrite E.
  - intros Hall. destruct (visitLinks_total facesArray (visited diagram) ∅ Hall) as [m Hm].
    unfold onClickExport, generateConfigFile, generateMappings. rewrite Hm. by eexists.
  - intros Hn. split; [by apply Hthrow|].
    unfold onClickExport, generateConfigFile. by rewrite (Hthrow Hn).
Qed.

End MapperTable.

(** ** The literals of the bitmap packer *)

Section PackerLiterals.

Import Mapping.

Lemma chunk_count_step len i :
  i < len -> (len - i + 7) / 8 = S ((len - (i + 8) + 7) / 8).
Proof.
  intros Hi. destruct (le_lt_dec 8 (len - i)) as [Hge|Hlt].
  - replace (len - i + 7) with ((len - (i + 8) + 7) + 1 * 8) by lia.
    rewrite Nat.div_add by lia. lia.
  - replace (len - (i + 8)) with 0 by lia. simpl.
    symmetry. apply (Nat.div_unique _ 8 1 (len - i - 1)); lia.
Qed.

Lemma binaryStringsFrom_spec bits : forall fuel i acc,
  length bits - i <= fuel ->
  binaryStringsFrom fuel i bits acc
  = acc ++ map (fun j => literal (slice (i + j * 8) (i + j * 8 + 8) bits))
               (seq 0 ((length bits - i + 7) / 8)).
Proof.
  induction fuel as [|fuel IH]; intros i acc Hfuel.
  - replace (length bits - i) with 0 by lia. simpl. by rewrite app_nil_r.
  - cbn [binaryStringsFrom]. destruct (Nat.ltb_spec i (length bits)) as [Hlt|Hge].
    + rewrite IH by lia. rewrite (chunk_count_step _ _ Hlt), <- app_assoc. f_equal.
      cbn [seq map]. rewrite Nat.add_0_r. f_equal.
      rewrite <- fmap_S_seq.
      change (map ?f (S <$> ?l)) with (f <$> (S <$> l)).
      rewrite <- list_fmap_compose. apply list_fmap_ext. intros _ j _. simpl.
      by replace (i + 8 + j * 8) with (i + S j * 8) by lia.
    + replace (length bits - i) with 0 by lia. simpl. by rewrite app_nil_r.
Qed.

Lemma literal_of_pixels (pixels : list (Z * Z * Z * Z)) :
  literal ((fun pixel => if Z.eqb (red pixel) 0 then 1%Z else 0%Z) <$> pixels)
  = "0b" +:+ JS.join "" (map digit pixels).
Proof.
  unfold literal. f_equal. f_equal.
  change (map digit pixels) with (digit <$> pixels).
  rewrite <- list_fmap_compose. apply list_fmap_ext. intros _ pixel _.
  unfold digit. simpl. by destruct (Z.eqb (red pixel) 0).
Qed.

(** X3. The packer writes one literal for every 8 pixels, the last one for
    the pixels that are left: the literal at index [j] is [0b] followed by
    one binary digit for each of the pixels [8j .. 8j+7] in row-major order,
    [1] exactly for a pixel whose red sample is 0.  A last chunk of fewer
    than 8 pixels gives a shorter literal; it is not padded. *)
Theorem X3_one_literal_per_eight_pixels (pixels : list (Z * Z * Z * Z)) :
  length (generateBinaryStrings (imageData pixels)) = (length pixels + 7) / 8
  /\ (forall j, j * 8 < length pixels ->
        generateBinaryStrings (imageData pixels) !! j
        = Some ("0b" +:+ JS.join "" (map digit (take 8 (drop (j * 8) pixels)))))
  /\ (forall j, length pixels <= j * 8 ->
        generateBinaryStrings (imageData pixels) !! j = None).
Proof.
  unfold generateBinaryStrings. cbv zeta.
  rewrite binaryStringsFrom_spec by lia. rewrite redChannelData_imageData.
  cbn [app].
  set (bits := map (fun pixel => if Z.eqb (red pixel) 0 then 1%Z else 0%Z) pixels).
  assert (Hlen : length bits = length pixels) by apply length_map.
  rewrite Hlen, Nat.sub_0_r.
  assert (Hcount : forall j, j * 8 < length pixels <-> j < (length pixels + 7) / 8).
  { intros j.
    assert (H8 := Nat.div_mod_eq (length pixels + 7) 8).
    assert (Hm : (length pixels + 7) mod 8 < 8) by (apply Nat.mod_upper_bound; lia).
    lia. }
  split; [by rewrite length_map, length_seq|]. split.
  - intros j Hj.
    change (map ?f (seq ?a ?b)) with (f <$> seq a b).
    rewrite list_lookup_fmap, lookup_seq_lt by (by apply Hcount). simpl.
    f_equal. unfold slice, bits. replace (j * 8 + 8 - j * 8) with 8 by lia.
    change (map ?f pixels) with (f <$> pixels).
    rewrite <- fmap_drop, <- fmap_take. apply literal_of_pixels.
  - intros j Hj. apply lookup_ge_None. rewrite length_map, length_seq.
    destruct (le_lt_dec ((length pixels + 7) / 8) j) as [|Hlt]; [done|].
    apply Hcount in Hlt. lia.
Qed.

End PackerLiterals.

(** ** The order of the bitmap table *)

Section PackerOrder.

Import Mapping.

(** Sorting gives the same array for every order of the same strings. *)
Lemma sort_unique l1 l2 : l1 ≡ₚ l2 -> JS.sort l1 = JS.sort l2.
Proof.
  intros Hp. apply (StronglySorted_unique_strong JS.le).
  - intros x1 x2 _ _. apply le_antisym.
  - apply sort_StronglySorted.
  - apply sort_StronglySorted.
  - by rewrite !sort_Permutation.
Qed.


(** With distinct names, the layers found for the name of a face are the
    layers of that face. *)
Lemma imagesOf_face faces face :
  NoDup (map name faces) -> face ∈ faces -> imagesOf faces (name face) = images face.
Proof.
  unfold imagesOf. induction faces as [|f faces IH]; intros Hnd Hin.
  - by apply not_elem_of_nil in Hin.
  - simpl in Hnd. apply NoDup_cons in Hnd as [Hf Hnd]. simpl.
    destruct (String.eqb_spec (name f) (name face)) as [Heq|Hne].
    + apply elem_of_cons in Hin as [->|Hin]; [reflexivity|].
      exfalso. apply Hf. rewrite Heq. apply list_elem_of_In, in_map.
      by apply list_elem_of_In.
    + apply elem_of_cons in Hin as [->|Hin]; [done|]. by apply IH.
Qed.

Lemma imagesOf_no_face faces key :
  (forall face, face ∈ faces -> name face <> key) -> imagesOf faces key = [].
Proof.
  intros Hno. unfold imagesOf.
  destruct (find _ faces) as [face|] eqn:E; [|reflexivity].
  apply find_some in E as [Hin Heq]. apply String.eqb_eq in Heq.
  exfalso. apply (Hno face); [by apply list_elem_of_In|done].
Qed.

Lemma imagesOf_Permutation faces faces' key :
  faces ≡ₚ faces' -> NoDup (map name faces) ->
  imagesOf faces key = imagesOf faces' key.
Proof.
  intros Hp Hnd.
  assert (Hnd' : NoDup (map name faces')).
  { change (map name faces') with (name <$> faces'). rewrite <- Hp. exact Hnd. }
  destruct (decide (Exists (fun face => name face = key) faces)) as [Hex|Hno].
  - apply Exists_exists in Hex as (face & Hin & <-).
    rewrite (imagesOf_face faces face Hnd Hin).
    rewrite Hp in Hin. by rewrite (imagesOf_face faces' face Hnd' Hin).
  - rewrite (imagesOf_no_face faces key), (imagesOf_no_face faces' key); [done| |].
    + intros face Hin Heq. apply Hno, Exists_exists. exists face.
      rewrite Hp. done.
    + intros face Hin Heq. apply Hno, Exists_exists. by exists face.
Qed.

Section Browser.

Variables (HTMLImageElement Canvas : Type).
Variable decode : string -> option HTMLImageElement.
Variable drawImage : Canvas -> HTMLImageElement -> Canvas.
Variable getImageData : Canvas -> list Z.

Lemma packFaces_ext faces faces' faceKeys : forall ctx outputData,
  (forall key, imagesOf faces key = imagesOf faces' key) ->
  packFaces HTMLImageElement Canvas decode drawImage getImageData
    faces ctx faceKeys outputData
  = packFaces HTMLImageElement Canvas decode drawImage getImageData
      faces' ctx faceKeys outputData.
Proof.
  induction faceKeys as [|key rest IH]; intros ctx outputData Hext; [reflexivity|].
  cbn [packFaces]. rewrite (Hext key).
  destruct (packLayers _ _ _ _ _ ctx (imagesOf faces' key) []) as [[ctx' faceData]|];
    [|reflexivity].
  by apply IH.
Qed.

(** X4. With a canvas context, the promise of [generateArduinoFaces] is
    rejected exactly when one of the sources it loads does not decode, and
    it is resolved with the text exactly when all of them decode. *)
Theorem X4_rejected_iff_a_source_fails (faces : list Face) (ctx : Canvas) :
  ((exists message,
      generateArduinoFaces HTMLImageElement Canvas decode (Some ctx) drawImage getImageData
        faces = Rejected message)
   <-> exists src, src ∈ packedSources faces /\ decode src = None)
  /\ ((exists text,
         generateArduinoFaces HTMLImageElement Canvas decode (Some ctx) drawImage
           getImageData faces = Resolved text)
      <-> Forall (fun src => is_Some (decode src)) (packedSources faces)).
Proof.
  assert (Hres : Forall (fun src => is_Some (decode src)) (packedSources faces) ->
                 exists text,
                   generateArduinoFaces HTMLImageElement Canvas decode (Some ctx) drawImage
                     getImageData faces = Resolved text).
  { intros Hall. by apply (generateArduinoFaces_resolves _ _ _ _ _ _ faces ctx). }
  assert (Hrej : (exists src, src ∈ packedSources faces /\ decode src = None) ->
                 exists message,
                   generateArduinoFaces HTMLImageElement Canvas decode (Some ctx) drawImage
                     getImageData faces = Rejected message).
  { intros (src & Hin & Hdec). unfold generateArduinoFaces. unfold packedSources in Hin.
    apply list_elem_of_In, in_concat in Hin as (l & Hl & Hsrc).
    apply in_map_iff in Hl as (key & <- & Hkey).
    destruct (packFaces_rejects _ _ decode drawImage getImageData faces
                (JS.sort (map name faces)) ctx [] key src)
      as (message & Hm & _); [by apply list_elem_of_In|by apply list_elem_of_In|done|].
    rewrite Hm. by exists message. }
  assert (Hdec : Forall (fun src => is_Some (decode src)) (packedSources faces)
                 \/ exists src, src ∈ packedSources faces /\ decode src = None).
  { destruct (decide (Forall (fun src => is_Some (decode src)) (packedSources faces)))
      as [Hall|Hn]; [by left|right].
    apply not_Forall_Exists in Hn; [|apply _].
    apply Exists_exists in Hn as (src & Hin & Hsrc). exists src. split; [done|].
    destruct (decode src) eqn:E; [|done]. exfalso. apply Hsrc. by eexists. }
  split; split.
  - intros [message Hm]. destruct Hdec as [Hall|Hex]; [|exact Hex].
    destruct (Hres Hall) as [text Ht]. congruence.
  - exact Hrej.
  - intros [text Ht]. destruct Hdec as [Hall|Hex]; [exact Hall|].
    destruct (Hrej Hex) as [message Hm]. congruence.
  - exact Hres.
Qed.

(** X5. The bitmap table does not depend on the order of the faces in the
    store: for faces with distinct names, every order of the same faces
    gives the same promise, since the faces are packed in the order of
    their sorted names. *)
Theorem X5_bitmap_table_ignores_store_order
    (newCanvas : option Canvas) (faces faces' : list Face) :
  faces ≡ₚ faces' ->
  NoDup (map name faces) ->
  generateArduinoFaces HTMLImageElement Canvas decode newCanvas drawImage getImageData faces
  = generateArduinoFaces HTMLImageElement Canvas decode newCanvas drawImage getImageData
      faces'.
Proof.
  intros Hp Hnd. unfold generateArduinoFaces.
  destruct newCanvas as [ctx|]; [|reflexivity].
  rewrite (sort_unique (map name faces) (map name faces')).
  - rewrite (packFaces_ext faces faces'); [reflexivity|].
    intros key. by apply imagesOf_Permutation.
  - change (map name faces) with (name <$> faces). by rewrite Hp.
Qed.

End Browser.

Lemma X5_bitmap_table_ignores_store_order_witness :
  generateArduinoFaces (list Z) (list Z) Examples.decodeOk (Some [])
    Examples.drawOver Examples.readBack Examples.facesAB
  = generateArduinoFaces (list Z) (list Z) Examples.decodeOk (Some [])
      Examples.drawOver Examples.readBack Examples.facesBA.
Proof.
  apply (X5_bitmap_table_ignores_store_order (list Z) (list Z) Examples.decodeOk
           Examples.drawOver Examples.readBack (Some []) Examples.facesAB Examples.facesBA).
  - apply Permutation_swap.
  - simpl. apply NoDup_cons. split; [by intros ?%list_elem_of_singleton|].
    apply NoDup_singleton.
Defined.



End PackerOrder.

(** ** The order of the cells of the graph *)

Section CellOrder.

Import Mapping.

Lemma find_cell_id cells cell :
  NoDup (map cell_id cells) -> cell ∈ cells ->
  find (fun c => String.eqb (cell_id c) (cell_id cell)) cells = Some cell.
Proof.
  induction cells as [|c cells IH]; intros Hnd Hin.
  - by apply not_elem_of_nil in Hin.
  - simpl in Hnd. apply NoDup_cons in Hnd as [Hc Hnd]. simpl.
    destruct (String.eqb_spec (cell_id c) (cell_id cell)) as [Heq|Hne].
    + apply elem_of_cons in Hin as [->|Hin]; [reflexivity|].
      exfalso. apply Hc. rewrite Heq. apply list_elem_of_In, in_map.
      by apply list_elem_of_In.
    + apply elem_of_cons in Hin as [->|Hin]; [done|]. by apply IH.
Qed.

Lemma getElementNameById_Permutation cells cells' id :
  cells ≡ₚ cells' -> NoDup (map cell_id cells) ->
  getElementNameById cells id = getElementNameById cells' id.
Proof.
  intros Hp Hnd. destruct id as [i|]; [|reflexivity]. simpl.
  assert (Hnd' : NoDup (map cell_id cells')).
  { change (map cell_id cells') with (cell_id <$> cells'). by rewrite <- Hp. }
  destruct (decide (Exists (fun c => cell_id c = i) cells)) as [Hex|Hno].
  - apply Exists_exists in Hex as (cell & Hin & <-).
    rewrite (find_cell_id cells cell Hnd Hin).
    rewrite Hp in Hin. by rewrite (find_cell_id cells' cell Hnd' Hin).
  - assert (Hnone : forall l, l ≡ₚ cells ->
                      find (fun c => String.eqb (cell_id c) i) l = None).
    { intros l Hl. destruct (find _ l) as [c|] eqn:E; [|reflexivity].
      apply find_some in E as [Hin Heq]. apply String.eqb_eq in Heq.
      exfalso. apply Hno, Exists_exists. exists c. split; [|done].
      rewrite <- Hl. by apply list_elem_of_In. }
    by rewrite (Hnone cells), (Hnone cells').
Qed.

Lemma visitLink_ext faces cells cells' mappings link :
  (forall id, getElementNameById cells id = getElementNameById cells' id) ->
  visitLink faces cells mappings link = visitLink faces cells' mappings link.
Proof. intros Hext. unfold visitLink. by rewrite !Hext. Qed.

Lemma forEachLink_ext faces cells cells' links : forall mappings,
  (forall id, getElementNameById cells id = getElementNameById cells' id) ->
  forEachLink faces cells mappings links = forEachLink faces cells' mappings links.
Proof.
  induction links as [|link links IH]; intros m Hext; [reflexivity|].
  simpl. rewrite (visitLink_ext faces cells cells' m link Hext).
  destruct (visitLink faces cells' m link); [by apply IH|reflexivity].
Qed.

Lemma concat_map_Permutation {A B} (f : A -> list B) l1 l2 :
  l1 ≡ₚ l2 -> concat (map f l1) ≡ₚ concat (map f l2).
Proof.
  induction 1 as [|x l1 l2 _ IH|x y l|l1 l2 l3 _ IH1 _ IH2]; simpl.
  - done.
  - by rewrite IH.
  - rewrite !app_assoc. f_equiv. apply Permutation_app_comm.
  - by rewrite IH1.
Qed.

Lemma getMaxLinks_outList mappings :
  (forall key, length (outList mappings key) <= getMaxLinks mappings)
  /\ (getMaxLinks mappings = 0
      \/ exists key, length (outList mappings key) = getMaxLinks mappings).
Proof.
  destruct (getMaxLinks_spec mappings) as [Hle Hatt]. split.
  - intros key. unfold outList. destruct (mappings !! key) as [l|] eqn:E; simpl.
    + by apply Hle in E.
    + lia.
  - destruct Hatt as [H0|(key & l & E & Hl)]; [by left|right].
    exists key. unfold outList. by rewrite E.
Qed.

(** The table depends on the out-lists as multisets only. *)
Lemma table_of_permuted_outLists faces m m' :
  (forall key, outList m key ≡ₚ outList m' key) ->
  getMaxLinks m = getMaxLinks m'
  /\ tableRows faces m (getMaxLinks m) = tableRows faces m' (getMaxLinks m').
Proof.
  intros Hp.
  assert (Hlen : forall key, length (outList m key) = length (outList m' key)).
  { intros key. by rewrite (Hp key). }
  assert (Hmax : getMaxLinks m = getMaxLinks m').
  { destruct (getMaxLinks_outList m) as [Hle Hatt].
    destruct (getMaxLinks_outList m') as [Hle' Hatt'].
    apply Nat.le_antisymm.
    - destruct Hatt as [->|(key & <-)]; [lia|]. rewrite Hlen. apply Hle'.
    - destruct Hatt' as [->|(key & <-)]; [lia|]. rewrite <- Hlen. apply Hle. }
  split; [exact Hmax|]. unfold tableRows. rewrite <- Hmax.
  apply map_ext. intros face. rewrite !tableRow_outList, Hlen.
  f_equal. apply sort_unique, Hp.
Qed.

(** X7. The configuration file of [mapping.ts] does not depend on the
    order of the cells of the graph, so not on the order in which the links
    were drawn: for cells with distinct identifiers, every order of the same
    cells gives the same file, or the same failure. *)
Theorem X7_config_file_ignores_cell_order (faces : list Face) (cells cells' : list Cell) :
  cells ≡ₚ cells' ->
  NoDup (map cell_id cells) ->
  generateConfigFile faces cells = generateConfigFile faces cells'.
Proof.
  intros Hp Hnd.
  assert (Hext : forall id, getElementNameById cells id = getElementNameById cells' id).
  { intros id. by apply getElementNameById_Permutation. }
  assert (Hlinks : linksOf cells ≡ₚ linksOf cells').
  { unfold linksOf. by rewrite Hp. }
  unfold generateConfigFile, generateMappings. fold (linksOf cells) (linksOf cells').
  rewrite <- (forEachLink_ext faces cells cells' (linksOf cells') ∅ Hext).
  assert (Hsome : is_Some (forEachLink faces cells ∅ (linksOf cells))
                  <-> is_Some (forEachLink faces cells ∅ (linksOf cells'))).
  { rewrite !(forEachLink_is_Some _ _ _ ∅ noInheritedKey_empty). by rewrite Hlinks. }
  destruct (forEachLink faces cells ∅ (linksOf cells)) as [m|] eqn:Em;
    destruct (forEachLink faces cells ∅ (linksOf cells')) as [m'|] eqn:Em'.
  - assert (Hout : forall key, outList m key ≡ₚ outList m' key).
    { intros key.
      rewrite (forEachLink_outList faces cells _ _ _ key Em).
      rewrite (forEachLink_outList faces cells _ _ _ key Em').
      unfold outList. rewrite lookup_empty. simpl.
      by apply concat_map_Permutation. }
    destruct (table_of_permuted_outLists faces m m' Hout) as [Hmax Hrows].
    assert (Hm : noInheritedKey m)
      by (eapply forEachLink_noInheritedKey; [apply noInheritedKey_empty|exact Em]).
    assert (Hm' : noInheritedKey m')
      by (eapply forEachLink_noInheritedKey; [apply noInheritedKey_empty|exact Em']).
    destruct (decide (ownNames faces)) as [Hown|Hnot].
    + rewrite !generateFileMappings_text by done. by rewrite Hrows, Hmax.
    + by rewrite !generateFileMappings_throws.
  - exfalso. destruct Hsome as [[m' H] _]; [by eexists|discriminate].
  - exfalso. destruct Hsome as [_ [m H]]; [by eexists|discriminate].
  - reflexivity.
Qed.

Lemma X7_config_file_ignores_cell_order_witness :
  generateConfigFile Examples.abcFaces Examples.abcCells
  = generateConfigFile Examples.abcFaces (rev Examples.abcCells).
Proof.
  apply (X7_config_file_ignores_cell_order Examples.abcFaces
           Examples.abcCells (rev Examples.abcCells)).
  - apply Permutation_rev.
  - apply (bool_decide_unpack (NoDup (map Mapping.cell_id Examples.abcCells))).
    by vm_compute.
Defined.

End CellOrder.

(** ** What the [LinkDrawn] listener changes *)

Section LinkDrawnEffect.

Import GoDiagram.

(** X8. Drawing a link from [a] to [b], two distinct nodes of the
    diagram, when no link of the diagram goes from [b] to [a]: the drawn
    link stays in the diagram, with the flag [isBiDirectional] set to
    [false], and nothing else changes, whatever other links leave [b]. *)
Theorem X8_drawn_link_without_reverse_stays (d : Diagram) (subject a b : nat) :
  a ∈ nodes d -> b ∈ nodes d ->
  subject ∉ links d ->
  a <> b ->
  (forall l data, l ∈ links d -> linkData d !! l = Some data ->
     from data = b -> to data <> a) ->
  drawLink subject a b d
  = Some {| nodes := nodes d;
            linkData := <[subject := {| from := a; to := b; isBiDirectional := false |}]>
                          (linkData d);
            links := links d ++ [subject] |}.
Proof.
  intros _ _ Hfresh Hab Hnone. unfold drawLink, onLinkDrawn.
  cbn [linkData setDataProperty links nodes].
  rewrite lookup_alter_eq, lookup_insert_eq.
  cbn [fmap option_fmap option_map setBiDirectional to]. f_equal.
  rewrite foldl_no_match.
  - unfold setDataProperty. cbn [nodes linkData links]. by rewrite alter_insert_eq.
  - apply Forall_forall. intros item Hitem.
    unfold findLinksOutOf in Hitem.
    apply list_elem_of_filter in Hitem as [Hfrom Hin].
    unfold setDataProperty in Hfrom, Hin |- *. cbn [linkData links] in Hfrom, Hin |- *.
    rewrite alter_insert_eq in Hfrom |- *. rewrite lookup_insert_eq. simpl.
    destruct (decide (item = subject)) as [->|Hne].
    + rewrite lookup_insert_eq in Hfrom. simpl in Hfrom. congruence.
    + rewrite lookup_insert_ne in Hfrom |- * by done.
      apply elem_of_app in Hin as [Hin|Hin]; [|by apply list_elem_of_singleton in Hin].
      destruct (linkData d !! item) as [data|] eqn:E; [|discriminate].
      simpl in *. injection Hfrom as Hfrom. intros Hto. injection Hto as Hto.
      by apply (Hnone item data Hin E Hfrom).
Qed.

(** The witness draws a link from c to a in a diagram that has a link
    from a to b: the loop of the listener visits that link, which does not
    go back to c. *)
Lemma X8_drawn_link_without_reverse_stays_witness :
  drawLink 8 2 0 Examples.chainDiagram
  = Some {| nodes := nodes Examples.chainDiagram;
            linkData := <[8 := {| from := 2; to := 0; isBiDirectional := false |}]>
                          (linkData Examples.chainDiagram);
            links := links Examples.chainDiagram ++ [8] |}.
Proof.
  apply (X8_drawn_link_without_reverse_stays Examples.chainDiagram 8 2 0).
  - simpl. elem_of_list.
  - simpl. elem_of_list.
  - simpl. intros H. apply list_elem_of_singleton in H. lia.
  - lia.
  - simpl. intros l data Hl. apply list_elem_of_singleton in Hl as ->.
    intros H. vm_compute in H. injection H as <-. simpl. lia.
Defined.

(** X9. What drawing a link from [a] to [b] does to the rest of the
    diagram: the nodes and the ends of every link stay as they are; no
    other link leaves the diagram and none enters it; the flag
    [isBiDirectional] is raised for exactly the links of the diagram that go
    from [b] to [a], and the data of every other link is unchanged. *)
Theorem X9_listener_touches_reverse_links_only (d : Diagram) (subject a b : nat) :
  exists d',
    drawLink subject a b d = Some d'
    /\ nodes d' = nodes d
    /\ (forall l, l <> subject -> (l ∈ links d' <-> l ∈ links d))
    /\ (forall l data, l <> subject -> linkData d !! l = Some data ->
          linkData d' !! l
          = Some (if bool_decide (l ∈ links d)
                     && Nat.eqb (from data) b && Nat.eqb (to data) a
                  then setBiDirectional true data else data))
    /\ (forall l, l <> subject -> linkData d !! l = None -> linkData d' !! l = None).
Proof.
  unfold drawLink, onLinkDrawn. cbn [linkData setDataProperty links nodes].
  rewrite lookup_alter_eq, lookup_insert_eq.
  cbn [fmap option_fmap option_map setBiDirectional to].
  set (d1 := setDataProperty subject false _).
  set (its := findLinksOutOf d1 b).
  set (d' := foldl (nextItem subject) d1 its).
  assert (Hsub : from <$> linkData d1 !! subject = Some a).
  { unfold d1. simpl. by rewrite lookup_alter_eq, lookup_insert_eq. }
  assert (Hd1 : forall l, l <> subject -> linkData d1 !! l = linkData d !! l).
  { intros l Hl. unfold d1. simpl. by rewrite lookup_alter_ne, lookup_insert_ne. }
  assert (Hev : evolves subject d1 d') by apply evolves_foldl.
  exists d'. split; [reflexivity|].
  split; [by destruct Hev as (-> & _)|]. split; [|split].
  - intros l Hl. destruct Hev as (_ & _ & [E|E]); rewrite E.
    + unfold d1. simpl. rewrite elem_of_app, list_elem_of_singleton. tauto.
    + rewrite list_elem_of_filter. unfold d1. simpl.
      rewrite elem_of_app, list_elem_of_singleton. tauto.
  - intros l data Hl Hdata.
    assert (Hl1 : linkData d1 !! l = Some data) by (by rewrite Hd1).
    destruct (bool_decide (l ∈ links d) && (from data =? b)%nat && (to data =? a)%nat)
      eqn:Hm.
    + apply andb_prop in Hm as [Hm Hto]. apply andb_prop in Hm as [Hin Hfrom].
      apply bool_decide_eq_true in Hin.
      apply Nat.eqb_eq in Hfrom. apply Nat.eqb_eq in Hto.
      assert (Hin1 : l ∈ links d1).
      { unfold d1. simpl. rewrite elem_of_app. by left. }
      assert (Hits : l ∈ its).
      { unfold its, findLinksOutOf. rewrite list_elem_of_filter. split; [|exact Hin1].
        rewrite Hl1. simpl. by rewrite Hfrom. }
      destruct (foldl_merged subject a l its d1 Hsub) as [_ Hflag];
        [|exact Hl|exact Hin1|exact Hits|].
      { rewrite Hl1. simpl. by rewrite Hto. }
      fold d' in Hflag. destruct Hev as (_ & Hd & _). destruct (Hd l) as [E|E].
      * rewrite E, Hl1 in Hflag |- *. simpl in Hflag. injection Hflag as Hflag.
        destruct data as [f t bi]. simpl in Hflag. by rewrite Hflag.
      * by rewrite E, Hl1.
    + unfold d'. rewrite foldl_other; [exact Hl1|].
      rewrite Hl1, Hsub. simpl.
      destruct (decide (l ∈ its)) as [Hits|Hits]; [right|by left].
      intros Hto. injection Hto as Hto.
      unfold its, findLinksOutOf in Hits. apply list_elem_of_filter in Hits as [Hfrom Hin].
      rewrite Hl1 in Hfrom. simpl in Hfrom. injection Hfrom as Hfrom.
      unfold d1 in Hin. simpl in Hin.
      apply elem_of_app in Hin as [Hin|Hin]; [|by apply list_elem_of_singleton in Hin].
      rewrite (bool_decide_eq_true_2 _ Hin), Hfrom, Hto, !Nat.eqb_refl in Hm. discriminate.
  - intros l Hl Hnone. destruct Hev as (_ & Hd & _).
    destruct (Hd l) as [E|E]; rewrite E, Hd1, Hnone by done; reflexivity.
Qed.

End LinkDrawnEffect.

(** ** The editor: mirroring *)

Section EditorMirror.

Import Editor.

Lemma mirrorLoop_spec (data : list (list Z)) : forall fuel i cur,
  length cur = length data ->
  2 * i <= length data + 1 ->
  length data <= i + fuel ->
  (forall k, k < length data ->
     cur !! k = if (length data - i <=? k)%nat
                then data !! (length data - 1 - k) else data !! k) ->
  length (mirrorLoop fuel i cur) = length data
  /\ forall k, k < length data ->
       mirrorLoop fuel i cur !! k = data !! (Nat.min k (length data - 1 - k)).
Proof.
  induction fuel as [|fuel IH]; intros i cur Hlen Hi Hfuel Hcur.
  - simpl. split; [exact Hlen|]. intros k Hk. rewrite (Hcur k Hk).
    destruct (Nat.leb_spec (length data - i) k); f_equal; lia.
  - cbn [mirrorLoop]. rewrite Hlen.
    destruct (Nat.ltb_spec (2 * i) (length data)) as [Hlt|Hge].
    + assert (Hci : cur !! i = data !! i).
      { rewrite (Hcur i) by lia. destruct (Nat.leb_spec (length data - i) i); [lia|done]. }
      destruct (lookup_lt_is_Some_2 data i) as [column Hcol]; [lia|].
      rewrite Hci, Hcol. apply IH.
      * by rewrite length_insert.
      * lia.
      * lia.
      * intros k Hk. destruct (decide (k = length data - i - 1)) as [->|Hne].
        -- rewrite list_lookup_insert_eq by lia.
           destruct (Nat.leb_spec (length data - S i) (length data - i - 1)); [|lia].
           rewrite <- Hcol. f_equal. lia.
        -- rewrite list_lookup_insert_ne by done. rewrite (Hcur k Hk).
           destruct (Nat.leb_spec (length data - i) k),
                    (Nat.leb_spec (length data - S i) k); try done; lia.
    + split; [exact Hlen|]. intros k Hk. rewrite (Hcur k Hk).
      destruct (Nat.leb_spec (length data - i) k); f_equal; lia.
Qed.

(** X10. [mirror] copies the left half of the image over the right half:
    the mirrored data has the columns of the data, the column at [k] being
    the column of the data at [k] or at its mirror position, whichever is
    further left.  The result is symmetric, and mirroring it again changes
    nothing. *)
Theorem X10_mirror_copies_left_half (data : list (list Z)) :
  length (mirrorData data) = length data
  /\ (forall k, k < length data ->
        mirrorData data !! k = data !! (Nat.min k (length data - 1 - k)))
  /\ (forall k, k < length data ->
        mirrorData data !! (length data - 1 - k) = mirrorData data !! k)
  /\ mirrorData (mirrorData data) = mirrorData data.
Proof.
  assert (Hspec : forall d : list (list Z),
            length (mirrorData d) = length d
            /\ forall k, k < length d ->
                 mirrorData d !! k = d !! (Nat.min k (length d - 1 - k))).
  { intros d. unfold mirrorData. apply mirrorLoop_spec; [done|lia|lia|].
    intros k Hk. destruct (Nat.leb_spec (length d - 0) k); [lia|done]. }
  destruct (Hspec data) as [Hlen Hk]. split; [exact Hlen|]. split; [exact Hk|]. split.
  - intros k Hlt. rewrite !Hk by lia. f_equal. lia.
  - destruct (Hspec (mirrorData data)) as [Hlen2 Hk2].
    apply list_eq. intros k. destruct (decide (k < length data)) as [Hlt|Hge].
    + rewrite Hk2 by lia. rewrite Hlen. rewrite !Hk by lia. f_equal. lia.
    + rewrite !lookup_ge_None_2; [done|lia|lia].
Qed.

End EditorMirror.

(** ** The editor: undo and redo *)

Section EditorHistory.

Import Editor.

Variable View : Type.
Variable fillCanvasFromData : list (list Z) -> View -> option View.

(** X11. [addHistory] makes the data current and drops the states that
    could be redone: the index is the last one of the history, the states
    up to the former index are kept, and [historyNext] does nothing.  When
    the former index was one of the history, [historyPrevious] goes back to
    the former current data and paints it. *)
Theorem X11_addHistory_makes_current_and_drops_redo
    (data : list (list Z)) (h : History) (view : View) :
  indexInHistory (addHistory data h)
  /\ currentData (addHistory data h) = Some data
  /\ currentHistoryIndex (addHistory data h) + 1 = length (dataHistory (addHistory data h))
  /\ dataHistory (addHistory data h)
     = take (currentHistoryIndex h + 1) (dataHistory h) ++ [data]
  /\ historyNext View fillCanvasFromData (addHistory data h) view
     = Some (addHistory data h, view)
  /\ (indexInHistory h ->
      exists previous h',
        currentData h = Some previous
        /\ historyPrevious View fillCanvasFromData (addHistory data h) view
           = pair h' <$> fillCanvasFromData previous view
        /\ currentData h' = Some previous
        /\ currentHistoryIndex h' = currentHistoryIndex h
        /\ dataHistory h' = dataHistory (addHistory data h)).
Proof.
  unfold indexInHistory, currentData, addHistory. cbn [dataHistory currentHistoryIndex].
  set (sliced := take (currentHistoryIndex h + 1) (dataHistory h)).
  assert (Hlen : length (sliced ++ [data]) = S (length sliced)).
  { rewrite length_app. simpl. lia. }
  split; [lia|]. split.
  { rewrite Hlen. replace (S (length sliced) - 1) with (length sliced + 0) by lia.
    by rewrite lookup_app_r, Nat.add_comm, Nat.add_sub by lia. }
  split; [lia|]. split; [reflexivity|]. split.
  { unfold historyNext. cbn [dataHistory currentHistoryIndex].
    destruct (Nat.ltb_spec (length (sliced ++ [data]) - 1) (length (sliced ++ [data]) - 1));
      [lia|reflexivity]. }
  intros Hin. destruct (lookup_lt_is_Some_2 _ _ Hin) as [previous Hprev].
  assert (Hsl : length sliced = currentHistoryIndex h + 1).
  { unfold sliced. rewrite length_take. lia. }
  assert (Hlook : (sliced ++ [data]) !! currentHistoryIndex h = Some previous).
  { rewrite lookup_app_l by lia. unfold sliced. by rewrite lookup_take_lt by lia. }
  exists previous. eexists. split; [exact Hprev|].
  unfold historyPrevious, repaint, currentData. cbn [dataHistory currentHistoryIndex].
  rewrite Hlen, Hsl.
  replace (S (currentHistoryIndex h + 1) - 1 - 1) with (currentHistoryIndex h) by lia.
  destruct (Nat.ltb_spec 0 (S (currentHistoryIndex h + 1) - 1)); [|lia].
  rewrite Hlook. split; [reflexivity|]. split; [exact Hlook|]. split; reflexivity.
Qed.

(** X12. Undo and redo are inverse to each other on the history: when
    the index is one of the history and not the first, [historyPrevious]
    paints the state before it and [historyNext] then paints the state
    again and gives back the history and its index; when it is not the
    last, so do [historyNext] and then [historyPrevious].  Both keep the
    index inside the history, and neither throws unless the painting does.
    At the first state [historyPrevious] does nothing, at the last
    [historyNext] does nothing. *)
Theorem X12_undo_redo_round_trip (h : History) (view : View) :
  indexInHistory h ->
  exists current,
    currentData h = Some current
    /\ (0 < currentHistoryIndex h ->
        exists h1 previous,
          currentData h1 = Some previous
          /\ indexInHistory h1
          /\ currentHistoryIndex h1 + 1 = currentHistoryIndex h
          /\ historyPrevious View fillCanvasFromData h view
             = pair h1 <$> fillCanvasFromData previous view
          /\ forall view1,
               historyNext View fillCanvasFromData h1 view1
               = pair h <$> fillCanvasFromData current view1)
    /\ (currentHistoryIndex h + 1 < length (dataHistory h) ->
        exists h1 next,
          currentData h1 = Some next
          /\ indexInHistory h1
          /\ currentHistoryIndex h1 = currentHistoryIndex h + 1
          /\ historyNext View fillCanvasFromData h view
             = pair h1 <$> fillCanvasFromData next view
          /\ forall view1,
               historyPrevious View fillCanvasFromData h1 view1
               = pair h <$> fillCanvasFromData current view1)
    /\ (currentHistoryIndex h = 0 ->
        historyPrevious View fillCanvasFromData h view = Some (h, view))
    /\ (currentHistoryIndex h + 1 = length (dataHistory h) ->
        historyNext View fillCanvasFromData h view = Some (h, view)).
Proof.
  destruct h as [hist idx saved]. unfold indexInHistory. cbn [dataHistory currentHistoryIndex].
  intros Hin.
  destruct (lookup_lt_is_Some_2 hist idx Hin) as [cur Hcur].
  exists cur. split; [exact Hcur|]. split; [|split; [|split]].
  - intros Hpos.
    destruct (lookup_lt_is_Some_2 hist (idx - 1)) as [prev Hprev]; [lia|].
    exists {| dataHistory := hist; currentHistoryIndex := idx - 1;
              currentSaveIndex := saved |}, prev.
    unfold historyPrevious, historyNext, repaint, currentData.
    cbn [dataHistory currentHistoryIndex currentSaveIndex].
    destruct (Nat.ltb_spec 0 idx); [|lia]. rewrite Hprev.
    split; [reflexivity|]. split; [lia|]. split; [lia|]. split; [reflexivity|].
    intros view1.
    destruct (Nat.ltb_spec (idx - 1) (length hist - 1)); [|lia].
    replace (idx - 1 + 1) with idx by lia. by rewrite Hcur.
  - intros Hnext.
    destruct (lookup_lt_is_Some_2 hist (idx + 1)) as [next Hnx]; [lia|].
    exists {| dataHistory := hist; currentHistoryIndex := idx + 1;
              currentSaveIndex := saved |}, next.
    unfold historyPrevious, historyNext, repaint, currentData.
    cbn [dataHistory currentHistoryIndex currentSaveIndex].
    destruct (Nat.ltb_spec idx (length hist - 1)); [|lia]. rewrite Hnx.
    split; [reflexivity|]. split; [lia|]. split; [lia|]. split; [reflexivity|].
    intros view1.
    destruct (Nat.ltb_spec 0 (idx + 1)); [|lia].
    replace (idx + 1 - 1) with idx by lia. by rewrite Hcur.
  - intros ->. reflexivity.
  - intros Hlast. unfold historyNext. cbn [dataHistory currentHistoryIndex].
    destruct (Nat.ltb_spec idx (length hist - 1)); [lia|reflexivity].
Qed.

End EditorHistory.

Lemma X12_undo_redo_round_trip_witness :
  exists current,
    Editor.currentData Examples.threeImages = Some current
    /\ (0 < 1 ->
        exists h1 previous,
          Editor.currentData h1 = Some previous
          /\ Editor.indexInHistory h1
          /\ Editor.currentHistoryIndex h1 + 1 = 1
          /\ Editor.historyPrevious unit Examples.paint Examples.threeImages tt
             = pair h1 <$> Examples.paint previous tt
          /\ forall view1,
               Editor.historyNext unit Examples.paint h1 view1
               = pair Examples.threeImages <$> Examples.paint current view1)
    /\ (1 + 1 < 3 ->
        exists h1 next,
          Editor.currentData h1 = Some next
          /\ Editor.indexInHistory h1
          /\ Editor.currentHistoryIndex h1 = 1 + 1
          /\ Editor.historyNext unit Examples.paint Examples.threeImages tt
             = pair h1 <$> Examples.paint next tt
          /\ forall view1,
               Editor.historyPrevious unit Examples.paint h1 view1
               = pair Examples.threeImages <$> Examples.paint current view1)
    /\ (1 = 0 ->
        Editor.historyPrevious unit Examples.paint Examples.threeImages tt
        = Some (Examples.threeImages, tt))
    /\ (1 + 1 = 3 ->
        Editor.historyNext unit Examples.paint Examples.threeImages tt
        = Some (Examples.threeImages, tt)).
Proof.
  apply (X12_undo_redo_round_trip unit Examples.paint Examples.threeImages tt).
  unfold Editor.indexInHistory. simpl. lia.
Defined.

(** ** The editor: [drawLine] *)

Section EditorDrawLine.

Import Editor.

Local Open Scope Z_scope.

Variables X0 Y0 X1 Y1 : Z.

Let dX := Z.abs (X1 - X0).
Let dY := Z.abs (Y1 - Y0).
Let sX := if X0 <? X1 then 1 else -1.
Let sY := if Y0 <? Y1 then 1 else -1.

Let onTheWay := Editor.onTheWay X0 Y0 dX dY sX sY.

(** One iteration of the loop, then the rest by induction: the pixel of
    this iteration is painted first. *)
Ltac drawLine_step IH i' j' x' y' e' :=
  match goal with
  | |- context [drawLineLoop _ _ _ _ _ _ _ _ _ _ (?painted ++ [(?x0, ?y0)])] =>
      let new := fresh "new" in
      let Hrun := fresh "Hrun" in
      let Hall := fresh "Hall" in
      destruct (IH i' j' x' y' e' (painted ++ [(x0, y0)]))
        as (new & Hrun & Hall & ? & ? & ? & ?);
      [lia|lia|lia|lia|lia|lia|];
      exists ((x0, y0) :: new); rewrite Hrun, <- app_assoc;
      split; [reflexivity|]; split;
      [constructor;
       [eexists _, _; split; [f_equal; eassumption|lia]
       |eapply Forall_impl; [exact Hall|];
        let p := fresh "p" in
        let a := fresh "a" in
        let b := fresh "b" in
        intros p (a & b & -> & ? & ? & ?); exists a, b; repeat split; lia]
      |simpl length; rewrite Nat2Z.inj_succ; repeat split; lia]
  end.

Lemma drawLineLoop_spec : forall fuel i j x0 y0 err painted,
  0 <= i <= dX -> 0 <= j <= dY ->
  (dX - i) + (dY - j) <= Z.of_nat fuel ->
  x0 = X0 + sX * i -> y0 = Y0 + sY * j ->
  err = dX - dY - i * dY + j * dX ->
  exists new,
    drawLineLoop fuel x0 y0 X1 Y1 dX dY sX sY err painted = Some (painted ++ new)
    /\ Forall (onTheWay i j) new
    /\ Z.of_nat (length new) <= (dX - i) + (dY - j)
    /\ dX - i <= Z.of_nat (length new)
    /\ dY - j <= Z.of_nat (length new)
    /\ (i < dX \/ j < dY -> head new = Some (x0, y0)).
Proof.
  assert (HX1 : X1 = X0 + sX * dX).
  { unfold sX, dX. destruct (Z.ltb_spec X0 X1); lia. }
  assert (HY1 : Y1 = Y0 + sY * dY).
  { unfold sY, dY. destruct (Z.ltb_spec Y0 Y1); lia. }
  assert (HsX : sX = 1 \/ sX = -1) by (unfold sX; destruct (X0 <? X1); auto).
  assert (HsY : sY = 1 \/ sY = -1) by (unfold sY; destruct (Y0 <? Y1); auto).
  assert (Hend : forall i j x0 y0,
            0 <= i <= dX -> 0 <= j <= dY ->
            x0 = X0 + sX * i -> y0 = Y0 + sY * j ->
            (negb (x0 =? X1) || negb (y0 =? Y1) = false <-> i = dX /\ j = dY)).
  { intros i j x0 y0 Hi Hj -> ->. rewrite orb_false_iff, !negb_false_iff, !Z.eqb_eq.
    destruct HsX as [E|E], HsY as [E'|E']; rewrite ?E, ?E' in *; lia. }
  induction fuel as [|fuel IH]; intros i j x0 y0 err painted Hi Hj Hfuel Hx Hy Herr.
  - assert (Hij : i = dX /\ j = dY) by lia.
    exists []. cbn [drawLineLoop].
    rewrite (proj2 (Hend i j x0 y0 Hi Hj Hx Hy) Hij), app_nil_r.
    repeat split; try constructor; simpl; lia.
  - cbn [drawLineLoop].
    destruct (negb (x0 =? X1) || negb (y0 =? Y1)) eqn:Hcond.
    + assert (Hnot : i < dX \/ j < dY).
      { destruct (Z.eq_dec i dX) as [Ei|]; [|lia]. destruct (Z.eq_dec j dY) as [Ej|]; [|lia].
        rewrite (proj2 (Hend i j x0 y0 Hi Hj Hx Hy) (conj Ei Ej)) in Hcond. discriminate. }
      assert (FX : i = dX -> err * 2 <= - dY).
      { intros Ei. assert (0 <= dX * (dY - 1 - j)) by nia. nia. }
      assert (FY : j = dY -> dX <= err * 2).
      { intros Ej. assert (0 <= dY * (dX - 1 - i)) by nia. nia. }
      cbv zeta.
      destruct (Z.ltb_spec (- dY) (err * 2)) as [SX|SX];
        destruct (Z.ltb_spec (err * 2) dX) as [SY|SY].
      * drawLine_step IH (i + 1) (j + 1) (x0 + sX) (y0 + sY) (err - dY + dX).
      * drawLine_step IH (i + 1) j (x0 + sX) y0 (err - dY).
      * drawLine_step IH i (j + 1) x0 (y0 + sY) (err + dX).
      * exfalso. lia.
    + apply (Hend i j x0 y0 Hi Hj Hx Hy) in Hcond.
      exists []. rewrite app_nil_r. repeat split; try constructor; simpl; lia.
Qed.

(** X13. [drawLine] ends for all integer ends, within
    [|x1 - x0| + |y1 - y0|] iterations and not before the greater of the two
    distances.  Every pixel it paints is inside the rectangle spanned by the
    two ends; it paints the start first, unless the two ends are the same
    pixel, and it never paints the end. *)
Theorem X13_drawLine_ends_inside_the_box :
  exists painted,
    drawLine X0 Y0 X1 Y1 = Some painted
    /\ Forall (fun p => Z.min X0 X1 <= p.1 <= Z.max X0 X1
                        /\ Z.min Y0 Y1 <= p.2 <= Z.max Y0 Y1) painted
    /\ ((X1, Y1) ∉ painted)
    /\ Z.max (Z.abs (X1 - X0)) (Z.abs (Y1 - Y0)) <= Z.of_nat (length painted)
    /\ Z.of_nat (length painted) <= Z.abs (X1 - X0) + Z.abs (Y1 - Y0)
    /\ ((X0, Y0) <> (X1, Y1) -> head painted = Some (X0, Y0)).
Proof.
  assert (HX1 : X1 = X0 + sX * dX).
  { unfold sX, dX. destruct (Z.ltb_spec X0 X1); lia. }
  assert (HY1 : Y1 = Y0 + sY * dY).
  { unfold sY, dY. destruct (Z.ltb_spec Y0 Y1); lia. }
  assert (HsX : sX = 1 \/ sX = -1) by (unfold sX; destruct (X0 <? X1); auto).
  assert (HsY : sY = 1 \/ sY = -1) by (unfold sY; destruct (Y0 <? Y1); auto).
  assert (HdX : 0 <= dX) by (unfold dX; lia).
  assert (HdY : 0 <= dY) by (unfold dY; lia).
  destruct (drawLineLoop_spec (Z.to_nat (dX + dY)) 0 0 X0 Y0 (dX - dY) [])
    as (painted & Hrun & Hall & Hlen & Hlx & Hly & Hhead); try lia.
  exists painted. split; [exact Hrun|]. split; [|split].
  - eapply Forall_impl; [exact Hall|].
    intros p (i & j & -> & Hi & Hj & _). simpl.
    destruct HsX as [E|E], HsY as [E'|E']; rewrite ?E, ?E' in *; lia.
  - intros Hin. rewrite Forall_forall in Hall.
    destruct (Hall _ Hin) as (i & j & Heq & Hi & Hj & Hnot).
    injection Heq as Hx Hy.
    destruct HsX as [E|E], HsY as [E'|E']; rewrite ?E, ?E' in *; lia.
  - fold dX dY. split; [lia|]. split; [lia|].
    intros Hne. apply Hhead.
    destruct (Z.eq_dec dX 0) as [Ex|]; [|lia]. destruct (Z.eq_dec dY 0) as [Ey|]; [|lia].
    exfalso. apply Hne. f_equal; unfold dX, dY in *; lia.
Qed.

End EditorDrawLine.

(** ** Importing and saving the nodes in [mapper.js] *)

Section ImportNodes.

Import Mapper.

Lemma insert_take_comm {A} (l : list A) k i x :
  <[i := x]> (take k l) = take k (<[i := x]> l).
Proof.
  destruct (decide (i < k)) as [Hlt|Hge].
  - by rewrite take_insert_lt.
  - rewrite take_insert_ge by lia. apply list_insert_ge. rewrite length_take. lia.
Qed.

Lemma unmatched_length faces (nodes : list NodeData) :
  length (unmatched faces nodes) <= length nodes.
Proof. apply length_filter. Qed.

(** One step of the loop, on the array as it is after the nodes [pre]. *)
Lemma importEntry_step (faces : gmap string (list string)) pre node rest n :
  n = length pre + S (length rest) ->
  importEntry faces
    (take (n - length (unmatched faces pre))
          ((imported faces <$> pre) ++ Some node :: (Some <$> rest)))
    (length pre, node)
  = take (n - length (unmatched faces (pre ++ [node])))
         ((imported faces <$> (pre ++ [node])) ++ (Some <$> rest)).
Proof.
  intros Hn. assert (Hu := unmatched_length faces pre).
  assert (Hins : forall x,
            <[length pre := x]> ((imported faces <$> pre) ++ Some node :: (Some <$> rest))
            = (imported faces <$> pre) ++ x :: (Some <$> rest)).
  { intros x.
    replace (length pre) with (length (imported faces <$> pre) + 0)
      at 1 by (rewrite length_fmap; lia).
    by rewrite insert_app_r. }
  unfold importEntry, unmatched. cbn [fst snd].
  rewrite filter_app, fmap_app, <- app_assoc, length_app. cbn [fmap list_fmap app].
  destruct (faces !! node_name node) as [images|] eqn:E;
    [|destruct (JS.inherited (node_name node)) eqn:Ei].
  - rewrite (filter_cons_False _ node []) by (intros [? ?]; congruence).
    rewrite filter_nil. cbn [length]. rewrite Nat.add_0_r.
    assert (Hnode : imported faces node = Some (withImages images node))
      by (unfold imported; by rewrite E).
    by rewrite insert_take_comm, Hins, Hnode.
  - rewrite (filter_cons_False _ node []) by (intros [? ?]; congruence).
    rewrite filter_nil. cbn [length]. rewrite Nat.add_0_r.
    assert (Hnode : imported faces node = Some (withoutImages node))
      by (unfold imported; by rewrite E, Ei).
    by rewrite insert_take_comm, Hins, Hnode.
  - rewrite (filter_cons_True _ node []) by done.
    rewrite filter_nil. cbn [length].
    rewrite insert_take_comm, Hins, length_take, take_take.
    rewrite length_app, length_fmap. cbn [length]. rewrite length_fmap.
    assert (Hnode : imported faces node = None) by (unfold imported; by rewrite E, Ei).
    rewrite Hnode. f_equal. fold (unmatched faces pre). lia.
Qed.

Lemma importLoop (faces : gmap string (list string)) : forall rest pre n,
  n = length pre + length rest ->
  foldl (importEntry faces)
        (take (n - length (unmatched faces pre))
              ((imported faces <$> pre) ++ (Some <$> rest)))
        (zip (seq (length pre) (length rest)) rest)
  = take (n - length (unmatched faces (pre ++ rest)))
         (imported faces <$> (pre ++ rest)).
Proof.
  induction rest as [|node rest IH]; intros pre n Hn.
  - simpl. by rewrite !app_nil_r.
  - cbn [length] in Hn. cbn [length seq zip zip_with foldl fmap list_fmap].
    rewrite (importEntry_step faces pre node rest n Hn).
    replace (S (length pre)) with (length (pre ++ [node]))
      by (rewrite length_app; simpl; lia).
    rewrite (IH (pre ++ [node]) n) by (rewrite length_app; simpl; lia).
    by rewrite <- app_assoc.
Qed.

(** X14. The loop of [onChangeImport] does not filter the nodes, it cuts
    the array: with [u] nodes for whose name the object of the faces has no
    property, the array keeps its first [length - u] places; in them a node
    of a face has the images of the face, a node with a name the object
    inherits has no images, and every other node is a hole.  A node of a
    face in one of the last [u] places is lost.  No face is named
    [__proto__], as [createFaceGroups] sees to, and no node is. *)
Theorem X14_import_cuts_the_node_array (facesArray : list Face) (nodeDataArray : list NodeData) :
  "__proto__" ∉ map name facesArray ->
  "__proto__" ∉ map node_name nodeDataArray ->
  importNodes facesArray nodeDataArray
  = take (length nodeDataArray
          - length (unmatched (facesArrayObject facesArray) nodeDataArray))
         (imported (facesArrayObject facesArray) <$> nodeDataArray)
  /\ length (importNodes facesArray nodeDataArray)
     = length nodeDataArray
       - length (unmatched (facesArrayObject facesArray) nodeDataArray)
  /\ (unmatched (facesArrayObject facesArray) nodeDataArray = [] ->
      importNodes facesArray nodeDataArray
      = imported (facesArrayObject facesArray) <$> nodeDataArray).
Proof.
  intros _ _.
  assert (Heq : importNodes facesArray nodeDataArray
                = take (length nodeDataArray
                        - length (unmatched (facesArrayObject facesArray) nodeDataArray))
                       (imported (facesArrayObject facesArray) <$> nodeDataArray)).
  { unfold importNodes.
    assert (H := importLoop (facesArrayObject facesArray) nodeDataArray []
                   (length nodeDataArray) eq_refl).
    simpl in H. rewrite Nat.sub_0_r in H.
    rewrite take_ge in H by (by rewrite length_fmap). exact H. }
  split; [exact Heq|]. split.
  - rewrite Heq, length_take, length_fmap. lia.
  - intros Hnone. rewrite Heq, Hnone. simpl. rewrite Nat.sub_0_r.
    apply take_ge. by rewrite length_fmap.
Qed.

Lemma X14_import_cuts_the_node_array_witness :
  importNodes Examples.uploadedFaces Examples.importedNodes
  = take (length Examples.importedNodes
          - length (unmatched (facesArrayObject Examples.uploadedFaces)
                      Examples.importedNodes))
         (imported (facesArrayObject Examples.uploadedFaces) <$> Examples.importedNodes)
  /\ length (importNodes Examples.uploadedFaces Examples.importedNodes)
     = length Examples.importedNodes
       - length (unmatched (facesArrayObject Examples.uploadedFaces) Examples.importedNodes)
  /\ (unmatched (facesArrayObject Examples.uploadedFaces) Examples.importedNodes = [] ->
      importNodes Examples.uploadedFaces Examples.importedNodes
      = imported (facesArrayObject Examples.uploadedFaces) <$> Examples.importedNodes).
Proof.
  apply (X14_import_cuts_the_node_array Examples.uploadedFaces Examples.importedNodes).
  - apply (bool_decide_unpack ("__proto__" ∉ map name Examples.uploadedFaces)).
    by vm_compute.
  - apply (bool_decide_unpack ("__proto__" ∉ map node_name Examples.importedNodes)).
    by vm_compute.
Defined.

Lemma facesArrayObject_other (faces : list Face) : forall (m : gmap string (list string)) k,
  k ∉ map name faces ->
  foldl (fun previous current => <[name current := images current]> previous) m faces !! k
  = m !! k.
Proof.
  induction faces as [|f faces IH]; intros m k Hk; [reflexivity|].
  simpl in Hk. apply not_elem_of_cons in Hk as [Hne Hk]. simpl.
  rewrite IH by done. by rewrite lookup_insert_ne.
Qed.

(** With distinct names, the images found for the name of a face are the
    images of that face. *)
Lemma facesArrayObject_face (faces : list Face) face :
  NoDup (map name faces) -> face ∈ faces ->
  facesArrayObject faces !! name face = Some (images face).
Proof.
  unfold facesArrayObject. generalize (∅ : gmap string (list string)).
  induction faces as [|f faces IH]; intros m Hnd Hin.
  - by apply not_elem_of_nil in Hin.
  - simpl in Hnd. apply NoDup_cons in Hnd as [Hf Hnd]. simpl.
    apply elem_of_cons in Hin as [->|Hin].
    + rewrite facesArrayObject_other by done. apply lookup_insert_eq.
    + by apply IH.
Qed.

(** X15. Saving the nodes and importing them again gives the nodes back:
    when the names of the faces are distinct, none being [__proto__], and
    every node has the name and the images of a face, the array that
    [onChangeImport] makes of the saved nodes, which have no images, holds
    the nodes as they were, with their images. *)
Theorem X15_save_then_import_restores_the_nodes
    (facesArray : list Face) (nodeDataArray : list NodeData) :
  "__proto__" ∉ map name facesArray ->
  NoDup (map name facesArray) ->
  Forall (fun node => exists face, face ∈ facesArray
                                   /\ name face = node_name node
                                   /\ node_images node = Some (images face))
         nodeDataArray ->
  importNodes facesArray (savedNodes nodeDataArray) = Some <$> nodeDataArray.
Proof.
  intros _ Hnd Hall.
  assert (Himp : forall node, node ∈ nodeDataArray ->
            imported (facesArrayObject facesArray) (withoutImages node) = Some node).
  { intros node Hin. rewrite Forall_forall in Hall.
    destruct (Hall node Hin) as (face & Hface & Hname & Himg).
    unfold imported. cbn [withoutImages node_name]. rewrite <- Hname.
    rewrite (facesArrayObject_face facesArray face Hnd Hface).
    f_equal. destruct node as [k n t l i]. simpl in *. by rewrite Himg. }
  assert (Hnone : unmatched (facesArrayObject facesArray) (savedNodes nodeDataArray) = []).
  { unfold unmatched, savedNodes.
    destruct (filter _ _) as [|node rest] eqn:E; [reflexivity|]. exfalso.
    assert (Hin : node ∈ filter
                    (fun node => facesArrayObject facesArray !! node_name node = None
                                 /\ JS.inherited (node_name node) = false)
                    (map withoutImages nodeDataArray))
      by (rewrite E; apply list_elem_of_here).
    apply list_elem_of_filter in Hin as [[Hno Hni] Hin].
    apply list_elem_of_In, in_map_iff in Hin as (node0 & <- & Hin0).
    apply list_elem_of_In in Hin0. specialize (Himp node0 Hin0).
    unfold imported in Himp. by rewrite Hno, Hni in Himp. }
  unfold importNodes.
  assert (H := importLoop (facesArrayObject facesArray) (savedNodes nodeDataArray) []
                 (length (savedNodes nodeDataArray)) eq_refl).
  simpl in H. rewrite Nat.sub_0_r in H.
  rewrite take_ge in H by (by rewrite length_fmap). rewrite H, Hnone. simpl.
  rewrite Nat.sub_0_r, take_ge by (by rewrite length_fmap).
  unfold savedNodes. change (map withoutImages nodeDataArray)
    with (withoutImages <$> nodeDataArray).
  rewrite <- list_fmap_compose. apply list_fmap_ext. intros i node Hi. simpl.
  apply Himp. apply list_elem_of_lookup. by exists i.
Qed.

Lemma X15_save_then_import_restores_the_nodes_witness :
  importNodes Examples.uploadedFaces (savedNodes (faceNodes Examples.uploadedFaces))
  = Some <$> faceNodes Examples.uploadedFaces.
Proof.
  apply (X15_save_then_import_restores_the_nodes
           Examples.uploadedFaces (faceNodes Examples.uploadedFaces)).
  - apply (bool_decide_unpack ("__proto__" ∉ map name Examples.uploadedFaces)).
    by vm_compute.
  - simpl. apply NoDup_cons. split; [by intros ?%list_elem_of_singleton|].
    apply NoDup_singleton.
  - repeat constructor.
    + eexists. split; [apply list_elem_of_here|]. by split.
    + eexists. split; [apply list_elem_of_further, list_elem_of_here|]. by split.
Defined.

End ImportNodes.

(** ** Uploading the images in [mapper.js] *)

Section UploadImages.

Import GoDiagram Mapper.

Lemma addToGroup_map key url (faceGroups : list (string * list string)) :
  (list_to_map (addToGroup key url faceGroups) : gmap string (list string))
  = <[key := default [] ((list_to_map faceGroups : gmap string (list string)) !! key)
             ++ [url]]> (list_to_map faceGroups).
Proof.
  induction faceGroups as [|[k urls] rest IH]; simpl.
  - by rewrite lookup_empty.
  - destruct (String.eqb_spec k key) as [->|Hne]; simpl.
    + by rewrite lookup_insert_eq, insert_insert_eq.
    + rewrite IH, lookup_insert_ne by done. by apply insert_insert_ne.
Qed.

Lemma addToGroup_keys key url (faceGroups : list (string * list string)) k :
  k ∈ (addToGroup key url faceGroups).*1 <-> k = key \/ k ∈ faceGroups.*1.
Proof.
  induction faceGroups as [|[k0 urls] rest IH]; simpl.
  - rewrite list_elem_of_singleton. split; [by left|]. intros [H|H]; [done|].
    by apply not_elem_of_nil in H.
  - destruct (String.eqb_spec k0 key) as [->|Hne]; simpl.
    + rewrite elem_of_cons. tauto.
    + rewrite !elem_of_cons, IH. tauto.
Qed.

Lemma addToGroup_NoDup key url (faceGroups : list (string * list string)) :
  NoDup faceGroups.*1 -> NoDup (addToGroup key url faceGroups).*1.
Proof.
  induction faceGroups as [|[k0 urls] rest IH]; simpl; intros Hnd.
  - apply NoDup_singleton.
  - apply NoDup_cons in Hnd as [Hk0 Hnd].
    destruct (String.eqb_spec k0 key) as [->|Hne]; simpl.
    + by apply NoDup_cons.
    + apply NoDup_cons. split; [|by apply IH].
      rewrite addToGroup_keys. intros [->|H]; done.
Qed.

Lemma urlsOf_snoc faceKey files file :
  urlsOf faceKey (files ++ [file])
  = urlsOf faceKey files ++ (if decide (faceName file = faceKey) then [objectURL file] else []).
Proof.
  unfold urlsOf. rewrite filter_app, fmap_app. f_equal.
  rewrite (filter_cons _ file []), filter_nil. by destruct (decide _).
Qed.

(** The groups made of a list of files: their keys are distinct, and the
    group of a key holds the URLs of the files of that key. *)
Lemma groups_spec (files : list File) :
  NoDup (groupsOf files).*1
  /\ forall k, (list_to_map (groupsOf files) : gmap string (list string)) !! k
               = match urlsOf k files with [] => None | urls => Some urls end.
Proof.
  unfold groupsOf. induction files as [|file files IH] using rev_ind.
  - split; [apply NoDup_nil_2|]. intros k. simpl. apply lookup_empty.
  - destruct IH as [Hnd Hlook]. rewrite foldl_snoc.
    split; [by apply addToGroup_NoDup|]. intros k.
    rewrite addToGroup_map, urlsOf_snoc.
    destruct (decide (faceName file = k)) as [<-|Hne].
    + rewrite lookup_insert_eq, Hlook.
      destruct (urlsOf (faceName file) files); reflexivity.
    + rewrite lookup_insert_ne by done. rewrite Hlook, app_nil_r. reflexivity.
Qed.

(** The loop over the files throws exactly when one of them has an
    inherited name. *)
Lemma addFiles_Some (files : list File) : forall faceGroups,
  Forall (fun file => JS.inherited (faceName file) = false) files ->
  addFiles faceGroups files
  = Some (foldl (fun faceGroups file =>
                   addToGroup (faceName file) (objectURL file) faceGroups)
                faceGroups files).
Proof.
  induction files as [|file files IH]; intros faceGroups Hall; [reflexivity|].
  apply Forall_cons in Hall as [Hfile Hall]. simpl. unfold addFile.
  rewrite Hfile. by apply IH.
Qed.

Lemma addFiles_None (files : list File) : forall faceGroups,
  Exists (fun file => JS.inherited (faceName file) = true) files ->
  addFiles faceGroups files = None.
Proof.
  induction files as [|file files IH]; intros faceGroups Hex.
  - by apply Exists_nil in Hex.
  - simpl. unfold addFile. destruct (JS.inherited (faceName file)) eqn:E; [reflexivity|].
    apply Exists_cons in Hex as [Hfile|Hex]; [congruence|]. by apply IH.
Qed.

Lemma groupFiles_spec (files : list File) :
  (Forall (fun file => JS.inherited (faceName file) = false) (filter supported files)
   /\ groupFiles files = Some (groupsOf (filter supported files)))
  \/ (Exists (fun file => JS.inherited (faceName file) = true) (filter supported files)
      /\ groupFiles files = None).
Proof.
  unfold groupFiles, groupsOf.
  destruct (decide (Forall (fun file => JS.inherited (faceName file) = false)
                           (filter supported files))) as [Hall|Hex].
  - left. split; [exact Hall|]. by apply addFiles_Some.
  - right. apply not_Forall_Exists in Hex; [|apply _].
    assert (Hex' : Exists (fun file => JS.inherited (faceName file) = true)
                          (filter supported files)).
    { eapply Exists_impl; [exact Hex|]. intros file Hfile. simpl in Hfile.
      by destruct (JS.inherited (faceName file)). }
    split; [exact Hex'|]. by apply addFiles_None.
Qed.

Variable sortByName : list Face -> list Face.
Hypothesis sortByName_Permutation : forall faces, sortByName faces ≡ₚ faces.

Lemma filter_none {A} (P : A -> Prop) `{forall x, Decision (P x)} (l : list A) :
  Forall (fun x => ~ P x) l -> filter P l = [].
Proof.
  induction 1 as [|x l Hx _ IH]; [reflexivity|]. by rewrite filter_cons_False.
Qed.

Lemma createFaceGroups_none_supported (files : list File) :
  Forall (fun file => ~ supported file) files ->
  createFaceGroups sortByName files = Some [].
Proof.
  intros Hall. unfold createFaceGroups, groupFiles.
  rewrite (filter_none supported files Hall). simpl. f_equal.
  apply Permutation_nil_r. by rewrite sortByName_Permutation.
Qed.

(** The faces made of the groups of files. *)
Lemma faces_of_groups (files : list File) :
  forall face,
    face ∈ sortByName (map faceOfGroup (groupsOf files))
    <-> images face <> [] /\ images face = urlsOf (name face) files.
Proof.
  destruct (groups_spec files) as [Hnd Hlook].
  intros face. rewrite sortByName_Permutation.
  change (map faceOfGroup (groupsOf files)) with (faceOfGroup <$> groupsOf files).
  rewrite list_elem_of_fmap. split.
  - intros ([k urls] & -> & Hin). simpl.
    apply (elem_of_list_to_map (M := gmap string)) in Hin; [|exact Hnd].
    rewrite Hlook in Hin.
    destruct (urlsOf k files); [discriminate|].
    injection Hin as <-. done.
  - intros [Hne Heq]. exists (name face, images face). split; [by destruct face|].
    apply (elem_of_list_to_map (M := gmap string)); [exact Hnd|].
    rewrite Hlook, <- Heq. by destruct (images face).
Qed.

(** X16. [createFaceGroups] groups the supported files by the second
    part of their path.  It throws exactly when a supported file has a name
    that an object inherits.  Otherwise the faces it makes have distinct
    names, none of them inherited; a face is made for a name exactly when a
    supported file has that name, and its images are the URLs of the
    supported files of that name, in the order of the upload.  Files of
    other types are left out, and no face is made when no file is
    supported. *)
Theorem X16_faces_are_the_groups_of_supported_files (files : list File) :
  (createFaceGroups sortByName files = None
   <-> exists file, file ∈ files /\ supported file
                    /\ JS.inherited (faceName file) = true)
  /\ (forall faces, createFaceGroups sortByName files = Some faces ->
        NoDup (map name faces)
        /\ Forall (fun face => JS.inherited (name face) = false) faces
        /\ (forall face,
              face ∈ faces
              <-> images face <> []
                  /\ images face = urlsOf (name face) (filter supported files))
        /\ (forall file, file ∈ files -> supported file ->
              exists face, face ∈ faces
                           /\ name face = faceName file
                           /\ objectURL file ∈ images face)
        /\ (Forall (fun file => ~ supported file) files -> faces = [])).
Proof.
  unfold createFaceGroups.
  destruct (groupFiles_spec files) as [[Hall ->]|[Hex ->]].
  - split.
    { split; [discriminate|]. intros (file & Hin & Hsup & Hinh).
      rewrite Forall_forall in Hall.
      assert (Hfile : file ∈ filter supported files) by (by apply list_elem_of_filter).
      specialize (Hall file Hfile). congruence. }
    intros faces [= <-].
    pose proof (faces_of_groups (filter supported files)) as Hmem.
    destruct (groups_spec (filter supported files)) as [Hnd _].
    assert (Hurl : forall file, file ∈ files -> supported file ->
              objectURL file ∈ urlsOf (faceName file) (filter supported files)).
    { intros file Hin Hsup. unfold urlsOf. apply list_elem_of_fmap.
      exists file. split; [reflexivity|].
      apply list_elem_of_filter. split; [reflexivity|].
      by apply list_elem_of_filter. }
    split; [|split; [|split; [exact Hmem|split]]].
    + change (map name (sortByName (map faceOfGroup (groupsOf (filter supported files)))))
        with (name <$> sortByName (map faceOfGroup (groupsOf (filter supported files)))).
      rewrite sortByName_Permutation.
      change (map faceOfGroup (groupsOf (filter supported files)))
        with (faceOfGroup <$> groupsOf (filter supported files)).
      rewrite <- list_fmap_compose.
      replace (name ∘ faceOfGroup) with (fst : string * list string -> string);
        [exact Hnd|reflexivity].
    + apply Forall_forall. intros face Hface. apply Hmem in Hface as [Hne Heq].
      destruct (urlsOf (name face) (filter supported files)) as [|url urls] eqn:E;
        [congruence|].
      assert (Hu : url ∈ urlsOf (name face) (filter supported files))
        by (rewrite E; left).
      unfold urlsOf in Hu. apply list_elem_of_fmap in Hu as (file & _ & Hfile).
      apply list_elem_of_filter in Hfile as [Hname Hfile]. rewrite <- Hname.
      rewrite Forall_forall in Hall. by apply Hall.
    + intros file Hin Hsup.
      exists {| name := faceName file;
                images := urlsOf (faceName file) (filter supported files) |}.
      split; [|split; [reflexivity|by apply Hurl]].
      apply Hmem. simpl. split; [|reflexivity].
      intros Hnil. specialize (Hurl file Hin Hsup). rewrite Hnil in Hurl.
      by apply not_elem_of_nil in Hurl.
    + intros Hnone. rewrite (filter_none supported files Hnone). simpl.
      apply Permutation_nil_r. by rewrite sortByName_Permutation.
  - split; [|discriminate]. split; [|reflexivity]. intros _.
    apply Exists_exists in Hex as (file & Hfile & Hinh).
    apply list_elem_of_filter in Hfile as [Hsup Hin].
    by exists file.
Qed.

Lemma visited_displayNodes (facesArray : list Face) :
  visited (displayNodes facesArray) = [].
Proof.
  unfold visited, displayNodes. cbn [nodes links linkData findLinksOutOf].
  induction (key <$> faceNodes facesArray) as [|node rest IH]; [reflexivity|].
  simpl. exact IH.
Qed.

(** X17. An upload of at least one file throws exactly when
    [createFaceGroups] does, and it then leaves the face list as it was.
    After an upload that does not throw, the export neither warns nor
    throws: it downloads a file for the faces made of the upload, whose
    table has no link.  This holds also when none of the files is a
    supported image, in which case the face list is empty. *)
Theorem X17_export_after_upload_downloads
    (file : File) (files : list File) (state : option (list Face) * Diagram) :
  (onChangeImageUpload sortByName (file :: files) state = None
   <-> createFaceGroups sortByName (file :: files) = None)
  /\ (forall state',
        onChangeImageUpload sortByName (file :: files) state = Some state' ->
        exists facesArray text,
          createFaceGroups sortByName (file :: files) = Some facesArray
          /\ state'.1 = Some facesArray
          /\ Mapper.generateMappings facesArray state'.2 = Some ∅
          /\ onClickExport state'.1 state'.2 = Download "facesConfig.h" text)
  /\ (Forall (fun f => ~ supported f) (file :: files) ->
      onChangeImageUpload sortByName (file :: files) state
      = Some (Some [], displayNodes [])).
Proof.
  cbn [onChangeImageUpload]. split; [|split].
  - by destruct (createFaceGroups sortByName (file :: files)).
  - intros state'.
    destruct (createFaceGroups sortByName (file :: files)) as [facesArray|];
      [|discriminate].
    intros [= <-]. cbn [fst snd].
    assert (Hgen : Mapper.generateMappings facesArray (displayNodes facesArray) = Some ∅).
    { unfold Mapper.generateMappings. by rewrite visited_displayNodes. }
    unfold onClickExport, Mapper.generateConfigFile. rewrite Hgen.
    eexists _, _. split; [reflexivity|]. split; [reflexivity|].
    split; [exact Hgen|reflexivity].
  - intros Hall. by rewrite (createFaceGroups_none_supported _ Hall).
Qed.

End UploadImages.

Lemma sortFaces_Permutation faces : Examples.sortFaces faces ≡ₚ faces.
Proof.
  assert (Hins : forall face l, Examples.insertFace face l ≡ₚ face :: l).
  { intros face l. induction l as [|other l IH]; simpl; [done|].
    destruct (String.leb _ _); [done|]. rewrite IH. apply Permutation_swap. }
  induction faces as [|face faces IH]; simpl; [done|]. by rewrite Hins, IH.
Qed.

Lemma createFaceGroups_uploadedFiles :
  Mapper.createFaceGroups Examples.sortFaces Examples.uploadedFiles
  = Some Examples.uploadedFaces.
Proof. by vm_compute. Qed.

Lemma X16_faces_are_the_groups_of_supported_files_witness :
  (Mapper.createFaceGroups Examples.sortFaces Examples.uploadedFiles = None
   <-> exists file, file ∈ Examples.uploadedFiles /\ Mapper.supported file
                    /\ JS.inherited (Mapper.faceName file) = true)
  /\ (forall faces,
        Mapper.createFaceGroups Examples.sortFaces Examples.uploadedFiles = Some faces ->
        NoDup (map Mapper.name faces)
        /\ Forall (fun face => JS.inherited (Mapper.name face) = false) faces
        /\ (forall face,
              face ∈ faces
              <-> Mapper.images face <> []
                  /\ Mapper.images face
                     = Mapper.urlsOf (Mapper.name face)
                         (filter Mapper.supported Examples.uploadedFiles))
        /\ (forall file, file ∈ Examples.uploadedFiles -> Mapper.supported file ->
              exists face, face ∈ faces
                           /\ Mapper.name face = Mapper.faceName file
                           /\ Mapper.objectURL file ∈ Mapper.images face)
        /\ (Forall (fun file => ~ Mapper.supported file) Examples.uploadedFiles ->
            faces = [])).
Proof.
  apply (X16_faces_are_the_groups_of_supported_files Examples.sortFaces
           sortFaces_Permutation Examples.uploadedFiles).
Defined.

Lemma X17_export_after_upload_downloads_witness :
  (Mapper.onChangeImageUpload Examples.sortFaces Examples.uploadedFiles
     (None, Examples.emptyDiagram) = None
   <-> Mapper.createFaceGroups Examples.sortFaces Examples.uploadedFiles = None)
  /\ (forall state',
        Mapper.onChangeImageUpload Examples.sortFaces Examples.uploadedFiles
          (None, Examples.emptyDiagram) = Some state' ->
        exists facesArray text,
          Mapper.createFaceGroups Examples.sortFaces Examples.uploadedFiles
          = Some facesArray
          /\ state'.1 = Some facesArray
          /\ Mapper.generateMappings facesArray state'.2 = Some ∅
          /\ Mapper.onClickExport state'.1 state'.2
             = Mapper.Download "facesConfig.h" text)
  /\ (Forall (fun f => ~ Mapper.supported f) Examples.uploadedFiles ->
      Mapper.onChangeImageUpload Examples.sortFaces Examples.uploadedFiles
        (None, Examples.emptyDiagram)
      = Some (Some [], Mapper.displayNodes [])).
Proof.
  apply (X17_export_after_upload_downloads Examples.sortFaces sortFaces_Permutation).
Defined.

(** ** The two thresholds on black-and-white images *)

Section BlackAndWhite.

Import Mapping.

(** X18. On an image whose red samples are all 0 or 255, as the images
    the editor saves are, the packer and the editor agree: the bit the
    packer writes for a pixel is the value the editor reads for it. *)
Theorem X18_packer_agrees_with_editor_on_black_and_white (pixels : list (Z * Z * Z * Z)) :
  Forall (fun pixel => red pixel = 0%Z \/ red pixel = 255%Z) pixels ->
  redChannelData (imageData pixels)
  = map (fun pixel => Editor.threshold (Some (red pixel))) pixels.
Proof.
  intros Hall. rewrite redChannelData_imageData.
  apply map_ext_in. intros pixel Hin. rewrite Forall_forall in Hall.
  apply list_elem_of_In in Hin. unfold Editor.threshold.
  destruct (Hall pixel Hin) as [-> | ->]; reflexivity.
Qed.

Lemma X18_packer_agrees_with_editor_on_black_and_white_witness :
  redChannelData (imageData Examples.blackAndWhite)
  = map (fun pixel => Editor.threshold (Some (red pixel))) Examples.blackAndWhite.
Proof.
  apply (X18_packer_agrees_with_editor_on_black_and_white Examples.blackAndWhite).
  unfold Examples.blackAndWhite.
  repeat (apply Forall_cons; split; [first [by left | by right]|]).
  apply Forall_nil_2.
Defined.

End BlackAndWhite.

(** ** Drawing a reverse link, then exporting *)

Section DrawThenExport.

Import GoDiagram Mapper.

Lemma raised_ends a b data :
  from (raised a b data) = from data /\ to (raised a b data) = to data.
Proof. unfold raised. by destruct (_ && _). Qed.

(** The diagram after the reverse of a link of the diagram has been drawn. *)
Lemma drawLink_reverse_effect (d : Diagram) (subject existing a b : nat) (data : LinkData) :
  subject ∉ links d ->
  existing ∈ links d ->
  linkData d !! existing = Some data ->
  from data = a -> to data = b ->
  exists d',
    drawLink subject b a d = Some d'
    /\ nodes d' = nodes d
    /\ links d' = links d
    /\ forall l, l ∈ links d -> linkData d' !! l = raised a b <$> linkData d !! l.
Proof.
  intros Hfresh Hin Hdata Hfrom Hto.
  unfold drawLink, onLinkDrawn. cbn [linkData setDataProperty links nodes].
  rewrite lookup_alter_eq, lookup_insert_eq.
  cbn [fmap option_fmap option_map setBiDirectional to].
  set (d1 := setDataProperty subject false _).
  set (its := findLinksOutOf d1 a).
  set (d' := foldl (nextItem subject) d1 its).
  assert (Hsub : from <$> linkData d1 !! subject = Some b).
  { unfold d1. simpl. by rewrite lookup_alter_eq, lookup_insert_eq. }
  assert (Hd1 : forall l, l ∈ links d -> linkData d1 !! l = linkData d !! l).
  { intros l Hl. assert (l <> subject) by (intros ->; contradiction).
    unfold d1. simpl. by rewrite lookup_alter_ne, lookup_insert_ne. }
  assert (Hev : evolves subject d1 d') by apply evolves_foldl.
  assert (Hits : forall l data', l ∈ links d -> linkData d !! l = Some data' ->
            from data' = a -> l ∈ its).
  { intros l data' Hl Hl' Hf. unfold its, findLinksOutOf. rewrite list_elem_of_filter.
    split; [rewrite (Hd1 l Hl), Hl'; simpl; by rewrite Hf|].
    unfold d1. simpl. rewrite elem_of_app. by left. }
  assert (Hold : forall l, l ∈ links d -> l <> subject /\ l ∈ links d1).
  { intros l Hl. split; [intros ->; contradiction|].
    unfold d1. simpl. rewrite elem_of_app. by left. }
  assert (Hm : merged subject existing d').
  { destruct (Hold existing Hin) as [Hne Hin1].
    apply (foldl_merged subject b existing its d1 Hsub);
      [|exact Hne|exact Hin1|by eapply Hits].
    rewrite (Hd1 _ Hin), Hdata. simpl. by rewrite Hto. }
  exists d'. split; [reflexivity|]. split; [by destruct Hev as (-> & _)|]. split.
  - destruct Hm as [Hgone _]. destruct Hev as (_ & _ & [E|E]).
    + exfalso. apply Hgone. rewrite E. unfold d1. simpl.
      rewrite elem_of_app, list_elem_of_singleton. by right.
    + rewrite E. unfold d1. simpl. by apply filter_ne_fresh.
  - intros l Hl. rewrite <- (Hd1 l Hl).
    destruct (linkData d1 !! l) as [data'|] eqn:El.
    + simpl. unfold raised.
      destruct (Nat.eqb_spec (from data') a) as [Hf|Hf];
        destruct (Nat.eqb_spec (to data') b) as [Ht|Ht]; cbn [andb].
      * destruct (Hold l Hl) as [Hne Hin1].
        destruct (foldl_merged subject b l its d1 Hsub) as [_ Hflag];
          [|exact Hne|exact Hin1| |].
        { rewrite El. simpl. by rewrite Ht. }
        { apply (Hits l data' Hl); [by rewrite <- (Hd1 l Hl)|exact Hf]. }
        fold d' in Hflag. destruct Hev as (_ & Hd & _). destruct (Hd l) as [E|E].
        -- rewrite E, El in Hflag |- *. simpl in Hflag. injection Hflag as Hflag.
           destruct data' as [f t bi]. simpl in Hflag. by rewrite Hflag.
        -- by rewrite E, El.
      * unfold d'. rewrite foldl_other; [exact El|]. right.
        rewrite El, Hsub. simpl. congruence.
      * unfold d'. rewrite foldl_other; [exact El|]. left.
        unfold its, findLinksOutOf. rewrite list_elem_of_filter, El. simpl.
        intros [Hf' _]. congruence.
      * unfold d'. rewrite foldl_other; [exact El|]. right.
        rewrite El, Hsub. simpl. congruence.
    + simpl. destruct Hev as (_ & Hd & _). destruct (Hd l) as [E|E]; by rewrite E, El.
Qed.

(** The links out of a node, read through a store in which flags have
    been raised. *)
Lemma linksOutOf_raised (h h' : gmap nat LinkData) a b node : forall ls : list nat,
  (forall l, l ∈ ls -> h' !! l = raised a b <$> h !! l) ->
  omap (fun l => h' !! l) (filter (fun l => from <$> h' !! l = Some node) ls)
  = map (raised a b)
      (omap (fun l => h !! l) (filter (fun l => from <$> h !! l = Some node) ls)).
Proof.
  induction ls as [|l ls IH]; intros Hh; [reflexivity|].
  assert (Hl : h' !! l = raised a b <$> h !! l) by (apply Hh; left).
  assert (Hls : forall l0, l0 ∈ ls -> h' !! l0 = raised a b <$> h !! l0)
    by (intros l0 H0; apply Hh; by right).
  rewrite !filter_cons.
  assert (Hfrom : from <$> h' !! l = from <$> h !! l).
  { rewrite Hl. destruct (h !! l) as [data|]; [|reflexivity].
    simpl. f_equal. apply raised_ends. }
  destruct (decide (from <$> h' !! l = Some node)) as [E'|E'];
    destruct (decide (from <$> h !! l = Some node)) as [E|E];
    try (rewrite Hfrom in E'; contradiction); [|by apply IH].
  cbn [omap list_omap]. rewrite Hl.
  destruct (h !! l) as [data|]; [|discriminate]. simpl.
  f_equal. by apply IH.
Qed.

Lemma visited_raised (d d' : Diagram) a b :
  nodes d' = nodes d ->
  links d' = links d ->
  (forall l, l ∈ links d -> linkData d' !! l = raised a b <$> linkData d !! l) ->
  visited d' = map (raised a b) (visited d).
Proof.
  intros Hn Hl Hh. unfold visited, findLinksOutOf. rewrite Hn, Hl. clear Hn.
  induction (nodes d) as [|node ns IH]; [reflexivity|].
  simpl. rewrite map_app, IH. f_equal. by apply linksOutOf_raised.
Qed.

Lemma joins_raised a b a' b' data : joins a' b' (raised a b data) = joins a' b' data.
Proof. unfold joins. by destruct (raised_ends a b data) as [-> ->]. Qed.

Lemma filter_joins_raised a b (items : list LinkData) :
  filter (fun other => joins a b other = true) (map (raised a b) items)
  = map (raised a b) (filter (fun other => joins a b other = true) items).
Proof.
  induction items as [|item items IH]; [reflexivity|].
  simpl. rewrite !filter_cons, joins_raised.
  destruct (decide (joins a b item = true)); simpl; by rewrite IH.
Qed.

(** The link of a visited datum. *)
Lemma visited_link (d : Diagram) (data : LinkData) :
  data ∈ visited d -> exists l, l ∈ links d /\ linkData d !! l = Some data.
Proof.
  unfold visited. intros H. apply list_elem_of_In, in_concat in H as (ls & Hls & H).
  apply in_map_iff in Hls as (node & <- & _).
  apply list_elem_of_In, list_elem_of_omap in H as (l & Hl & Hdata).
  apply list_elem_of_filter in Hl as [_ Hl]. by exists l.
Qed.

(** The tokens of the only link between two distinct faces, counted in the
    out-lists of its ends. *)
Lemma only_link_counted facesArray (items : list LinkData) item source target :
  NoDup (map upperName facesArray) ->
  from item <> to item ->
  filter (fun other => joins (from item) (to item) other = true) items = [item] ->
  facesArray !! from item = Some source ->
  facesArray !! to item = Some target ->
  occurrences (upperName target) (concat (map (contribution facesArray (from item)) items)) = 1
  /\ occurrences (upperName source) (concat (map (contribution facesArray (to item)) items))
     = (if isBiDirectional item then 1 else 0).
Proof.
  intros Hnd Hne Hone Ef Et.
  apply filter_singleton_split in Hone as (l1 & l2 & -> & Hothers).
  apply Forall_app in Hothers as [H1 H2].
  rewrite !map_app, !concat_app. simpl. rewrite !occurrences_app. split.
  - rewrite !(occurrences_others facesArray (from item) (to item) target) by done.
    unfold contribution. rewrite Nat.eqb_refl, Et.
    destruct (Nat.eqb_spec (to item) (from item)) as [E|_]; [by symmetry in E|].
    rewrite andb_false_r. simpl. by destruct (string_dec _ _).
  - assert (H1' : Forall (fun other => ~ joins (to item) (from item) other = true) l1).
    { eapply Forall_impl; [exact H1|]. intros o Ho. by rewrite joins_sym. }
    assert (H2' : Forall (fun other => ~ joins (to item) (from item) other = true) l2).
    { eapply Forall_impl; [exact H2|]. intros o Ho. by rewrite joins_sym. }
    rewrite !(occurrences_others facesArray (to item) (from item) source) by done.
    unfold contribution. rewrite Nat.eqb_refl, Ef.
    destruct (Nat.eqb_spec (from item) (to item)) as [E|_]; [done|].
    destruct (isBiDirectional item); simpl; [by destruct (string_dec _ _)|reflexivity].
Qed.

(** X19. Drawing, then exporting.  Suppose the links [mapper.js] visits
    all join faces, one of them goes from [a] to a different face [b], and
    no other visited link joins the two.  When the user draws a link from
    [b] to [a], the listener finishes, the export then succeeds, and in its
    mapping the name of [b] is once in the out-list of [a] and the name of
    [a] is once in the out-list of [b].  Before the drawing the export
    succeeds as well, with the name of [b] once in the out-list of [a], and
    with the name of [a] in the out-list of [b] only if the link was
    already marked bidirectional. *)
Theorem X19_drawing_the_reverse_link_adds_the_way_back
    (facesArray : list Face) (d : Diagram) (subject a b : nat) (data : LinkData) :
  subject ∉ links d ->
  Forall (fun item => from item < length facesArray /\ to item < length facesArray)
         (visited d) ->
  NoDup (map upperName facesArray) ->
  from data = a -> to data = b -> a <> b ->
  filter (fun other => joins a b other = true) (visited d) = [data] ->
  exists d' before after source target,
    drawLink subject b a d = Some d'
    /\ generateMappings facesArray d = Some before
    /\ generateMappings facesArray d' = Some after
    /\ facesArray !! a = Some source
    /\ facesArray !! b = Some target
    /\ occurrences (upperName target) (outList before a) = 1
    /\ occurrences (upperName source) (outList before b)
       = (if isBiDirectional data then 1 else 0)
    /\ occurrences (upperName target) (outList after a) = 1
    /\ occurrences (upperName source) (outList after b) = 1.
Proof.
  intros Hfresh Hall Hnd Hfrom Hto Hne Hone.
  assert (Hin : data ∈ visited d).
  { assert (H : data ∈ filter (fun other => joins a b other = true) (visited d))
      by (rewrite Hone; left).
    by apply list_elem_of_filter in H as [_ H]. }
  destruct (visited_link d data Hin) as (existing & Hex & Hdata).
  destruct (drawLink_reverse_effect d subject existing a b data Hfresh Hex Hdata Hfrom Hto)
    as (d' & Hdraw & Hnodes & Hlinks & Hheap).
  pose proof (visited_raised d d' a b Hnodes Hlinks Hheap) as Hv.
  assert (Hends : from data < length facesArray /\ to data < length facesArray).
  { rewrite Forall_forall in Hall. by apply Hall. }
  destruct Hends as [Hf Ht].
  destruct (lookup_lt_is_Some_2 facesArray _ Hf) as [source Ef].
  destruct (lookup_lt_is_Some_2 facesArray _ Ht) as [target Et].
  assert (Hbefore : Forall (endsAreFaces facesArray) (visited d)).
  { eapply Forall_impl; [exact Hall|]. intros item [? ?]. by split. }
  assert (Hafter : Forall (endsAreFaces facesArray) (visited d')).
  { rewrite Hv. apply Forall_forall. intros item Hitem.
    apply list_elem_of_In, in_map_iff in Hitem as (item0 & <- & Hitem).
    rewrite Forall_forall in Hall. destruct (Hall item0) as [? ?]; [by apply list_elem_of_In|].
    unfold endsAreFaces. by destruct (raised_ends a b item0) as [-> ->]. }
  destruct (visitLinks_total facesArray (visited d) ∅ Hbefore) as [before Hb].
  destruct (visitLinks_total facesArray (visited d') ∅ Hafter) as [after Ha].
  exists d', before, after, source, target.
  split; [exact Hdraw|]. split; [exact Hb|]. split; [exact Ha|].
  split; [by rewrite <- Hfrom|]. split; [by rewrite <- Hto|].
  rewrite !(generateMappings_outList facesArray d before _ Hb).
  rewrite !(generateMappings_outList facesArray d' after _ Ha).
  subst a b.
  destruct (only_link_counted facesArray (visited d) data source target)
    as [B1 B2]; try done.
  assert (Hraised : raised (from data) (to data) data = setBiDirectional true data).
  { unfold raised. by rewrite !Nat.eqb_refl. }
  destruct (only_link_counted facesArray (visited d') (setBiDirectional true data)
              source target) as [A1 A2]; [done|done| |done|done|].
  { simpl. by rewrite Hv, filter_joins_raised, Hone, <- Hraised. }
  simpl in A1, A2. done.
Qed.

End DrawThenExport.

Lemma X19_drawing_the_reverse_link_adds_the_way_back_witness :
  exists d' before after source target,
    GoDiagram.drawLink 8 1 0 Examples.oneLinkDiagram = Some d'
    /\ Mapper.generateMappings Examples.threeFaces Examples.oneLinkDiagram = Some before
    /\ Mapper.generateMappings Examples.threeFaces d' = Some after
    /\ Examples.threeFaces !! 0 = Some source
    /\ Examples.threeFaces !! 1 = Some target
    /\ Mapper.occurrences (Mapper.upperName target) (Mapper.outList before 0) = 1
    /\ Mapper.occurrences (Mapper.upperName source) (Mapper.outList before 1)
       = (if GoDiagram.isBiDirectional Examples.plainAB then 1 else 0)
    /\ Mapper.occurrences (Mapper.upperName target) (Mapper.outList after 0) = 1
    /\ Mapper.occurrences (Mapper.upperName source) (Mapper.outList after 1) = 1.
Proof.
  apply (X19_drawing_the_reverse_link_adds_the_way_back
           Examples.threeFaces Examples.oneLinkDiagram 8 0 1 Examples.plainAB).
  - simpl. intros H. apply list_elem_of_singleton in H. discriminate.
  - change (Mapper.visited Examples.oneLinkDiagram) with [Examples.plainAB].
    repeat constructor; simpl; lia.
  - apply (bool_decide_unpack (NoDup (map Mapper.upperName Examples.threeFaces))).
    by vm_compute.
  - reflexivity.
  - reflexivity.
  - lia.
  - reflexivity.
Defined.
